(** * blinkerc: class-level signals on top of blinker

    A shallow embedding of [blinkerc/blinkerc.py].  The Python module keeps
    its registries in module-level and class-level mutable objects; here they
    are the fields of one explicit [State], and every function of the module
    is a state transformer that may raise.

    What is taken from the Python run time and from blinker, and how:
    - objects with identity (classes, signals, function objects) are natural
      numbers handed out in creation order;
    - a blinker [Signal] keeps its receivers in a dict keyed by the identity
      of the receiver, so connecting a receiver twice changes nothing, and it
      holds them through weak references, so a receiver whose last strong
      reference goes away is disconnected by blinker's cleanup callback;
    - the closures made by [make_cascade] and [make_all_cascade] have exactly
      one strong reference, the class attribute they are stored under;
    - user handlers are kept alive by their own modules and are observers:
      a call of a handler is recorded in the state's call log and does
      nothing else;
    - the two closures take the sender in a parameter named [sender], so a
      call that also has a keyword of that name raises [TypeError];
    - [object] is a built-in type, and setting an attribute of it raises
      [TypeError];
    - the methods of [PointAccessNamespace] are modelled on their own, on
      the items of the dict and the [__dict__] of the instance, apart from
      the signals the registries keep in it. *)

From stdpp Require Import base decidable option list strings gmap.
From Stdlib Require Import Lia.

Abbreviation ClassId := nat.
Abbreviation ChanId := nat.

(** ** Dictionaries with Python's insertion order *)

Section Dict.
Context {V : Type}.

Definition dict := list (string * V).

Fixpoint dict_get (d : dict) (k : string) : option V :=
  match d with
  | [] => None
  | (k', v) :: d' => if decide (k = k') then Some v else dict_get d' k
  end.

(** [d[k] = v]: an existing key keeps its position, a new key goes last. *)
Fixpoint dict_set (d : dict) (k : string) (v : V) : dict :=
  match d with
  | [] => [(k, v)]
  | (k', v') :: d' =>
      if decide (k = k') then (k, v) :: d' else (k', v') :: dict_set d' k v
  end.

(** [{**d1, **d2}] *)
Definition dict_merge (d1 d2 : dict) : dict :=
  foldl (λ acc kv, dict_set acc kv.1 kv.2) d1 d2.

Definition dict_keys (d : dict) : list string := d.*1.

Definition dict_mem (d : dict) (k : string) : bool :=
  bool_decide (is_Some (dict_get d k)).
End Dict.
Arguments dict : clear implicits.

(** ** Data *)

(** [SignalSchema]: the two private attributes set by [__init__]. *)
Record SignalSchema := { _name : string; _cascade : bool }.

(** An argument of [signals(...)]: a bare name or a schema. *)
Inductive SchemaArg :=
| ArgStr (nm : string)
| ArgSchema (sc : SignalSchema).

(** A user's handler: a function object and its [__name__]. *)
Record Handler := { fn_id : nat; fn_name : string }.

(** What a class-level signal can have connected: a user's handler, or one
    of the two closures the decorator makes.  The closure carries the name
    it was made for, the base signal it forwards to. *)
Inductive Receiver :=
| User (h : Handler)
| CascadePadre (fid : nat) (target : string)
| AllCascadePadre (fid : nat) (target : string).

Global Instance SignalSchema_eq_dec : EqDecision SignalSchema.
Proof. solve_decision. Defined.
Global Instance Handler_eq_dec : EqDecision Handler.
Proof. solve_decision. Defined.
Global Instance Receiver_eq_dec : EqDecision Receiver.
Proof. solve_decision. Defined.

(** [x.__name__] of a receiver. *)
Definition receiver_name (r : Receiver) : string :=
  match r with
  | User h => fn_name h
  | CascadePadre _ _ => "__cascade_padre"
  | AllCascadePadre _ _ => "__all_cascade_padre"
  end.

(** A named signal of a class namespace. *)
Record Signal := { sig_name : string; receivers : list Receiver }.

(** A class object: its bases, the rest of its [mro()] after itself, and
    the attributes this module sets on it: [signal_namespace], a
    [PointAccessNamespace] from names to signal objects, and the
    ["_cascade_..."] attributes that keep the closures alive. *)
Record Class := {
  bases : list ClassId;
  ancestors : list ClassId;
  signal_namespace : option (dict ChanId);
  cascade_attrs : dict Receiver
}.

Inductive Sender :=
| NoSender
| SenderClass (c : ClassId)
| SenderInstance (c : ClassId) (i : nat)
| SenderObject (o : nat).

Inductive Value :=
| VNat (n : nat)
| VStr (x : string)
| VSchema (sc : SignalSchema).

Global Instance Sender_eq_dec : EqDecision Sender.
Proof. solve_decision. Defined.
Global Instance Value_eq_dec : EqDecision Value.
Proof. solve_decision. Defined.

(** The signal that delivered a call. *)
Inductive Via :=
| ViaClassSignal (c : ChanId)
| ViaBaseSignal (nm : string).

Global Instance Via_eq_dec : EqDecision Via.
Proof. solve_decision. Defined.

(** One call [receiver(sender, **kwargs)] of a user's handler. *)
Record Call := {
  call_via : Via;
  call_fn : Handler;
  call_sender : Sender;
  call_kwargs : dict Value
}.

Global Instance Call_eq_dec : EqDecision Call.
Proof. solve_decision. Defined.

Inductive ValueErrorMsg :=
| SignalNotDefinedOnClass      (* "Signal not defined on class ..." *)
| SignalNotExisting            (* "Signal is not existing on ..." *)
| NamespaceNotDefined          (* "Namespace not defined on ..." *)
| NeedClass.                   (* "You need to provide a class ..." *)

Inductive Error :=
| ValueError (msg : ValueErrorMsg)
| TypeError
| AttributeError
| RecursionError.

Global Instance ValueErrorMsg_eq_dec : EqDecision ValueErrorMsg.
Proof. solve_decision. Defined.
Global Instance Error_eq_dec : EqDecision Error.
Proof. solve_decision. Defined.

(** ** The state of the module *)

Record State := {
  classes : list Class;
  signal_classes : gset ClassId;
  base_signals : dict (list Handler);
  heap : list Signal;
  next_fn : nat;
  calls : list Call
}.

Definition set_classes (f : list Class → list Class) (s : State) : State :=
  {| classes := f (classes s); signal_classes := signal_classes s;
     base_signals := base_signals s; heap := heap s;
     next_fn := next_fn s; calls := calls s |}.
Definition set_signal_classes (f : gset ClassId → gset ClassId) (s : State) : State :=
  {| classes := classes s; signal_classes := f (signal_classes s);
     base_signals := base_signals s; heap := heap s;
     next_fn := next_fn s; calls := calls s |}.
Definition set_base_signals (f : dict (list Handler) → dict (list Handler))
    (s : State) : State :=
  {| classes := classes s; signal_classes := signal_classes s;
     base_signals := f (base_signals s); heap := heap s;
     next_fn := next_fn s; calls := calls s |}.
Definition set_heap (f : list Signal → list Signal) (s : State) : State :=
  {| classes := classes s; signal_classes := signal_classes s;
     base_signals := base_signals s; heap := f (heap s);
     next_fn := next_fn s; calls := calls s |}.
Definition set_next_fn (f : nat → nat) (s : State) : State :=
  {| classes := classes s; signal_classes := signal_classes s;
     base_signals := base_signals s; heap := heap s;
     next_fn := f (next_fn s); calls := calls s |}.
Definition set_calls (f : list Call → list Call) (s : State) : State :=
  {| classes := classes s; signal_classes := signal_classes s;
     base_signals := base_signals s; heap := heap s;
     next_fn := next_fn s; calls := f (calls s) |}.

(** ** Computations that change the state and may raise *)

Inductive Result (A : Type) :=
| Ok (a : A)
| Raise (e : Error).
Arguments Ok {A} a.
Arguments Raise {A} e.

Definition M (A : Type) : Type := State → State * Result A.

Definition ret {A} (a : A) : M A := λ s, (s, Ok a).
Definition raise {A} (e : Error) : M A := λ s, (s, Raise e).
Definition bind {A B} (m : M A) (k : A → M B) : M B :=
  λ s, match m s with
       | (s', Ok a) => k a s'
       | (s', Raise e) => (s', Raise e)
       end.
Definition get {A} (f : State → A) : M A := λ s, (s, Ok (f s)).
Definition modify (f : State → State) : M unit := λ s, (f s, Ok ()).

Notation "x <~ m ;; k" := (bind m (λ x, k))
  (at level 100, m at next level, right associativity).
Notation "m ;;; k" := (bind m (λ _, k))
  (at level 100, right associativity).

(** [for x in l: body(x)] *)
Fixpoint for_each {A} (l : list A) (body : A → M unit) : M unit :=
  match l with
  | [] => ret ()
  | x :: l' => body x ;;; for_each l' body
  end.

(** The state a computation leaves, and what it returned or raised. *)
Definition exec {A} (m : M A) (s : State) : State := (m s).1.
Definition outcome {A} (m : M A) (s : State) : Result A := (m s).2.

(** ** Classes: [mro()], [issubclass], attribute lookup, [__subclasses__()] *)

Definition object_ : ClassId := 0.
Definition SuperStop : ClassId := 1.
Definition Signaler : ClassId := 2.

Definition EVENT_TRIGGERED : string := "generic_event".

(** The module right after import: [object], [SuperStop], [Signaler], and
    [base_signals] holding the signal named by [EVENT_TRIGGERED]. *)
Definition initial : State :=
  {| classes :=
       [ {| bases := []; ancestors := [];
            signal_namespace := None; cascade_attrs := [] |};
         {| bases := [object_]; ancestors := [object_];
            signal_namespace := None; cascade_attrs := [] |};
         {| bases := [SuperStop]; ancestors := [SuperStop; object_];
            signal_namespace := None; cascade_attrs := [] |} ];
     signal_classes := ∅;
     base_signals := [(EVENT_TRIGGERED, [])];
     heap := [];
     next_fn := 0;
     calls := [] |}.

Definition mro (s : State) (c : ClassId) : list ClassId :=
  match classes s !! c with
  | Some k => c :: ancestors k
  | None => []
  end.

Definition issubclass (s : State) (c limit : ClassId) : bool :=
  bool_decide (limit ∈ mro s c).

(** The class's own [signal_namespace], from its [__dict__]. *)
Definition own_namespace (s : State) (c : ClassId) : option (dict ChanId) :=
  classes s !! c ≫= signal_namespace.

(** [getattr(c, "signal_namespace")]: the first class of the mro that has
    the attribute in its own [__dict__]. *)
Definition getattr_namespace (s : State) (c : ClassId) : option (dict ChanId) :=
  list_find (λ p, is_Some (own_namespace s p)) (mro s c)
    ≫= λ ip, own_namespace s ip.2.

Definition hasattr_namespace (s : State) (c : ClassId) : bool :=
  bool_decide (is_Some (getattr_namespace s c)).

Definition bases_of (s : State) (c : ClassId) : list ClassId :=
  match classes s !! c with
  | Some k => bases k
  | None => []
  end.

(** [c.__subclasses__()]: the classes that name [c] among their bases. *)
Definition subclasses (s : State) (c : ClassId) : list ClassId :=
  filter (λ d, c ∈ bases_of s d) (seq 0 (length (classes s))).

(** Python's C3 linearization, which [type] runs when a class is made. *)
Fixpoint c3_merge (fuel : nat) (seqs : list (list ClassId))
    : option (list ClassId) :=
  let live := filter (λ sq, sq ≠ []) seqs in
  match live with
  | [] => Some []
  | _ =>
      match fuel with
      | 0 => None
      | S fuel' =>
          match list_find
                  (λ h, Forall (λ sq, h ∉ tail sq) live)
                  (omap head live) with
          | None => None
          | Some (_, h) =>
              cons h <$>
                c3_merge fuel'
                  (map (λ sq, if decide (head sq = Some h) then tail sq else sq)
                       live)
          end
      end
  end.

Definition linearize (s : State) (bs : list ClassId) : option (list ClassId) :=
  let seqs := map (mro s) bs ++ [bs] in
  c3_merge (S (length (concat seqs))) seqs.

(** A [class] statement with the bases [bs] and an empty body.  The new
    class is the value returned. *)
Definition define_class (bs : list ClassId) : M ClassId :=
  λ s,
    let bs := if decide (bs = []) then [object_] else bs in
    if bool_decide (Forall (λ b, b < length (classes s)) bs ∧ NoDup bs) then
      match linearize s bs with
      | Some anc =>
          (set_classes
             (λ cl, cl ++ [ {| bases := bs; ancestors := anc;
                               signal_namespace := None;
                               cascade_attrs := [] |} ]) s,
           Ok (length (classes s)))
      | None => (s, Raise TypeError)
      end
    else (s, Raise TypeError).

(** ** blinker: signals *)

(** [signal.connect(r)]: the receivers are keyed by identity. *)
Definition connect_receiver (r : Receiver) (sg : Signal) : Signal :=
  if decide (r ∈ receivers sg) then sg
  else {| sig_name := sig_name sg; receivers := receivers sg ++ [r] |}.

Definition signal_connect (c : ChanId) (r : Receiver) : M unit :=
  modify (set_heap (alter (connect_receiver r) c)).

(** blinker's [_cleanup_receiver], run for every signal that held [r]
    when [r] is collected. *)
Definition disconnect_receiver (r : Receiver) (sg : Signal) : Signal :=
  {| sig_name := sig_name sg; receivers := filter (λ x, x ≠ r) (receivers sg) |}.

Definition release (r : Receiver) : State → State :=
  set_heap (map (disconnect_receiver r)).

(** [namespace.signal(nm)] on the namespace being built: the signal of that
    name, made now if the namespace has none. *)
Definition namespace_signal (ns : dict ChanId) (nm : string)
    : M (dict ChanId * ChanId) :=
  match dict_get ns nm with
  | Some c => ret (ns, c)
  | None =>
      λ s, let c := length (heap s) in
           (set_heap (λ h, h ++ [ {| sig_name := nm; receivers := [] |} ]) s,
            Ok (dict_set ns nm c, c))
  end.

(** [base_signals.signal(nm)] *)
Definition base_signal_create (nm : string) : M unit :=
  modify (set_base_signals
            (λ b, if dict_mem b nm then b else dict_set b nm [])).

Definition log_call (via : Via) (h : Handler) (sender : Sender)
    (kwargs : dict Value) : M unit :=
  modify (set_calls
            (λ l, l ++ [ {| call_via := via; call_fn := h;
                            call_sender := sender; call_kwargs := kwargs |} ])).

(** [base_signals.get(nm).send(sender, **kwargs)], the body of both
    closures.  [get] gives [None] for a missing name, and [None] has no
    [send]. *)
Definition base_send (nm : string) (sender : Sender) (kwargs : dict Value)
    : M unit :=
  b <~ get base_signals ;;
  match dict_get b nm with
  | None => raise AttributeError
  | Some hs => for_each hs (λ h, log_call (ViaBaseSignal nm) h sender kwargs)
  end.

(** A call [closure(sender, **kwargs)] of one of the two closures of the
    decorator.  Their first parameter is named [sender]: a keyword of that
    name gives it a second value, and the call raises before the body
    runs. *)
Definition call_closure (nm : string) (sender : Sender)
    (kwargs : dict Value) : M unit :=
  if bool_decide ("sender" ∈ dict_keys kwargs) then raise TypeError
  else base_send nm sender kwargs.

(** One receiver called by a class-level signal:
    [receiver(sender, **kwargs)]. *)
Definition call_receiver (c : ChanId) (r : Receiver) (sender : Sender)
    (kwargs : dict Value) : M unit :=
  match r with
  | User h => log_call (ViaClassSignal c) h sender kwargs
  | CascadePadre _ nm => call_closure nm sender kwargs
  | AllCascadePadre _ nm => call_closure nm sender kwargs
  end.

(** [signal.send] of blinker, called with [*sender] and [**kwargs]: at most one positional
    argument, and the receivers are called one after the other, up to the
    first that raises. *)
Definition signal_send (c : ChanId) (sender : list Sender)
    (kwargs : dict Value) : M unit :=
  match sender with
  | _ :: _ :: _ => raise TypeError
  | _ =>
      let sender := default NoSender (head sender) in
      h <~ get heap ;;
      match h !! c with
      | None => raise AttributeError
      | Some sg =>
          for_each (receivers sg) (λ r, call_receiver c r sender kwargs)
      end
  end.

(** ** [_merge_dict_class_vars] *)

Definition _merge_dict_class_vars (s : State) (clz limit_clz : ClassId)
    : dict ChanId :=
  foldl (λ var pclz,
           if issubclass s pclz limit_clz && hasattr_namespace s pclz
           then dict_merge var (default [] (getattr_namespace s pclz))
           else var)
        [] (mro s clz).

(** ** [signals] *)

Definition schema_of_arg (a : SchemaArg) : SignalSchema :=
  match a with
  | ArgStr nm => {| _name := nm; _cascade := false |}
  | ArgSchema sc => sc
  end.

(** [next((True for x in signal.receivers_for(ANY)
          if x.__name__ == "cascade"), False)] *)
Definition is_cascading (sg : Signal) : bool :=
  bool_decide (Exists (λ x, receiver_name x = "cascade") (receivers sg)).

(** The schemata the decorator adds for the inherited names. *)
Definition inherited_schemata (s : State) (cls : ClassId) : list SchemaArg :=
  map (λ nc, ArgSchema
               {| _name := nc.1;
                  _cascade := from_option is_cascading false (heap s !! nc.2) |})
      (_merge_dict_class_vars s cls Signaler).

Definition fresh_fn : M nat :=
  λ s, (set_next_fn S s, Ok (next_fn s)).

Definition make_cascade (nm : string) : M Receiver :=
  fid <~ fresh_fn ;; ret (CascadePadre fid nm).

Definition make_all_cascade (nm : string) : M Receiver :=
  fid <~ fresh_fn ;; ret (AllCascadePadre fid nm).

Definition set_cascade_attrs (f : dict Receiver → dict Receiver) (k : Class)
    : Class :=
  {| bases := bases k; ancestors := ancestors k;
     signal_namespace := signal_namespace k;
     cascade_attrs := f (cascade_attrs k) |}.

Definition set_signal_namespace (ns : dict ChanId) (k : Class) : Class :=
  {| bases := bases k; ancestors := ancestors k;
     signal_namespace := Some ns;
     cascade_attrs := cascade_attrs k |}.

Definition own_attr (s : State) (cls : ClassId) (key : string)
    : option Receiver :=
  classes s !! cls ≫= λ k, dict_get (cascade_attrs k) key.

(** [setattr(cls, key, r)] for a closure [r]: the closure that was stored
    under [key] loses its only strong reference.  [object] is a built-in
    type, and setting an attribute of it raises. *)
Definition setattr_cascade (cls : ClassId) (key : string) (r : Receiver)
    : M unit :=
  if decide (cls = object_) then raise TypeError else
  old <~ get (λ s, own_attr s cls key) ;;
  modify (set_classes (alter (set_cascade_attrs (λ d, dict_set d key r)) cls)) ;;;
  modify (from_option release id old).

(** The names of the attributes that hold the closures:
    ["_cascade_" + schema.name] and
    ["_cascade_" + EVENT_TRIGGERED + "_" + schema.name]. *)
Definition cascade_key (nm : string) : string := "_cascade_" +:+ nm.
Definition all_cascade_key (nm : string) : string :=
  "_cascade_" +:+ EVENT_TRIGGERED +:+ "_" +:+ nm.

(** The body of [for schema in schemata]. *)
Definition declare_schema (cls : ClassId) (namespace : dict ChanId)
    (a : SchemaArg) : M (dict ChanId) :=
  let schema := schema_of_arg a in
  ns_signal <~ namespace_signal namespace (_name schema) ;;
  let signal := ns_signal.2 in
  (if _cascade schema then
     base_signal_create (_name schema) ;;;
     f <~ make_cascade (_name schema) ;;
     setattr_cascade cls (cascade_key (_name schema)) f ;;;
     signal_connect signal f
   else ret ()) ;;;
  g <~ make_all_cascade EVENT_TRIGGERED ;;
  setattr_cascade cls (all_cascade_key (_name schema)) g ;;;
  signal_connect signal g ;;;
  ret ns_signal.1.

Fixpoint declare_all (cls : ClassId) (namespace : dict ChanId)
    (schemata : list SchemaArg) : M (dict ChanId) :=
  match schemata with
  | [] => ret namespace
  | a :: rest =>
      namespace' <~ declare_schema cls namespace a ;;
      declare_all cls namespace' rest
  end.

(** [cls.signal_namespace = namespace] *)
Definition setattr_namespace (cls : ClassId) (namespace : dict ChanId)
    : M unit :=
  if decide (cls = object_) then raise TypeError else
  modify (set_classes (alter (set_signal_namespace namespace) cls)).

(** [signals_decorator], the function [signals] returns.  The decorator is
    applied to class objects: an identifier that names no class raises
    here.  The class is added to [signal_classes] first, so it stays there
    when a [setattr] further down raises. *)
Definition signals_decorator (args : list SchemaArg) (cls : ClassId)
    : M ClassId :=
  known <~ get (λ s, bool_decide (cls < length (classes s))) ;;
  if negb known then raise TypeError else
  modify (set_signal_classes (λ sc, {[cls]} ∪ sc)) ;;;
  has <~ get (λ s, hasattr_namespace s cls) ;;
  inherited <~ get (λ s, if has then inherited_schemata s cls else []) ;;
  namespace <~ declare_all cls [] (args ++ inherited) ;;
  setattr_namespace cls namespace ;;;
  ret cls.

Definition signals (args : list SchemaArg) : ClassId → M ClassId :=
  signals_decorator args.

(** ** Connecting *)

Definition connect_handler (fn : Handler) (hs : list Handler) : list Handler :=
  if decide (fn ∈ hs) then hs else hs ++ [fn].

Definition connect_base_signal (nm : string) (fn : Handler) : M Handler :=
  modify (set_base_signals
            (λ b, dict_set b nm
                    (connect_handler fn (default [] (dict_get b nm))))) ;;;
  ret fn.

Definition init_class_signals (clz : ClassId) : M unit :=
  registered <~ get (λ s, bool_decide (clz ∈ signal_classes s)) ;;
  if registered then ret () else signals [] clz ;;; ret ().

(** [Signaler.signals]: a class that does not have [Signaler] in its mro has
    no such method. *)
Definition Signaler_signals (cls : ClassId) : M (dict ChanId) :=
  λ s, if issubclass s cls Signaler then
         match getattr_namespace s cls with
         | Some ns => (s, Ok ns)
         | None => (s, Raise (ValueError NamespaceNotDefined))
         end
       else (s, Raise AttributeError).

Definition connect_class_signal (clz : ClassId) (nm : string) (fn : Handler)
    : M Handler :=
  init_class_signals clz ;;;
  ns <~ Signaler_signals clz ;;
  match dict_get ns nm with
  | None => raise (ValueError SignalNotDefinedOnClass)
  | Some signal => signal_connect signal (User fn) ;;; ret fn
  end.

Definition connect (classes_ : list ClassId) (nm : option string)
    (fn : Handler) : M Handler :=
  let signal_name := default (fn_name fn) nm in
  match classes_ with
  | [] => connect_base_signal signal_name fn
  | _ =>
      for_each classes_
        (λ clz, connect_class_signal clz signal_name fn ;;; ret ()) ;;;
      ret fn
  end.

(** The first loop of [connect_subclasses_fn]: connect to each class and
    gather its direct subclasses in a set. *)
Fixpoint connect_and_collect (fn : Handler) (signal_name : string)
    (classes_ : list ClassId) (found : list ClassId) : M (list ClassId) :=
  match classes_ with
  | [] => ret found
  | clz :: rest =>
      connect_class_signal clz signal_name fn ;;;
      subs <~ get (λ s, subclasses s clz) ;;
      connect_and_collect fn signal_name rest (list_union found subs)
  end.

(** [connect_subclasses_fn], with the depth of the recursion bounded. *)
Fixpoint connect_subclasses_fn (depth : nat) (fn : Handler)
    (classes_ : list ClassId) (nm : option string) : M Handler :=
  match depth with
  | 0 => raise RecursionError
  | S depth' =>
      let signal_name := default (fn_name fn) nm in
      match classes_ with
      | [] => raise (ValueError NeedClass)
      | _ =>
          found <~ connect_and_collect fn signal_name classes_ [] ;;
          for_each found
            (λ sub, connect_class_signal sub signal_name fn ;;; ret ()) ;;;
          (match found with
           | [] => ret ()
           | _ => connect_subclasses_fn depth' fn found (Some signal_name)
                    ;;; ret ()
           end) ;;;
          ret fn
      end
  end.

(** [connect_subclasses] applied to the classes, the name and then the
    function.  The class graph has no
    cycle, so one level of recursion per class is enough. *)
Definition connect_subclasses (classes_ : list ClassId) (nm : option string)
    (fn : Handler) : M Handler :=
  λ s, connect_subclasses_fn (S (length (classes s))) fn classes_ nm s.

(** ** Sending *)

Definition has_key (kwargs : dict Value) (k : string) : bool :=
  bool_decide (k ∈ dict_keys kwargs).

(** [Signaler.send_cls_signal].  [kwargs] are the keyword arguments of the
    call besides [condition], with the schema given positionally.  A keyword
    that names a parameter of the method is bound to that parameter, which
    already has its value: the call raises before the body runs. *)
Definition send_cls_signal (cls : ClassId) (signal : SignalSchema)
    (sender : list Sender) (condition : bool) (kwargs : dict Value) : M unit :=
  is_signaler <~ get (λ s, issubclass s cls Signaler) ;;
  if negb is_signaler then raise AttributeError else
  if has_key kwargs "cls" || has_key kwargs "signal"
     || has_key kwargs "condition"
  then raise TypeError else
  if condition then
    let sender := match sender with [] => [SenderClass cls] | _ => sender end in
    table <~ Signaler_signals cls ;;
    (if dict_mem table (_name signal) then ret ()
     else
       init_class_signals cls ;;;
       table' <~ Signaler_signals cls ;;
       if dict_mem table' (_name signal) then ret ()
       else raise (ValueError SignalNotExisting)) ;;;
    table'' <~ Signaler_signals cls ;;
    match dict_get table'' (_name signal) with
    | None => raise AttributeError
    | Some c => signal_send c sender (("signal", VSchema signal) :: kwargs)
    end
  else ret ().

(** [Signaler.send_signal], on the instance [self.2] of the class [self.1]. *)
Definition send_signal (self : ClassId * nat) (signal : SignalSchema)
    (sender : list Sender) (condition : bool) (kwargs : dict Value) : M unit :=
  is_signaler <~ get (λ s, issubclass s self.1 Signaler) ;;
  if negb is_signaler then raise AttributeError else
  if has_key kwargs "self" || has_key kwargs "signal"
     || has_key kwargs "condition"
  then raise TypeError else
  let sender :=
    match sender with [] => [SenderInstance self.1 self.2] | _ => sender end in
  send_cls_signal self.1 signal sender condition kwargs.

(** ** [SuperStop] *)

Inductive InitError :=
| SuperStopOmitting   (* ValueError "SuperStop ommitting arguments in ..." *)
| SuperNotInstance.   (* TypeError of [super()]: not an instance *)

Inductive InitResult :=
| InitOk
| InitRaise (e : InitError).

(** [SuperStop.__init__(self, ...)] for an object whose class is [cls]:
    the check of the place of [SuperStop] in [self.__class__.mro()], and
    then [super().__init__()] with no argument, which is [object.__init__]
    when the check has passed.  [super()] refuses an object whose class does
    not have [SuperStop] in its mro. *)
Definition SuperStop__init__ (s : State) (cls : ClassId) : InitResult :=
  let mro_ := mro s cls in
  match list_find (λ p, p = SuperStop) mro_ with
  | Some (index, _) =>
      if decide (Z.of_nat (length mro_) - 2 ≠ Z.of_nat index)%Z
      then InitRaise SuperStopOmitting
      else InitOk
  | None => InitRaise SuperNotInstance
  end.

(** ** [PointAccessNamespace] *)

Section PointAccess.
Context {V : Type}.

(** [del d[k]] *)
Fixpoint dict_del (d : dict V) (k : string) : dict V :=
  match d with
  | [] => []
  | (k', v) :: d' =>
      if decide (k = k') then dict_del d' k else (k', v) :: dict_del d' k
  end.

(** An instance: the items it holds as a dict, and its [__dict__], where
    the attributes of the instance are. *)
Record PointAccessNamespace := {
  mapping : dict V;
  attributes : dict V
}.

(** [self.name(...)] for a method of the class is a call of the method
    unless the [__dict__] of the instance has the name: an attribute of the
    instance hides a method of its class, and the call is then a call of
    the object stored there, whatever that does. *)
Inductive NamespaceError :=
| KeyError (key : string)
| NotTheMethod (name : string) (stored : V).

Inductive NamespaceResult (A : Type) :=
| Returned (a : A)
| Raised (e : NamespaceError).
Arguments Returned {A} a.
Arguments Raised {A} e.

(** [PointAccessNamespace()] *)
Definition namespace_empty : PointAccessNamespace :=
  {| mapping := []; attributes := [] |}.

Definition PointAccessNamespace__setitem__ (key : string) (value : V)
    (self : PointAccessNamespace) : PointAccessNamespace :=
  {| mapping := dict_set (mapping self) key value;
     attributes := dict_set (attributes self) key value |}.

Definition PointAccessNamespace__setattr__ (key : string) (value : V)
    (self : PointAccessNamespace)
    : PointAccessNamespace * NamespaceResult unit :=
  match dict_get (attributes self) "__setitem__" with
  | Some stored => (self, Raised (NotTheMethod "__setitem__" stored))
  | None => (PointAccessNamespace__setitem__ key value self, Returned ())
  end.

(** [super().__delitem__(key)] raises for a key the dict has not, and
    [del self.__dict__[key]] for a key the [__dict__] has not, which is
    after the dict has lost the key. *)
Definition PointAccessNamespace__delitem__ (key : string)
    (self : PointAccessNamespace)
    : PointAccessNamespace * NamespaceResult unit :=
  match dict_get (mapping self) key with
  | None => (self, Raised (KeyError key))
  | Some _ =>
      let self1 := {| mapping := dict_del (mapping self) key;
                      attributes := attributes self |} in
      match dict_get (attributes self) key with
      | None => (self1, Raised (KeyError key))
      | Some _ =>
          ({| mapping := mapping self1;
              attributes := dict_del (attributes self) key |}, Returned ())
      end
  end.

Definition PointAccessNamespace__delattr__ (item : string)
    (self : PointAccessNamespace)
    : PointAccessNamespace * NamespaceResult unit :=
  match dict_get (attributes self) "__delitem__" with
  | Some stored => (self, Raised (NotTheMethod "__delitem__" stored))
  | None => PointAccessNamespace__delitem__ item self
  end.

(** [__getattr__], which Python calls for a name that is no attribute of
    the instance or of the class; [None] is what [get] gives for a key the
    dict has not. *)
Definition PointAccessNamespace__getattr__ (attr : string)
    (self : PointAccessNamespace) : NamespaceResult (option V) :=
  match dict_get (attributes self) "get" with
  | Some stored => Raised (NotTheMethod "get" stored)
  | None => Returned (dict_get (mapping self) attr)
  end.

(** The statements that go through the methods of the class. *)
Inductive NamespaceOp :=
| SetItem (key : string) (value : V)     (* ns[key] = value *)
| SetAttr (key : string) (value : V)     (* ns.key = value *)
| DelItem (key : string)                 (* del ns[key] *)
| DelAttr (key : string).                (* del ns.key *)

Definition namespace_op (self : PointAccessNamespace) (o : NamespaceOp)
    : PointAccessNamespace :=
  match o with
  | SetItem k v => PointAccessNamespace__setitem__ k v self
  | SetAttr k v => (PointAccessNamespace__setattr__ k v self).1
  | DelItem k => (PointAccessNamespace__delitem__ k self).1
  | DelAttr k => (PointAccessNamespace__delattr__ k self).1
  end.

(** A namespace made empty and used through those statements, exceptions
    caught. *)
Definition namespace_run (ops : list NamespaceOp) : PointAccessNamespace :=
  foldl namespace_op namespace_empty ops.
End PointAccess.
Arguments PointAccessNamespace : clear implicits.
Arguments NamespaceError : clear implicits.
Arguments NamespaceResult : clear implicits.
Arguments NamespaceOp : clear implicits.
Arguments mapping {V} _.
Arguments attributes {V} _.
Arguments KeyError {V} key.
Arguments NotTheMethod {V} name stored.
Arguments Returned {V A} a.
Arguments Raised {V A} e.
Arguments SetItem {V} key value.
Arguments SetAttr {V} key value.
Arguments DelItem {V} key.
Arguments DelAttr {V} key.

(** ** [SignalSchema] as a Python object *)

(** An instance of [SignalSchema]: where it lives and what it holds. *)
Record SchemaObject := { addr : nat; schema : SignalSchema }.

(** The class defines no [__eq__]: [==] is the one inherited from [object],
    which compares identities. *)
Definition SignalSchema__eq__ (a b : SchemaObject) : bool :=
  bool_decide (addr a = addr b).

Section Hash.
(** The hash of a string, whatever the interpreter makes it. *)
Variable str_hash : string → Z.

(** [str(self.name).__hash__()] *)
Definition SignalSchema__hash__ (a : SchemaObject) : Z :=
  str_hash (_name (schema a)).
End Hash.

(** ** Programs against the module *)

(** One call into the module, or one class statement. *)
Inductive Op :=
| OpClass (bs : list ClassId)
| OpSignals (args : list SchemaArg) (cls : ClassId)
| OpConnectBase (nm : string) (fn : Handler)
| OpConnectClass (clz : ClassId) (nm : string) (fn : Handler)
| OpConnect (classes_ : list ClassId) (nm : option string) (fn : Handler)
| OpConnectSubclasses (classes_ : list ClassId) (nm : option string)
    (fn : Handler)
| OpSendCls (cls : ClassId) (signal : SignalSchema) (sender : list Sender)
    (condition : bool) (kwargs : dict Value)
| OpSend (self : ClassId * nat) (signal : SignalSchema)
    (sender : list Sender) (condition : bool) (kwargs : dict Value).

Definition run_op (o : Op) : M unit :=
  match o with
  | OpClass bs => define_class bs ;;; ret ()
  | OpSignals args cls => signals args cls ;;; ret ()
  | OpConnectBase nm fn => connect_base_signal nm fn ;;; ret ()
  | OpConnectClass clz nm fn => connect_class_signal clz nm fn ;;; ret ()
  | OpConnect cs nm fn => connect cs nm fn ;;; ret ()
  | OpConnectSubclasses cs nm fn => connect_subclasses cs nm fn ;;; ret ()
  | OpSendCls cls sg sender cond kw => send_cls_signal cls sg sender cond kw
  | OpSend self sg sender cond kw => send_signal self sg sender cond kw
  end.

(** The states a program can bring the module to.  An exception ends the
    call that raised it and leaves what was done before it. *)
Inductive reachable : State → Prop :=
| reachable_initial : reachable initial
| reachable_step s o : reachable s → reachable (exec (run_op o) s).

(** Running a whole program, exceptions caught. *)
Definition run (ops : list Op) (s : State) : State :=
  foldl (λ s o, exec (run_op o) s) s ops.

(** The calls a computation adds to the log. *)
Definition new_calls {A} (m : M A) (s : State) : list Call :=
  drop (length (calls s)) (calls (exec m s)).

(** The calls of [h] delivered by [via]. *)
Definition deliveries (via : Via) (h : Handler) (l : list Call) : list Call :=
  filter (λ c, call_via c = via ∧ call_fn c = h) l.

(** The receivers of the signal [nm] in the table [cls.signals()] shows. *)
Definition class_receivers (s : State) (cls : ClassId) (nm : string)
    : option (list Receiver) :=
  getattr_namespace s cls ≫= λ ns, dict_get ns nm ≫= λ c,
  receivers <$> heap s !! c.

Definition base_receivers (s : State) (nm : string) : list Handler :=
  default [] (dict_get (base_signals s) nm).

(** One step of the loop of [_merge_dict_class_vars]. *)
Definition merge_step (s : State) (limit_clz : ClassId) (var : dict ChanId)
    (pclz : ClassId) : dict ChanId :=
  if issubclass s pclz limit_clz && hasattr_namespace s pclz
  then dict_merge var (default [] (getattr_namespace s pclz))
  else var.

(** ** Invariants *)

Definition is_closure (r : Receiver) : Prop :=
  match r with User _ => False | _ => True end.

Definition closure_id (r : Receiver) : nat :=
  match r with
  | User h => fn_id h
  | CascadePadre fid _ => fid
  | AllCascadePadre fid _ => fid
  end.

(** ["generic_event_" + nm]: the one name whose cascade attribute is the
    attribute of the universal closure of [nm]. *)
Definition generic_prefixed (nm : string) : string :=
  EVENT_TRIGGERED +:+ "_" +:+ nm.

(** A closure connected to the signal [nm] of [cls] is the one an attribute
    of [cls] holds for that name. *)
Definition edge_ok (s : State) (cls : ClassId) (nm : string) (r : Receiver)
    : Prop :=
  (own_attr s cls (cascade_key nm) = Some r
   ∧ (∃ f, r = CascadePadre f nm)
   ∧ is_Some (dict_get (base_signals s) nm))
  ∨ (own_attr s cls (all_cascade_key nm) = Some r
     ∧ ∃ f, r = AllCascadePadre f EVENT_TRIGGERED).

(** The signal [nm] has its closure to the universal signal, unless the
    table also has the name that shares the attribute. *)
Definition universal_edge (s : State) (cls : ClassId) (ns : dict ChanId)
    (nm : string) (rs : list Receiver) : Prop :=
  (∃ f, own_attr s cls (all_cascade_key nm)
          = Some (AllCascadePadre f EVENT_TRIGGERED)
        ∧ AllCascadePadre f EVENT_TRIGGERED ∈ rs)
  ∨ is_Some (dict_get ns (generic_prefixed nm)).

(** The table [ns] of [cls]; [skip] is the name whose universal closure is
    still to be installed. *)
Definition table_ok (s : State) (cls : ClassId) (ns : dict ChanId)
    (skip : option string) : Prop :=
  ∀ nm ch, dict_get ns nm = Some ch →
    ∃ sg, heap s !! ch = Some sg
      ∧ (∀ r, r ∈ receivers sg → is_closure r → edge_ok s cls nm r)
      ∧ (skip ≠ Some nm → universal_edge s cls ns nm (receivers sg)).

Record Inv (s : State) : Prop := {
  inv_registered :
    ∀ c, c ≠ object_ → (c ∈ signal_classes s ↔ is_Some (own_namespace s c));
  inv_object : own_namespace s object_ = None ∧ mro s object_ = [object_];
  inv_tables :
    ∀ c ns, own_namespace s c = Some ns → table_ok s c ns None;
  inv_tables_nodup :
    ∀ c ns, own_namespace s c = Some ns → NoDup (dict_keys ns);
  inv_attr_fresh :
    ∀ c key r, own_attr s c key = Some r →
      is_closure r ∧ closure_id r < next_fn s;
  inv_attr_inj :
    ∀ c1 k1 c2 k2 r, own_attr s c1 k1 = Some r → own_attr s c2 k2 = Some r →
      c1 = c2 ∧ k1 = k2;
  inv_base_event : is_Some (dict_get (base_signals s) EVENT_TRIGGERED);
  inv_base_nodup :
    ∀ nm hs, dict_get (base_signals s) nm = Some hs → NoDup hs;
  inv_receivers_nodup :
    ∀ ch sg, heap s !! ch = Some sg → NoDup (receivers sg)
}.

(** States that differ in the closures the classes hold, and in nothing
    else of the classes. *)
Definition same_classes (s s' : State) : Prop :=
  length (classes s') = length (classes s)
  ∧ (∀ c, own_namespace s' c = own_namespace s c)
  ∧ (∀ c, mro s' c = mro s c)
  ∧ (∀ c, bases_of s' c = bases_of s c).

(** What holds inside the loop of the decorator, which started in [s0] and
    has built the namespace [ns] for [cls] so far. *)
Record LoopInv (s0 : State) (cls : ClassId) (ns : dict ChanId)
    (skip : option string) (s : State) : Prop := {
  li_known : cls < length (classes s);
  li_not_object : cls ≠ object_;
  li_classes : same_classes s0 s;
  li_other_attrs :
    ∀ c key, c ≠ cls → own_attr s c key = own_attr s0 c key;
  li_registered : signal_classes s = signal_classes s0;
  li_calls : calls s = calls s0;
  li_heap_grows : length (heap s0) ≤ length (heap s);
  li_old_user :
    ∀ ch sg h, heap s !! ch = Some sg → User h ∈ receivers sg →
      ∃ sg0, heap s0 !! ch = Some sg0 ∧ User h ∈ receivers sg0;
  li_user_kept :
    ∀ ch sg0 h, heap s0 !! ch = Some sg0 → User h ∈ receivers sg0 →
      ∃ sg, heap s !! ch = Some sg ∧ User h ∈ receivers sg;
  li_base_kept : ∀ nm, base_receivers s nm = base_receivers s0 nm;
  li_base_grows :
    ∀ nm, is_Some (dict_get (base_signals s0) nm) →
      is_Some (dict_get (base_signals s) nm);
  li_other_tables :
    ∀ c ns', c ≠ cls → own_namespace s c = Some ns' → table_ok s c ns' None;
  li_old_channels :
    ∀ c ns' nm ch, own_namespace s c = Some ns' → dict_get ns' nm = Some ch →
      ch < length (heap s0);
  li_local : table_ok s cls ns skip;
  li_local_new :
    ∀ nm ch, dict_get ns nm = Some ch → length (heap s0) ≤ ch;
  li_local_inj :
    ∀ n1 n2 ch, dict_get ns n1 = Some ch → dict_get ns n2 = Some ch → n1 = n2;
  li_local_nodup : NoDup (dict_keys ns);
  li_attr_fresh :
    ∀ c key r, own_attr s c key = Some r →
      is_closure r ∧ closure_id r < next_fn s;
  li_attr_inj :
    ∀ c1 k1 c2 k2 r, own_attr s c1 k1 = Some r → own_attr s c2 k2 = Some r →
      c1 = c2 ∧ k1 = k2;
  li_base_event : is_Some (dict_get (base_signals s) EVENT_TRIGGERED);
  li_base_nodup :
    ∀ nm hs, dict_get (base_signals s) nm = Some hs → NoDup hs;
  li_receivers_nodup :
    ∀ ch sg, heap s !! ch = Some sg → NoDup (receivers sg)
}.

(** The state after the fresh closure [r] is stored under [key] and
    connected to [ch]: [setattr(cls, key, make(...))] and then
    [signal.connect(getattr(cls, key))]. *)
Definition install_state (cls : ClassId) (key : string) (r : Receiver)
    (ch : ChanId) (s : State) : State :=
  set_heap (alter (connect_receiver r) ch)
    (from_option release id (own_attr s cls key)
       (set_classes
          (alter (set_cascade_attrs (λ d, dict_set d key r)) cls)
          (set_next_fn S s))).

(** ** Example programs *)

Definition on_created : Handler := {| fn_id := 0; fn_name := "on_created" |}.
Definition on_any : Handler := {| fn_id := 1; fn_name := "on_any" |}.

Definition created : SignalSchema :=
  {| _name := "created"; _cascade := false |}.
Definition created_cascading : SignalSchema :=
  {| _name := "created"; _cascade := true |}.

(** Class 3 is [A(Signaler)], declared with ["created"]; a handler is
    connected to it. *)
Definition prog_declared_connected : list Op :=
  [ OpClass [Signaler]; OpSignals [ArgStr "created"] 3;
    OpConnectClass 3 "created" on_created ].

(** [A] declares ["created"] as cascading; [B(A)] is class 4 and is declared
    with no arguments; a handler listens on the base signal ["created"]. *)
Definition prog_inherited_cascade : list Op :=
  [ OpClass [Signaler]; OpSignals [ArgSchema created_cascading] 3;
    OpClass [3]; OpSignals [] 4; OpConnectBase "created" on_created ].



(** [A(Signaler)] exists and nothing was declared. *)
Definition prog_undeclared : list Op := [ OpClass [Signaler] ].

(** [A] declares ["created"]; [B(A)] is class 4 and is left alone. *)
Definition prog_undeclared_subclass : list Op :=
  [ OpClass [Signaler]; OpSignals [ArgStr "created"] 3; OpClass [3] ].

(** [A] declares ["created"], [B(A)] declares it cascading, and a handler
    listens on the base signal ["created"]. *)
Definition prog_both_declared : list Op :=
  [ OpClass [Signaler]; OpSignals [ArgStr "created"] 3;
    OpClass [3]; OpSignals [ArgSchema created_cascading] 4;
    OpConnectBase "created" on_created ].

(** [A] with the subclasses [B] (4) and [C] (5); a handler is connected to
    [A] and its subclasses; then [D(B)] (6) is defined. *)
Definition prog_late_subclass : list Op :=
  [ OpClass [Signaler]; OpSignals [ArgStr "created"] 3;
    OpClass [3]; OpClass [3];
    OpConnectSubclasses [3] (Some "created") on_created;
    OpClass [4] ].

Definition cascade_handler : Handler := {| fn_id := 2; fn_name := "cascade" |}.

Definition prog_handler_named_cascade : list Op :=
  [ OpClass [Signaler]; OpSignals [ArgStr "created"] 3;
    OpConnectClass 3 "created" cascade_handler ].

(** [X(A, P)]: [P] is a plain class, and [X] has it after [Signaler]. *)
Definition prog_plain_mixin : list Op :=
  [ OpClass []; OpClass [Signaler; 3] ].

(** * Definitions used to state the properties *)

Definition install_heap (old : option Receiver) (r : Receiver) (ch : ChanId)
    (h : list Signal) : list Signal :=
  alter (connect_receiver r) ch
    (from_option (λ o, map (disconnect_receiver o)) id old h).

Definition installed (old : option Receiver) (r : Receiver) (ch c' : ChanId)
    (sg sg' : Signal) : Prop :=
  sig_name sg' = sig_name sg
  ∧ (∀ x, x ∈ receivers sg'
          ↔ (x ∈ receivers sg ∧ old ≠ Some x) ∨ (c' = ch ∧ x = r))
  ∧ (NoDup (receivers sg) → NoDup (receivers sg')).

(** The step of the loop, as the states it goes through. *)
Definition declare_schema_state (cls : ClassId) (nm : string) (casc : bool)
    (ch : ChanId) (s1 : State) : State :=
  let s2 :=
    if casc then
      let sb := exec (base_signal_create nm) s1 in
      install_state cls (cascade_key nm) (CascadePadre (next_fn sb) nm) ch sb
    else s1 in
  install_state cls (all_cascade_key nm)
    (AllCascadePadre (next_fn s2) EVENT_TRIGGERED) ch s2.

Definition schema_names (l : list SchemaArg) : list string :=
  map (λ a, _name (schema_of_arg a)) l.

(** [cls.signal_namespace = namespace] *)
Definition attach (cls : ClassId) (ns : dict ChanId) : State → State :=
  set_classes (alter (set_signal_namespace ns) cls).

Definition register (cls : ClassId) : State → State :=
  set_signal_classes (λ sc, {[cls]} ∪ sc).

Definition decorator_schemata (s : State) (args : list SchemaArg)
    (cls : ClassId) : list SchemaArg :=
  args ++ (if hasattr_namespace s cls then inherited_schemata s cls else []).

Definition preserves (P : State → Prop) {A} (m : M A) : Prop :=
  ∀ s, P s → P (m s).1.

Definition add_calls (d : list Call) : State → State :=
  set_calls (λ l, l ++ d).

Definition base_calls (s : State) (t : string) (sender : Sender)
    (kw : dict Value) : list Call :=
  map (λ h, {| call_via := ViaBaseSignal t; call_fn := h;
               call_sender := sender; call_kwargs := kw |})
      (base_receivers s t).

(** The calls one receiver of the signal [c] makes. *)
Definition receiver_calls (s : State) (c : ChanId) (sender : Sender)
    (kw : dict Value) (r : Receiver) : list Call :=
  match r with
  | User h => [ {| call_via := ViaClassSignal c; call_fn := h;
                   call_sender := sender; call_kwargs := kw |} ]
  | CascadePadre _ t => base_calls s t sender kw
  | AllCascadePadre _ t => base_calls s t sender kw
  end.

Definition closure_target (r : Receiver) : option string :=
  match r with
  | User _ => None
  | CascadePadre _ t => Some t
  | AllCascadePadre _ t => Some t
  end.

(** The keywords a caller may pass besides [condition]. *)
Definition payload_ok (kw : dict Value) : Prop :=
  ("cls" ∉ dict_keys kw) ∧ ("signal" ∉ dict_keys kw)
  ∧ ("condition" ∉ dict_keys kw).

(** The sender a handler sees for an emission on the class [T]. *)
Definition effective_sender (T : ClassId) (sender : list Sender) : Sender :=
  default (SenderClass T) (head sender).

Definition target_known (s : State) (r : Receiver) : Prop :=
  ∀ t, closure_target r = Some t → is_Some (dict_get (base_signals s) t).

Definition base_call (t : string) (sender : Sender) (kw : dict Value)
    (h : Handler) : Call :=
  {| call_via := ViaBaseSignal t; call_fn := h;
     call_sender := sender; call_kwargs := kw |}.

Definition prog_universal : list Op :=
  [ OpClass [Signaler]; OpSignals [ArgStr "created"] 3;
    OpConnect [] (Some EVENT_TRIGGERED) on_any ].

(** The signal of [n] in the table [ns] of [cls] has the closure that the
    attribute of [n] holds. *)
Definition cascade_edge (s : State) (cls : ClassId) (ns : dict ChanId)
    (n : string) : Prop :=
  ∃ ch sg f,
    dict_get ns n = Some ch ∧ heap s !! ch = Some sg
    ∧ own_attr s cls (cascade_key n) = Some (CascadePadre f n)
    ∧ CascadePadre f n ∈ receivers sg.

Definition cascade_phase (cls : ClassId) (nm : string) (casc : bool)
    (ch : ChanId) (s1 : State) : State :=
  if casc then
    let sb := exec (base_signal_create nm) s1 in
    install_state cls (cascade_key nm) (CascadePadre (next_fn sb) nm) ch sb
  else s1.


(** The class graph is the same, declared classes stay declared with the
    table they have, and the handlers users connected stay connected. *)
Record Frame (s s' : State) : Prop := {
  f_length : length (classes s') = length (classes s);
  f_mro : ∀ c, mro s' c = mro s c;
  f_bases : ∀ c, bases_of s' c = bases_of s c;
  f_registered : ∀ c, c ∈ signal_classes s → c ∈ signal_classes s';
  f_tables :
    ∀ c ns, own_namespace s c = Some ns → own_namespace s' c = Some ns;
  f_users_kept :
    ∀ ch sg h, heap s !! ch = Some sg → User h ∈ receivers sg →
      ∃ sg', heap s' !! ch = Some sg' ∧ User h ∈ receivers sg'
}.

(** No handler was called and none was connected. *)
Record Quiet (s s' : State) : Prop := {
  q_calls : calls s' = calls s;
  q_users :
    ∀ ch sg' h, heap s' !! ch = Some sg' → User h ∈ receivers sg' →
      ∃ sg, heap s !! ch = Some sg ∧ User h ∈ receivers sg;
  q_base : ∀ nm, base_receivers s' nm = base_receivers s nm
}.

(** Computations that send: they change nothing but the log of calls, and
    they raise no [ValueError]. *)
Definition sends_only {A} (m : M A) : Prop :=
  ∀ s, classes (m s).1 = classes s
       ∧ ∀ msg, (m s).2 ≠ Raise (ValueError msg).

(** A base is older than the class, and the mro of a class holds the mro of
    each of its bases. *)
Definition Wf (s : State) : Prop :=
  ∀ X b, b ∈ bases_of s X →
    b < X ∧ ∀ a, a ∈ mro s b → a ∈ mro s X.

(** The bases and the mro of every class. *)
Definition hier (s : State) : list (list ClassId * list ClassId) :=
  map (λ k, (bases k, ancestors k)) (classes s).

Definition keeps_hier {A} (m : M A) : Prop :=
  ∀ H, preserves (λ s, hier s = H) m.

(** [desc s A X]: [X] is [A] or reaches [A] through bases. *)
Inductive desc (s : State) (A : ClassId) : ClassId → Prop :=
| desc_self : desc s A A
| desc_sub X Y : desc s A X → X ∈ bases_of s Y → desc s A Y.

(** The handler [h] is connected to the signal [n] of the own table of
    [X]. *)
Definition Connected (s : State) (n : string) (h : Handler) (X : ClassId)
    : Prop :=
  ∃ ns c sg,
    own_namespace s X = Some ns ∧ dict_get ns n = Some c
    ∧ heap s !! c = Some sg ∧ User h ∈ receivers sg.

(** [A] is declared, and [A] and its subclasses that are declared all have
    the name [n]. *)
Definition Ready (s : State) (A : ClassId) (n : string) : Prop :=
  issubclass s A Signaler = true
  ∧ is_Some (own_namespace s A)
  ∧ ∀ X ns, desc s A X → own_namespace s X = Some ns → is_Some (dict_get ns n).

Definition prog_subclasses : list Op :=
  [ OpClass [Signaler]; OpSignals [ArgStr "created"] 3;
    OpClass [3]; OpClass [3] ].

(** Computations that raise nothing but the errors of [E]. *)
Definition raises_only (E : Error → Prop) {A} (m : M A) : Prop :=
  ∀ s e, (m s).2 = Raise e → E e.

(** The errors a connection to one class can end in. *)
Definition connect_error (e : Error) : Prop :=
  e = TypeError ∨ e = AttributeError
  ∨ e = ValueError NamespaceNotDefined
  ∨ e = ValueError SignalNotDefinedOnClass.

(** The call of the handler [h] that the class-level signal [c] makes. *)
Definition class_call (c : ChanId) (sender : Sender) (kw : dict Value)
    (h : Handler) : Call :=
  {| call_via := ViaClassSignal c; call_fn := h;
     call_sender := sender; call_kwargs := kw |}.

(** The mro of every class has no class twice, holds classes that are not
    younger than the class, and holds the mro of each of its classes in the
    same order; and [SuperStop] is what it was made as. *)
Definition MroOk (s : State) : Prop :=
  mro s SuperStop = [SuperStop; object_]
  ∧ ∀ X, NoDup (mro s X)
         ∧ ∀ p, p ∈ mro s X → p ≤ X ∧ mro s p `sublist_of` mro s X.

Definition namespace_ok {V} (ns : PointAccessNamespace V) : Prop :=
  mapping ns = attributes ns ∧ NoDup (dict_keys (mapping ns)).

(** * Properties *)

(** ** Dictionaries *)

Section DictFacts.
Context {V : Type}.
Implicit Types (d : dict V) (k : string) (v : V).

Lemma dict_get_set d k v k' :
  dict_get (dict_set d k v) k' = if decide (k' = k) then Some v else dict_get d k'.
Proof.
  induction d as [|[k0 v0] d IH]; simpl.
  - destruct (decide (k' = k)); reflexivity.
  - destruct (decide (k = k0)) as [->|Hne]; simpl.
    + destruct (decide (k' = k0)); reflexivity.
    + destruct (decide (k' = k0)) as [->|Hne'].
      * destruct (decide (k0 = k)); congruence.
      * apply IH.
Qed.

Lemma dict_get_set_eq d k v : dict_get (dict_set d k v) k = Some v.
Proof. rewrite dict_get_set. destruct (decide (k = k)); congruence. Qed.

Lemma dict_get_set_ne d k v k' :
  k' ≠ k → dict_get (dict_set d k v) k' = dict_get d k'.
Proof. intros. rewrite dict_get_set. destruct (decide (k' = k)); congruence. Qed.

Lemma dict_get_Some_keys d k v : dict_get d k = Some v → k ∈ dict_keys d.
Proof.
  induction d as [|[k0 v0] d IH]; simpl; [discriminate|].
  destruct (decide (k = k0)) as [->|]; intros H.
  - left.
  - right. apply IH, H.
Qed.

Lemma dict_get_None_keys d k : dict_get d k = None ↔ k ∉ dict_keys d.
Proof.
  induction d as [|[k0 v0] d IH]; simpl.
  - split; [intros _; apply not_elem_of_nil | reflexivity].
  - rewrite not_elem_of_cons. destruct (decide (k = k0)) as [->|Hne].
    + split; [discriminate | intros [? _]; congruence].
    + rewrite IH. tauto.
Qed.

Lemma dict_keys_is_Some d k : k ∈ dict_keys d ↔ is_Some (dict_get d k).
Proof.
  destruct (dict_get d k) eqn:E.
  - split; [eauto | intros _; eapply dict_get_Some_keys, E].
  - apply dict_get_None_keys in E. split; [tauto | intros [? ?]; discriminate].
Qed.

Lemma dict_get_elem_of d k v : dict_get d k = Some v → (k, v) ∈ d.
Proof.
  induction d as [|[k0 v0] d IH]; simpl; [discriminate|].
  destruct (decide (k = k0)) as [->|]; intros H.
  - injection H as ->. left.
  - right. apply IH, H.
Qed.

Lemma dict_mem_true d k : dict_mem d k = true ↔ is_Some (dict_get d k).
Proof. unfold dict_mem. apply bool_decide_eq_true. Qed.

Lemma dict_mem_false d k : dict_mem d k = false ↔ dict_get d k = None.
Proof.
  unfold dict_mem. rewrite bool_decide_eq_false, <- eq_None_not_Some. tauto.
Qed.

Lemma dict_keys_set d k v :
  ∀ k', k' ∈ dict_keys (dict_set d k v) ↔ k' = k ∨ k' ∈ dict_keys d.
Proof.
  intros k'. rewrite !dict_keys_is_Some, dict_get_set.
  destruct (decide (k' = k)) as [->|Hne].
  - split; [auto | eauto].
  - split; [auto | intros [?|?]; [congruence | done]].
Qed.

Lemma dict_set_NoDup d k v : NoDup (dict_keys d) → NoDup (dict_keys (dict_set d k v)).
Proof.
  unfold dict_keys. induction d as [|[k0 v0] d IH]; simpl; intros Hnd.
  - apply NoDup_singleton.
  - apply NoDup_cons in Hnd as [Hni Hnd].
    destruct (decide (k = k0)) as [->|Hne]; simpl.
    + apply NoDup_cons; auto.
    + apply NoDup_cons. split; [|auto].
      intros Hin. apply Hni.
      apply (dict_keys_set d k v k0) in Hin as [?|?]; [congruence | done].
Qed.

(** What [{**d1, **d2}] holds: the entry of [d2] where it has one, else
    the entry of [d1]. *)
Lemma dict_get_merge d1 d2 k :
  NoDup (dict_keys d2) →
  dict_get (dict_merge d1 d2) k =
    match dict_get d2 k with Some v => Some v | None => dict_get d1 k end.
Proof.
  unfold dict_merge. revert d1.
  induction d2 as [|[k0 v0] d2 IH]; intros d1 Hnd; simpl; [reflexivity|].
  change (dict_keys ((k0, v0) :: d2)) with (k0 :: dict_keys d2) in Hnd.
  apply NoDup_cons in Hnd as [Hni Hnd].
  rewrite IH by assumption. rewrite dict_get_set.
  destruct (decide (k = k0)) as [->|Hne].
  - apply dict_get_None_keys in Hni. rewrite Hni. reflexivity.
  - reflexivity.
Qed.

Lemma dict_merge_NoDup d1 d2 :
  NoDup (dict_keys d1) → NoDup (dict_keys (dict_merge d1 d2)).
Proof.
  unfold dict_merge. revert d1.
  induction d2 as [|[k0 v0] d2 IH]; intros d1 Hnd; simpl; [assumption|].
  apply IH, dict_set_NoDup, Hnd.
Qed.

Lemma dict_keys_merge d1 d2 k :
  k ∈ dict_keys (dict_merge d1 d2) ↔ k ∈ dict_keys d1 ∨ k ∈ dict_keys d2.
Proof.
  unfold dict_merge. revert d1.
  induction d2 as [|[k0 v0] d2 IH]; intros d1; simpl.
  - rewrite elem_of_nil. tauto.
  - rewrite IH, dict_keys_set. unfold dict_keys at 3. simpl.
    rewrite elem_of_cons. unfold dict_keys. tauto.
Qed.
End DictFacts.

(** ** Schema objects *)

(** C9, as the spec has it, fails: two schema objects of the same name are
    two objects, and [==] tells them apart. *)
Lemma schema_eq_by_name_counterexample :
  let s := {| addr := 0; schema := {| _name := "created"; _cascade := false |} |} in
  let t := {| addr := 1; schema := {| _name := "created"; _cascade := true |} |} in
  ¬ (SignalSchema__eq__ s t = true ↔ _name (schema s) = _name (schema t)).
Proof. simpl. intros [_ H]. specialize (H eq_refl). discriminate H. Qed.

(** C9, amended: schemas of the same name have the same hash, whatever
    their cascade flags; equality is identity of the two objects, and the
    name plays no part in it. *)
Theorem schema_hash_by_name (str_hash : string → Z) (s t : SchemaObject)
    (Hname : _name (schema s) = _name (schema t)) :
  SignalSchema__hash__ str_hash s = SignalSchema__hash__ str_hash t
  ∧ (SignalSchema__eq__ s t = true ↔ addr s = addr t).
Proof.
  split.
  - unfold SignalSchema__hash__. rewrite Hname. reflexivity.
  - unfold SignalSchema__eq__. apply bool_decide_eq_true.
Qed.

Lemma schema_hash_by_name_witness :
  let s := {| addr := 0; schema := {| _name := "created"; _cascade := false |} |} in
  let t := {| addr := 1; schema := {| _name := "created"; _cascade := true |} |} in
  SignalSchema__hash__ (λ x, Z.of_nat (String.length x)) s
    = SignalSchema__hash__ (λ x, Z.of_nat (String.length x)) t
  ∧ (SignalSchema__eq__ s t = true ↔ addr s = addr t).
Proof. intros s t. apply (schema_hash_by_name _ s t). reflexivity. Defined.

(** ** The keyword [signal] *)

(** C10: a call of [send_cls_signal] or [send_signal] with a keyword
    argument named [signal] raises [TypeError] and leaves the state as it
    was: nothing is declared, no handler is called.  It does so whatever
    [condition] is and whether or not the signal is declared. *)
Theorem send_rejects_signal_keyword (s : State) (cls : ClassId) (i : nat)
    (signal : SignalSchema) (sender : list Sender) (condition : bool)
    (kwargs : dict Value) :
  issubclass s cls Signaler = true →
  "signal" ∈ dict_keys kwargs →
  send_cls_signal cls signal sender condition kwargs s = (s, Raise TypeError)
  ∧ send_signal (cls, i) signal sender condition kwargs s
      = (s, Raise TypeError).
Proof.
  intros Hsub Hkey.
  assert (Hk : has_key kwargs "signal" = true)
    by (unfold has_key; apply bool_decide_eq_true, Hkey).
  split.
  - unfold send_cls_signal, bind, get. rewrite Hsub. simpl.
    rewrite Hk, orb_true_r. reflexivity.
  - unfold send_signal, bind, get. simpl. rewrite Hsub. simpl.
    rewrite Hk, orb_true_r. reflexivity.
Qed.

Lemma send_rejects_signal_keyword_witness :
  let s := run [OpClass [Signaler]; OpSignals [ArgStr "created"] 3] initial in
  let sg := {| _name := "created"; _cascade := false |} in
  let kw := [("signal", VNat 7)] in
  send_cls_signal 3 sg [] true kw s = (s, Raise TypeError)
  ∧ send_signal (3, 0) sg [] true kw s = (s, Raise TypeError).
Proof.
  intros s sg kw. apply (send_rejects_signal_keyword s 3 0 sg [] true kw).
  - vm_compute. reflexivity.
  - vm_compute. left.
Defined.

(** ** The merge of the inherited namespaces *)

Lemma dict_get_merge_absent {V} (d1 d2 : dict V) k :
  dict_get d2 k = None → dict_get (dict_merge d1 d2) k = dict_get d1 k.
Proof.
  unfold dict_merge. revert d1.
  induction d2 as [|[k0 v0] d2 IH]; intros d1; simpl; [reflexivity|].
  destruct (decide (k = k0)) as [->|Hne]; [discriminate|].
  intros H. rewrite IH by assumption. apply dict_get_set_ne, Hne.
Qed.

Lemma merge_unfold s clz limit_clz :
  _merge_dict_class_vars s clz limit_clz
  = foldl (merge_step s limit_clz) [] (mro s clz).
Proof. reflexivity. Qed.

Lemma hasattr_namespace_true s c :
  hasattr_namespace s c = true ↔ is_Some (getattr_namespace s c).
Proof. unfold hasattr_namespace. apply bool_decide_eq_true. Qed.

Lemma merge_step_absent s limit_clz var p n :
  (∀ ns, issubclass s p limit_clz = true → getattr_namespace s p = Some ns →
         dict_get ns n = None) →
  dict_get (merge_step s limit_clz var p) n = dict_get var n.
Proof.
  intros H. unfold merge_step.
  destruct (issubclass s p limit_clz) eqn:Hs; simpl; [|reflexivity].
  destruct (hasattr_namespace s p) eqn:Hh; [|reflexivity].
  apply hasattr_namespace_true in Hh as [ns Hns]. rewrite Hns. simpl.
  apply dict_get_merge_absent. eauto.
Qed.

Lemma merge_tail_absent s limit_clz post n : ∀ var,
  (∀ p ns, p ∈ post → issubclass s p limit_clz = true →
           getattr_namespace s p = Some ns → dict_get ns n = None) →
  dict_get (foldl (merge_step s limit_clz) var post) n = dict_get var n.
Proof.
  induction post as [|p post IH]; intros var H; simpl; [reflexivity|].
  rewrite IH.
  - apply merge_step_absent. intros ns. apply H. left.
  - intros q ns Hq. apply H. right. exact Hq.
Qed.

(** The merge walks [mro()] from the class itself to [object], and an
    entry merged later replaces the one merged before.  So for a name [n]
    the merged table holds the entry of the most basic class that has one:
    if [A] comes in the mro of [B] after the classes [pre], has [n] bound to
    [c], and no class after [A] has [n], then the table merged for [B] binds
    [n] to [c], whatever the classes [pre] (and [B] itself) bind it to. *)
Lemma merge_most_basic (s : State) (B A : ClassId) (pre post : list ClassId)
    (nsA : dict ChanId) (n : string) (c : ChanId) :
  mro s B = pre ++ A :: post →
  issubclass s A Signaler = true →
  getattr_namespace s A = Some nsA →
  NoDup (dict_keys nsA) →
  dict_get nsA n = Some c →
  (∀ p ns, p ∈ post → issubclass s p Signaler = true →
           getattr_namespace s p = Some ns → dict_get ns n = None) →
  dict_get (_merge_dict_class_vars s B Signaler) n = Some c.
Proof.
  intros Hmro Hsub HnsA Hnd Hn Hpost.
  rewrite merge_unfold, Hmro, foldl_app. simpl.
  rewrite merge_tail_absent by exact Hpost.
  unfold merge_step at 1. rewrite Hsub. simpl.
  assert (Hh : hasattr_namespace s A = true)
    by (apply hasattr_namespace_true; eauto).
  rewrite Hh, HnsA. simpl.
  rewrite dict_get_merge by exact Hnd. rewrite Hn. reflexivity.
Qed.

(** ** What the example programs do *)

(** C1, as the spec has it, fails: the second declaration of ["created"] on
    [A] binds the name to a new signal, and the handler connected before it
    is not called by an emission after it. *)
Lemma redeclaration_new_signal_counterexample :
  let s1 := run prog_declared_connected initial in
  let s2 := exec (signals [ArgStr "created"] 3) s1 in
  own_namespace s1 3 = Some [("created", 0)]
  ∧ class_receivers s1 3 "created"
    = Some [AllCascadePadre 0 EVENT_TRIGGERED; User on_created]
  ∧ own_namespace s2 3 = Some [("created", 1)]
  ∧ class_receivers s2 3 "created" = Some [AllCascadePadre 2 EVENT_TRIGGERED]
  ∧ outcome (send_cls_signal 3 created [] true []) s2 = Ok ()
  ∧ new_calls (send_cls_signal 3 created [] true []) s2 = [].
Proof. vm_compute. repeat split; reflexivity. Qed.

(** C3, as the spec has it, fails: [A] declares ["created"] and [B(A)]
    declares it cascading.  The merge for [B] gives the signal of [A], but
    the table of [B] binds the name to the signal of [B]'s own declaration,
    which has the cascade closure that the signal of [A] has not: the
    handler on the base signal is called for an emission on [B] and not for
    one on [A]. *)
Lemma merge_not_effective_counterexample :
  let s := run prog_both_declared initial in
  own_namespace s 3 = Some [("created", 0)]
  ∧ dict_get (_merge_dict_class_vars s 4 Signaler) "created" = Some 0
  ∧ outcome (Signaler_signals 4) s = Ok [("created", 1)]
  ∧ class_receivers s 3 "created" = Some [AllCascadePadre 0 EVENT_TRIGGERED]
  ∧ class_receivers s 4 "created"
    = Some [CascadePadre 1 "created"; AllCascadePadre 3 EVENT_TRIGGERED]
  ∧ new_calls (send_cls_signal 3 created [] true []) s = []
  ∧ length (deliveries (ViaBaseSignal "created") on_created
              (new_calls (send_cls_signal 4 created [] true []) s)) = 1.
Proof. vm_compute. repeat split; reflexivity. Qed.

(** C2: [B] inherits ["created"] from [A], which declared it cascading.
    The schema the decorator derives for [B] has [cascade = False], the
    signal of [B] has no edge to the base signal, and the handler on the
    base signal is called for an emission on [A] and not for one on [B]. *)
Lemma inherited_cascade_lost :
  let s := run prog_inherited_cascade initial in
  let before := run (take 3 prog_inherited_cascade) initial in
  inherited_schemata before 4 = [ArgSchema created]
  ∧ class_receivers s 3 "created"
    = Some [CascadePadre 0 "created"; AllCascadePadre 1 EVENT_TRIGGERED]
  ∧ class_receivers s 4 "created" = Some [AllCascadePadre 2 EVENT_TRIGGERED]
  ∧ length (deliveries (ViaBaseSignal "created") on_created
              (new_calls (send_cls_signal 3 created [] true []) s)) = 1
  ∧ deliveries (ViaBaseSignal "created") on_created
      (new_calls (send_cls_signal 4 created [] true []) s) = [].
Proof. vm_compute. repeat split; reflexivity. Qed.



(** C6, as the spec has it, fails for emission: on a class that has no
    namespace, not even an inherited one, [send_cls_signal] raises the
    error of [signals()] and makes no attempt to declare the class. *)
Lemma send_undeclared_counterexample :
  let s := run prog_undeclared initial in
  let m := send_cls_signal 3 created [] true [] in
  outcome m s = Raise (ValueError NamespaceNotDefined)
  ∧ bool_decide (3 ∈ signal_classes (exec m s)) = false
  ∧ own_namespace (exec m s) 3 = None.
Proof. vm_compute. repeat split; reflexivity. Qed.

(** C7, as the spec has it, fails for a subclass that is not declared:
    [D(B)], defined after the call, has no namespace of its own, shows the
    one of [B], and an emission on [D] calls the handler. *)
Lemma late_subclass_counterexample :
  let s := run prog_late_subclass initial in
  own_namespace s 6 = None
  ∧ getattr_namespace s 6 = own_namespace s 4
  ∧ class_receivers s 6 "created"
    = Some [AllCascadePadre 1 EVENT_TRIGGERED; User on_created]
  ∧ new_calls (send_cls_signal 6 created [] true []) s
    = [ {| call_via := ViaClassSignal 1; call_fn := on_created;
           call_sender := SenderClass 6;
           call_kwargs := [("signal", VSchema created)] |} ].
Proof. vm_compute. repeat split; reflexivity. Qed.

(** C8, as the spec has it, fails: [B(A)] was never declared, and
    [B.signals()] returns the namespace of [A]. *)
Lemma signals_undeclared_subclass_counterexample :
  let s := run prog_undeclared_subclass initial in
  bool_decide (4 ∈ signal_classes s) = false
  ∧ own_namespace s 4 = None
  ∧ outcome (Signaler_signals 4) s = Ok [("created", 0)].
Proof. vm_compute. repeat split; reflexivity. Qed.

(** ** Attribute names *)

Lemma append_inj_r (p a b : string) : p +:+ a = p +:+ b → a = b.
Proof.
  induction p as [|x p IH]; simpl; intros H; [exact H|].
  injection H as H. apply IH, H.
Qed.

Lemma all_cascade_key_eq nm : all_cascade_key nm = cascade_key (generic_prefixed nm).
Proof. reflexivity. Qed.

Lemma cascade_key_inj a b : cascade_key a = cascade_key b → a = b.
Proof. apply append_inj_r. Qed.

Lemma generic_prefixed_inj a b : generic_prefixed a = generic_prefixed b → a = b.
Proof. apply (append_inj_r "generic_event_"). Qed.

Lemma generic_prefixed_ne a : generic_prefixed a ≠ a.
Proof.
  intros H. apply (f_equal String.length) in H.
  unfold generic_prefixed, EVENT_TRIGGERED in H. simpl in H.
  change ("" +:+ a) with a in H. lia.
Qed.

Lemma all_cascade_key_inj a b : all_cascade_key a = all_cascade_key b → a = b.
Proof.
  rewrite !all_cascade_key_eq. intros H.
  apply generic_prefixed_inj, cascade_key_inj, H.
Qed.

Lemma cascade_all_key a b :
  cascade_key a = all_cascade_key b → a = generic_prefixed b.
Proof. rewrite all_cascade_key_eq. apply cascade_key_inj. Qed.

Lemma cascade_all_key_same a : cascade_key a ≠ all_cascade_key a.
Proof.
  intros H. apply cascade_all_key in H. symmetry in H.
  exact (generic_prefixed_ne a H).
Qed.

(** ** Receivers of a signal *)

Lemma elem_of_connect_receiver r sg x :
  x ∈ receivers (connect_receiver r sg) ↔ x = r ∨ x ∈ receivers sg.
Proof.
  unfold connect_receiver. destruct (decide (r ∈ receivers sg)) as [Hin|Hni].
  - split; [auto | intros [->|?]; assumption].
  - simpl. rewrite elem_of_app, list_elem_of_singleton. tauto.
Qed.

Lemma NoDup_connect_receiver r sg :
  NoDup (receivers sg) → NoDup (receivers (connect_receiver r sg)).
Proof.
  intros Hnd. unfold connect_receiver.
  destruct (decide (r ∈ receivers sg)) as [Hin|Hni]; [assumption|].
  simpl. apply NoDup_app. split; [assumption|]. split.
  - intros x Hx Hx'. apply list_elem_of_singleton in Hx'. congruence.
  - apply NoDup_singleton.
Qed.

Lemma elem_of_disconnect_receiver r sg x :
  x ∈ receivers (disconnect_receiver r sg) ↔ x ∈ receivers sg ∧ x ≠ r.
Proof. unfold disconnect_receiver. simpl. rewrite list_elem_of_filter. tauto. Qed.

Lemma NoDup_disconnect_receiver r sg :
  NoDup (receivers sg) → NoDup (receivers (disconnect_receiver r sg)).
Proof. intros Hnd. unfold disconnect_receiver. simpl. apply NoDup_filter, Hnd. Qed.

(** ** The class table under [setattr] *)

Lemma set_cascade_attrs_compose f g k :
  set_cascade_attrs f (set_cascade_attrs g k) = set_cascade_attrs (f ∘ g) k.
Proof. reflexivity. Qed.

Section AlterAttrs.
Variables (cl : list Class) (cls : ClassId) (g : dict Receiver → dict Receiver).
Let cl' := alter (set_cascade_attrs g) cls cl.

Lemma alter_attrs_namespace c :
  cl' !! c ≫= signal_namespace = cl !! c ≫= signal_namespace.
Proof.
  unfold cl'. destruct (decide (c = cls)) as [->|Hne].
  - rewrite list_lookup_alter_eq. destruct (cl !! cls); reflexivity.
  - rewrite list_lookup_alter_ne by congruence. reflexivity.
Qed.

Lemma alter_attrs_ancestors c :
  ancestors <$> cl' !! c = ancestors <$> cl !! c.
Proof.
  unfold cl'. destruct (decide (c = cls)) as [->|Hne].
  - rewrite list_lookup_alter_eq. destruct (cl !! cls); reflexivity.
  - rewrite list_lookup_alter_ne by congruence. reflexivity.
Qed.

Lemma alter_attrs_bases c :
  bases <$> cl' !! c = bases <$> cl !! c.
Proof.
  unfold cl'. destruct (decide (c = cls)) as [->|Hne].
  - rewrite list_lookup_alter_eq. destruct (cl !! cls); reflexivity.
  - rewrite list_lookup_alter_ne by congruence. reflexivity.
Qed.

Lemma alter_attrs_attrs c :
  cascade_attrs <$> cl' !! c
  = (if decide (c = cls) then g else id) <$> (cascade_attrs <$> cl !! c).
Proof.
  unfold cl'. destruct (decide (c = cls)) as [->|Hne].
  - rewrite list_lookup_alter_eq. destruct (cl !! cls); reflexivity.
  - rewrite list_lookup_alter_ne by congruence. destruct (cl !! c); reflexivity.
Qed.
End AlterAttrs.

Lemma own_attr_eq s c key :
  own_attr s c key = (cascade_attrs <$> classes s !! c) ≫= λ d, dict_get d key.
Proof. unfold own_attr. destruct (classes s !! c); reflexivity. Qed.

Lemma mro_eq s c :
  mro s c = from_option (cons c) [] (ancestors <$> classes s !! c).
Proof. unfold mro. destruct (classes s !! c); reflexivity. Qed.

Lemma bases_of_eq s c :
  bases_of s c = default [] (bases <$> classes s !! c).
Proof. unfold bases_of. destruct (classes s !! c); reflexivity. Qed.

Lemma same_classes_refl s : same_classes s s.
Proof. repeat split. Qed.

Lemma same_classes_trans s1 s2 s3 :
  same_classes s1 s2 → same_classes s2 s3 → same_classes s1 s3.
Proof.
  intros (H1 & H2 & H3 & H4) (G1 & G2 & G3 & G4). repeat split; intros.
  - congruence.
  - rewrite G2. apply H2.
  - rewrite G3. apply H3.
  - rewrite G4. apply H4.
Qed.

Lemma same_classes_alter_attrs s s' cls g :
  classes s' = alter (set_cascade_attrs g) cls (classes s) →
  same_classes s s'.
Proof.
  intros E. repeat split; intros.
  - rewrite E. apply length_alter.
  - unfold own_namespace. rewrite E. apply alter_attrs_namespace.
  - rewrite !mro_eq, E, alter_attrs_ancestors. reflexivity.
  - rewrite !bases_of_eq, E, alter_attrs_bases. reflexivity.
Qed.

Lemma same_classes_getattr s s' c :
  same_classes s s' → getattr_namespace s' c = getattr_namespace s c.
Proof.
  intros (_ & Hns & Hmro & _). unfold getattr_namespace. rewrite Hmro.
  assert (E : list_find (λ p, is_Some (own_namespace s' p)) (mro s c)
              = list_find (λ p, is_Some (own_namespace s p)) (mro s c)).
  { apply list_find_ext. intros p. rewrite Hns. reflexivity. }
  rewrite E. clear E.
  destruct (list_find _ _) as [[i p]|]; simpl; [apply Hns | reflexivity].
Qed.

Lemma same_classes_issubclass s s' c l :
  same_classes s s' → issubclass s' c l = issubclass s c l.
Proof. intros (_ & _ & Hmro & _). unfold issubclass. rewrite Hmro. reflexivity. Qed.

(** ** Installing a closure *)

Lemma install_state_classes cls key r ch s :
  classes (install_state cls key r ch s)
  = alter (set_cascade_attrs (λ d, dict_set d key r)) cls (classes s).
Proof. unfold install_state. destruct (own_attr s cls key); reflexivity. Qed.

Lemma install_state_heap cls key r ch s :
  heap (install_state cls key r ch s)
  = install_heap (own_attr s cls key) r ch (heap s).
Proof. unfold install_state. destruct (own_attr s cls key); reflexivity. Qed.

Lemma install_state_rest cls key r ch s :
  signal_classes (install_state cls key r ch s) = signal_classes s
  ∧ base_signals (install_state cls key r ch s) = base_signals s
  ∧ calls (install_state cls key r ch s) = calls s
  ∧ next_fn (install_state cls key r ch s) = S (next_fn s).
Proof. unfold install_state. destruct (own_attr s cls key); repeat split. Qed.

Lemma same_classes_install cls key r ch s :
  same_classes s (install_state cls key r ch s).
Proof. eapply same_classes_alter_attrs, install_state_classes. Qed.

Lemma own_attr_install cls key r ch s c k :
  cls < length (classes s) →
  own_attr (install_state cls key r ch s) c k
  = if decide (c = cls ∧ k = key) then Some r else own_attr s c k.
Proof.
  intros Hk. rewrite !own_attr_eq, install_state_classes, alter_attrs_attrs.
  apply lookup_lt_is_Some in Hk as [kc Hkc].
  destruct (decide (c = cls)) as [->|Hne].
  - rewrite Hkc. simpl. rewrite dict_get_set.
    destruct (decide (k = key)) as [->|Hne'].
    + rewrite decide_True by done. reflexivity.
    + rewrite decide_False by (intros [_ ?]; done). reflexivity.
  - rewrite decide_False by (intros [? _]; done).
    destruct (classes s !! c); reflexivity.
Qed.

Lemma install_heap_length old r ch h :
  length (install_heap old r ch h) = length h.
Proof.
  unfold install_heap. rewrite length_alter.
  destruct old; simpl; [apply length_map | reflexivity].
Qed.

(** The receivers of every signal after the installation. *)
Lemma install_heap_lookup old r ch h c' :
  install_heap old r ch h !! c'
  = (λ sg, (if decide (ch = c') then connect_receiver r else id)
             (from_option disconnect_receiver id old sg)) <$> h !! c'.
Proof.
  unfold install_heap. rewrite list_lookup_alter.
  destruct (decide (ch = c')) as [->|Hne].
  - destruct old as [o|]; simpl.
    + rewrite list_lookup_fmap. destruct (h !! c'); reflexivity.
    + destruct (h !! c'); reflexivity.
  - destruct old as [o|]; simpl.
    + rewrite list_lookup_fmap. destruct (h !! c'); reflexivity.
    + destruct (h !! c'); reflexivity.
Qed.

Lemma installed_signal old r ch c' sg :
  installed old r ch c' sg
    ((if decide (ch = c') then connect_receiver r else id)
       (from_option disconnect_receiver id old sg)).
Proof.
  assert (Hd : ∀ x, x ∈ receivers (from_option disconnect_receiver id old sg)
                    ↔ x ∈ receivers sg ∧ old ≠ Some x).
  { intros x. destruct old as [o|]; cbn [from_option id].
    - rewrite elem_of_disconnect_receiver. split; intros [? ?]; split; congruence.
    - split; [intros; split; [assumption|discriminate] | tauto]. }
  assert (Hn : NoDup (receivers sg)
               → NoDup (receivers (from_option disconnect_receiver id old sg))).
  { destruct old; cbn [from_option id]; [apply NoDup_disconnect_receiver | auto]. }
  assert (Hname : sig_name (from_option disconnect_receiver id old sg) = sig_name sg).
  { destruct old; reflexivity. }
  destruct (decide (ch = c')) as [->|Hne]; repeat split.
  - unfold connect_receiver. destruct (decide _); simpl; assumption.
  - rewrite elem_of_connect_receiver, Hd. tauto.
  - rewrite elem_of_connect_receiver, Hd. tauto.
  - intros Hnd. apply NoDup_connect_receiver, Hn, Hnd.
  - assumption.
  - simpl. rewrite Hd. tauto.
  - simpl. rewrite Hd. intros [?|[? _]]; [assumption | congruence].
  - simpl. assumption.
Qed.

Lemma heap_install_fwd cls key r ch s c' sg :
  heap s !! c' = Some sg →
  ∃ sg', heap (install_state cls key r ch s) !! c' = Some sg'
         ∧ installed (own_attr s cls key) r ch c' sg sg'.
Proof.
  intros H. rewrite install_state_heap, install_heap_lookup, H. simpl.
  eexists. split; [reflexivity|]. apply installed_signal.
Qed.

Lemma heap_install_inv cls key r ch s c' sg' :
  heap (install_state cls key r ch s) !! c' = Some sg' →
  ∃ sg, heap s !! c' = Some sg
        ∧ installed (own_attr s cls key) r ch c' sg sg'.
Proof.
  rewrite install_state_heap, install_heap_lookup.
  destruct (heap s !! c') as [sg|]; simpl; [|discriminate].
  intros H. injection H as <-. eexists. split; [reflexivity|].
  apply installed_signal.
Qed.

Lemma table_ok_skip s cls ns nm :
  table_ok s cls ns None → table_ok s cls ns (Some nm).
Proof.
  intros H n ch Hget. destruct (H n ch Hget) as (sg & ? & ? & Hu).
  exists sg. repeat split; try assumption. intros _. apply Hu. discriminate.
Qed.

Lemma dict_get_is_Some_valid {V} (d : dict V) k v :
  dict_get d k = Some v → is_Some (dict_get d k).
Proof. eauto. Qed.

(** Installing a fresh closure for [nm] under one of its two attributes
    keeps the loop invariant; after the universal closure is installed,
    [nm] is no longer pending. *)
Lemma LoopInv_install s0 cls ns sk sk' s nm key ch r :
  LoopInv s0 cls ns sk s →
  dict_get ns nm = Some ch →
  is_closure r → closure_id r = next_fn s →
  (key = cascade_key nm ∧ (∃ f, r = CascadePadre f nm)
   ∧ is_Some (dict_get (base_signals s) nm) ∧ sk' = sk)
  ∨ (key = all_cascade_key nm ∧ (∃ f, r = AllCascadePadre f EVENT_TRIGGERED)
     ∧ sk' = None ∧ (sk = None ∨ sk = Some nm)) →
  LoopInv s0 cls ns sk' (install_state cls key r ch s).
Proof.
  intros H Hch Hclo Hid Hslot.
  set (s' := install_state cls key r ch s).
  destruct (install_state_rest cls key r ch s) as (Hsc & Hbase & Hcalls & Hnext).
  fold s' in Hsc, Hbase, Hcalls, Hnext.
  assert (A1 : ∀ c k, own_attr s' c k
                 = if decide (c = cls ∧ k = key) then Some r else own_attr s c k).
  { intros. apply own_attr_install, (li_known _ _ _ _ _ H). }
  assert (A2 : ∀ c k, own_attr s c k ≠ Some r).
  { intros c k Hx. apply (li_attr_fresh _ _ _ _ _ H) in Hx as [_ Hx]. lia. }
  assert (A3 : ∀ c k x, own_attr s c k = Some x → (c, k) ≠ (cls, key) →
                 own_attr s' c k = Some x ∧ own_attr s cls key ≠ Some x).
  { intros c k x Hx Hne. split.
    - rewrite A1, decide_False; [assumption|]. intros [-> ->]. apply Hne. reflexivity.
    - intros Hx'. destruct (li_attr_inj _ _ _ _ _ H _ _ _ _ _ Hx Hx') as [-> ->].
      apply Hne. reflexivity. }
  assert (Hsame : same_classes s s') by apply same_classes_install.
  assert (Hchlo : length (heap s0) ≤ ch) by (eapply li_local_new; eauto).
  constructor.
  - (* li_known *)
    destruct Hsame as (-> & _). apply (li_known _ _ _ _ _ H).
  - apply (li_not_object _ _ _ _ _ H).
  - eapply same_classes_trans; [apply (li_classes _ _ _ _ _ H) | exact Hsame].
  - intros c k Hne. rewrite A1, decide_False by (intros [? _]; done).
    apply (li_other_attrs _ _ _ _ _ H), Hne.
  - rewrite Hsc. apply (li_registered _ _ _ _ _ H).
  - rewrite Hcalls. apply (li_calls _ _ _ _ _ H).
  - unfold s'. rewrite install_state_heap, install_heap_length.
    apply (li_heap_grows _ _ _ _ _ H).
  - (* li_old_user *)
    intros c' sg' h Hsg' Hin.
    apply heap_install_inv in Hsg' as (sg & Hsg & _ & Hmem & _).
    apply Hmem in Hin as [[Hin _]|[_ E]];
      [|exfalso; rewrite <- E in Hclo; exact Hclo].
    eapply (li_old_user _ _ _ _ _ H); eauto.
  - (* li_user_kept *)
    intros c' sg0 h Hsg0 Hin.
    destruct (li_user_kept _ _ _ _ _ H _ _ _ Hsg0 Hin) as (sg & Hsg & Hin').
    destruct (heap_install_fwd cls key r ch s c' sg Hsg) as (sg' & Hsg' & _ & Hmem & _).
    exists sg'. split; [exact Hsg'|]. apply Hmem. left. split; [exact Hin'|].
    intros Hold. apply (li_attr_fresh _ _ _ _ _ H) in Hold as [[] _].
  - intros n. unfold base_receivers. rewrite Hbase. apply (li_base_kept _ _ _ _ _ H).
  - intros n. rewrite Hbase. apply (li_base_grows _ _ _ _ _ H).
  - (* li_other_tables *)
    intros c ns' Hne Hns'.
    destruct Hsame as (_ & Hown & _). rewrite Hown in Hns'.
    intros n c' Hget.
    destruct (li_other_tables _ _ _ _ _ H c ns' Hne Hns' n c' Hget)
      as (sg & Hsg & Hmost & Huniv).
    destruct (heap_install_fwd cls key r ch s c' sg Hsg) as (sg' & Hsg' & _ & Hmem & _).
    assert (Hc' : c' ≠ ch).
    { pose proof (li_old_channels _ _ _ _ _ H c ns' n c' Hns' Hget). lia. }
    exists sg'. split; [exact Hsg'|]. split.
    + intros x Hx Hcl. apply Hmem in Hx as [[Hx _]|[? _]]; [|done].
      destruct (Hmost x Hx Hcl) as [(Ha & Hf & Hb)|(Ha & Hf)]; [left|right].
      * rewrite Hbase. split; [|split; assumption].
        apply A3; [assumption | congruence].
      * split; [|assumption]. apply A3; [assumption | congruence].
    + intros _. destruct (Huniv ltac:(discriminate)) as [(f & Ha & Hin)|Hr]; [left|right; exact Hr].
      exists f. destruct (A3 c _ _ Ha ltac:(congruence)) as [Ha' Hold].
      split; [exact Ha'|]. apply Hmem. left. split; [exact Hin|exact Hold].
  - (* li_old_channels *)
    intros c ns' n c' Hns'. destruct Hsame as (_ & Hown & _). rewrite Hown in Hns'.
    apply (li_old_channels _ _ _ _ _ H c ns' n c' Hns').
  - (* li_local *)
    intros n c' Hget.
    destruct (li_local _ _ _ _ _ H n c' Hget) as (sg & Hsg & Hmost & Huniv).
    destruct (heap_install_fwd cls key r ch s c' sg Hsg) as (sg' & Hsg' & _ & Hmem & _).
    exists sg'. split; [exact Hsg'|]. split.
    + intros x Hx Hcl. apply Hmem in Hx as [[Hx Hold]|[-> ->]].
      * destruct (Hmost x Hx Hcl) as [(Ha & Hf & Hb)|(Ha & Hf)]; [left|right].
        -- rewrite Hbase. split; [|split; assumption].
           apply A3; [assumption|]. intros E. injection E as E. congruence.
        -- split; [|assumption].
           apply A3; [assumption|]. intros E. injection E as E. congruence.
      * assert (n = nm) as -> by (eapply (li_local_inj _ _ _ _ _ H); eauto).
        destruct Hslot as [(-> & Hf & Hb & _)|(-> & Hf & _)]; [left|right].
        -- rewrite Hbase, A1, decide_True by done. auto.
        -- rewrite A1, decide_True by done. auto.
    + intros Hsk'.
      assert (Hkeep : ∀ f, own_attr s cls (all_cascade_key n)
                           = Some (AllCascadePadre f EVENT_TRIGGERED) →
                AllCascadePadre f EVENT_TRIGGERED ∈ receivers sg →
                all_cascade_key n ≠ key →
                universal_edge s' cls ns n (receivers sg')).
      { intros f Ha Hin Hk. left. exists f.
        destruct (A3 cls _ _ Ha ltac:(congruence)) as [Ha' Hold].
        split; [exact Ha'|]. apply Hmem. left. split; [exact Hin|exact Hold]. }
      destruct Hslot as [(-> & Hf & Hb & ->)|(-> & [f0 ->] & -> & Hsk)].
      * destruct (Huniv Hsk') as [(f & Ha & Hin)|Hr]; [|right; exact Hr].
        destruct (decide (all_cascade_key n = cascade_key nm)) as [E|E].
        -- right. symmetry in E. apply cascade_all_key in E. subst nm. eauto.
        -- eapply Hkeep; eauto.
      * destruct (decide (n = nm)) as [->|Hn].
        -- left. exists f0. rewrite A1, decide_True by done. split; [reflexivity|].
           apply Hmem. right. split; [congruence | reflexivity].
        -- assert (Hsk'' : sk ≠ Some n) by (destruct Hsk; congruence).
           destruct (Huniv Hsk'') as [(f & Ha & Hin)|Hr]; [|right; exact Hr].
           eapply Hkeep; eauto. intros E. apply all_cascade_key_inj in E. done.
  - apply (li_local_new _ _ _ _ _ H).
  - apply (li_local_inj _ _ _ _ _ H).
  - apply (li_local_nodup _ _ _ _ _ H).
  - (* li_attr_fresh *)
    intros c k x. rewrite A1, Hnext. destruct (decide _).
    + intros E. injection E as <-. split; [exact Hclo | lia].
    + intros Hx. apply (li_attr_fresh _ _ _ _ _ H) in Hx as [? ?]. split; [assumption | lia].
  - (* li_attr_inj *)
    intros c1 k1 c2 k2 x. rewrite !A1.
    destruct (decide (c1 = cls ∧ k1 = key)) as [[-> ->]|N1];
      destruct (decide (c2 = cls ∧ k2 = key)) as [[-> ->]|N2].
    + auto.
    + intros E1 E2. injection E1 as <-. destruct (A2 _ _ E2).
    + intros E1 E2. injection E2 as <-. destruct (A2 _ _ E1).
    + apply (li_attr_inj _ _ _ _ _ H).
  - rewrite Hbase. apply (li_base_event _ _ _ _ _ H).
  - rewrite Hbase. apply (li_base_nodup _ _ _ _ _ H).
  - intros c' sg' Hsg'.
    apply heap_install_inv in Hsg' as (sg & Hsg & _ & _ & Hnd).
    apply Hnd. eapply (li_receivers_nodup _ _ _ _ _ H); eauto.
Qed.

(** [table_ok] looks at the closures of the signals, at the attributes of
    the class and at the names of the base signals. *)
Lemma table_ok_transfer s s' cls ns sk :
  (∀ ch sg, heap s !! ch = Some sg →
     ∃ sg', heap s' !! ch = Some sg'
       ∧ ∀ x, is_closure x → (x ∈ receivers sg' ↔ x ∈ receivers sg)) →
  (∀ k, own_attr s' cls k = own_attr s cls k) →
  (∀ n, is_Some (dict_get (base_signals s) n) →
        is_Some (dict_get (base_signals s') n)) →
  table_ok s cls ns sk → table_ok s' cls ns sk.
Proof.
  intros Hheap Hattr Hbase H n ch Hget.
  destruct (H n ch Hget) as (sg & Hsg & Hmost & Huniv).
  destruct (Hheap ch sg Hsg) as (sg' & Hsg' & Hmem).
  exists sg'. split; [exact Hsg'|]. split.
  - intros x Hx Hcl. apply Hmem in Hx; [|exact Hcl].
    destruct (Hmost x Hx Hcl) as [(Ha & Hf & Hb)|(Ha & Hf)]; [left|right].
    + rewrite Hattr. auto.
    + rewrite Hattr. auto.
  - intros Hsk. destruct (Huniv Hsk) as [(f & Ha & Hin)|Hr]; [left|right; exact Hr].
    exists f. rewrite Hattr. split; [exact Ha|]. apply Hmem; [exact I | exact Hin].
Qed.

Lemma table_ok_valid s cls ns sk n ch :
  table_ok s cls ns sk → dict_get ns n = Some ch → ch < length (heap s).
Proof.
  intros H Hget. destruct (H n ch Hget) as (sg & Hsg & _).
  eapply lookup_lt_Some, Hsg.
Qed.

Lemma LoopInv_namespace_signal s0 cls ns s nm :
  LoopInv s0 cls ns None s →
  ∃ ns' ch s',
    namespace_signal ns nm s = (s', Ok (ns', ch))
    ∧ LoopInv s0 cls ns' (Some nm) s'
    ∧ dict_get ns' nm = Some ch
    ∧ next_fn s' = next_fn s
    ∧ (∀ k, is_Some (dict_get ns' k) ↔ k = nm ∨ is_Some (dict_get ns k)).
Proof.
  intros H. unfold namespace_signal.
  destruct (dict_get ns nm) as [ch|] eqn:Hget.
  - exists ns, ch, s. split; [reflexivity|]. split; [|split; [exact Hget|split; [reflexivity|]]].
    + destruct H. constructor; try assumption. apply table_ok_skip. assumption.
    + intros k. split; [auto|]. intros [->|?]; eauto.
  - set (new := {| sig_name := nm; receivers := [] |}).
    set (s' := set_heap (λ h, h ++ [new]) s).
    exists (dict_set ns nm (length (heap s))), (length (heap s)), s'.
    split; [reflexivity|].
    assert (Hold : ∀ ch sg, heap s !! ch = Some sg → heap s' !! ch = Some sg).
    { intros ch sg Hsg. unfold s'. simpl. apply lookup_app_l_Some, Hsg. }
    assert (Hnew : heap s' !! length (heap s) = Some new).
    { unfold s'. simpl. apply list_lookup_middle. reflexivity. }
    assert (Hinv : ∀ ch sg, heap s' !! ch = Some sg →
                     heap s !! ch = Some sg ∨ sg = new).
    { intros ch sg. unfold s'. simpl. intros Hsg.
      apply lookup_app_Some in Hsg as [?|[_ Hsg]]; [left; assumption|right].
      destruct (ch - length (heap s)); simpl in Hsg; [congruence | discriminate]. }
    assert (Htr : ∀ c ns' sk, table_ok s c ns' sk → table_ok s' c ns' sk).
    { intros c ns' sk. apply table_ok_transfer; [|reflexivity|auto].
      intros ch sg Hsg. exists sg. split; [apply Hold, Hsg | reflexivity]. }
    split; [|split; [apply dict_get_set_eq|split; [reflexivity|]]].
    + constructor.
      * apply (li_known _ _ _ _ _ H).
      * apply (li_not_object _ _ _ _ _ H).
      * apply (li_classes _ _ _ _ _ H).
      * apply (li_other_attrs _ _ _ _ _ H).
      * apply (li_registered _ _ _ _ _ H).
      * apply (li_calls _ _ _ _ _ H).
      * unfold s'. simpl. rewrite length_app.
        pose proof (li_heap_grows _ _ _ _ _ H). lia.
      * intros ch sg h Hsg Hin. apply Hinv in Hsg as [Hsg| ->].
        -- eapply (li_old_user _ _ _ _ _ H); eauto.
        -- simpl in Hin. apply elem_of_nil in Hin. destruct Hin.
      * intros ch sg0 h Hsg0 Hin.
        destruct (li_user_kept _ _ _ _ _ H _ _ _ Hsg0 Hin) as (sg & Hsg & Hin').
        exists sg. split; [apply Hold, Hsg | exact Hin'].
      * apply (li_base_kept _ _ _ _ _ H).
      * apply (li_base_grows _ _ _ _ _ H).
      * intros c ns' Hne Hns'. apply Htr.
        apply (li_other_tables _ _ _ _ _ H c ns' Hne Hns').
      * apply (li_old_channels _ _ _ _ _ H).
      * intros n ch. rewrite dict_get_set. destruct (decide (n = nm)) as [->|Hne].
        -- intros E. injection E as <-. exists new. split; [exact Hnew|]. split.
           ++ intros x Hx. simpl in Hx. apply elem_of_nil in Hx. destruct Hx.
           ++ intros Hsk. destruct Hsk. reflexivity.
        -- intros Hn.
           destruct (Htr _ _ _ (li_local _ _ _ _ _ H) n ch Hn) as (sg & Hsg & Hmost & Huniv).
           exists sg. split; [exact Hsg|]. split; [exact Hmost|].
           intros _. destruct (Huniv ltac:(discriminate)) as [Hl|Hr]; [left; exact Hl|right].
           rewrite dict_get_set. destruct (decide _); eauto.
      * intros n ch. rewrite dict_get_set. destruct (decide (n = nm)) as [->|Hne].
        -- intros E. injection E as <-. apply (li_heap_grows _ _ _ _ _ H).
        -- apply (li_local_new _ _ _ _ _ H).
      * intros n1 n2 ch. rewrite !dict_get_set.
        pose proof (λ n c, table_ok_valid _ _ _ _ n c (li_local _ _ _ _ _ H)) as Hv.
        destruct (decide (n1 = nm)) as [->|N1]; destruct (decide (n2 = nm)) as [->|N2].
        -- auto.
        -- intros E1 E2. injection E1 as <-. apply Hv in E2. lia.
        -- intros E1 E2. injection E2 as <-. apply Hv in E1. lia.
        -- apply (li_local_inj _ _ _ _ _ H).
      * apply dict_set_NoDup, (li_local_nodup _ _ _ _ _ H).
      * apply (li_attr_fresh _ _ _ _ _ H).
      * apply (li_attr_inj _ _ _ _ _ H).
      * apply (li_base_event _ _ _ _ _ H).
      * apply (li_base_nodup _ _ _ _ _ H).
      * intros ch sg Hsg. apply Hinv in Hsg as [Hsg| ->].
        -- eapply (li_receivers_nodup _ _ _ _ _ H); eauto.
        -- apply NoDup_nil_2.
    + intros k. rewrite dict_get_set. destruct (decide (k = nm)) as [->|Hne].
      * split; [auto | eauto].
      * split; [auto | intros [?|?]; [done | assumption]].
Qed.

Lemma LoopInv_base_signal_create s0 cls ns sk s nm :
  LoopInv s0 cls ns sk s →
  LoopInv s0 cls ns sk (exec (base_signal_create nm) s)
  ∧ is_Some (dict_get (base_signals (exec (base_signal_create nm) s)) nm)
  ∧ next_fn (exec (base_signal_create nm) s) = next_fn s.
Proof.
  intros H. set (s' := exec (base_signal_create nm) s).
  assert (Hb : ∀ n, dict_get (base_signals s') n
                    = if decide (n = nm)
                      then Some (default [] (dict_get (base_signals s) nm))
                      else dict_get (base_signals s) n).
  { intros n. unfold s', exec, base_signal_create, modify. simpl.
    destruct (dict_mem (base_signals s) nm) eqn:Hm.
    - apply dict_mem_true in Hm as [hs Hhs].
      destruct (decide (n = nm)) as [->|]; [rewrite Hhs|]; reflexivity.
    - apply dict_mem_false in Hm. rewrite dict_get_set, Hm. reflexivity. }
  assert (Hmono : ∀ n, is_Some (dict_get (base_signals s) n) →
                       is_Some (dict_get (base_signals s') n)).
  { intros n Hn. rewrite Hb. destruct (decide _); eauto. }
  assert (Htr : ∀ c ns' sk', table_ok s c ns' sk' → table_ok s' c ns' sk').
  { intros c ns' sk'. apply table_ok_transfer; [|reflexivity|exact Hmono].
    intros ch sg Hsg. exists sg. split; [exact Hsg | reflexivity]. }
  split; [|split; [rewrite Hb, decide_True by done; eauto | reflexivity]].
  constructor.
  - apply (li_known _ _ _ _ _ H).
  - apply (li_not_object _ _ _ _ _ H).
  - apply (li_classes _ _ _ _ _ H).
  - apply (li_other_attrs _ _ _ _ _ H).
  - apply (li_registered _ _ _ _ _ H).
  - apply (li_calls _ _ _ _ _ H).
  - apply (li_heap_grows _ _ _ _ _ H).
  - apply (li_old_user _ _ _ _ _ H).
  - apply (li_user_kept _ _ _ _ _ H).
  - intros n. rewrite <- (li_base_kept _ _ _ _ _ H). unfold base_receivers.
    rewrite Hb. destruct (decide (n = nm)) as [->|]; reflexivity.
  - intros n Hn. apply Hmono, (li_base_grows _ _ _ _ _ H), Hn.
  - intros c ns' Hne Hns'. apply Htr, (li_other_tables _ _ _ _ _ H c ns' Hne Hns').
  - apply (li_old_channels _ _ _ _ _ H).
  - apply Htr, (li_local _ _ _ _ _ H).
  - apply (li_local_new _ _ _ _ _ H).
  - apply (li_local_inj _ _ _ _ _ H).
  - apply (li_local_nodup _ _ _ _ _ H).
  - apply (li_attr_fresh _ _ _ _ _ H).
  - apply (li_attr_inj _ _ _ _ _ H).
  - apply Hmono, (li_base_event _ _ _ _ _ H).
  - intros n hs. rewrite Hb. destruct (decide (n = nm)) as [->|].
    + intros E. injection E as <-.
      destruct (dict_get (base_signals s) nm) eqn:E; simpl.
      * eapply (li_base_nodup _ _ _ _ _ H), E.
      * apply NoDup_nil_2.
    + apply (li_base_nodup _ _ _ _ _ H).
  - apply (li_receivers_nodup _ _ _ _ _ H).
Qed.

(** ** The loop of the decorator *)

Lemma install_run cls key r ch s :
  cls ≠ object_ →
  (setattr_cascade cls key r ;;; signal_connect ch r) (set_next_fn S s)
  = (install_state cls key r ch s, Ok ()).
Proof.
  intros Hne. unfold setattr_cascade. rewrite decide_False by exact Hne.
  unfold signal_connect, install_state, bind, get, modify.
  simpl. reflexivity.
Qed.

Lemma declare_schema_eq cls ns a s s1 ns' ch :
  cls ≠ object_ →
  namespace_signal ns (_name (schema_of_arg a)) s = (s1, Ok (ns', ch)) →
  declare_schema cls ns a s
  = (declare_schema_state cls (_name (schema_of_arg a))
       (_cascade (schema_of_arg a)) ch s1, Ok ns').
Proof.
  intros Hne Hns. unfold declare_schema, declare_schema_state, setattr_cascade.
  destruct (decide (cls = object_)) as [?|_]; [done|].
  unfold bind at 1. rewrite Hns. simpl.
  destruct (_cascade (schema_of_arg a)); reflexivity.
Qed.

Lemma LoopInv_declare_schema s0 cls ns s a :
  LoopInv s0 cls ns None s →
  ∃ ns' ch s1,
    namespace_signal ns (_name (schema_of_arg a)) s = (s1, Ok (ns', ch))
    ∧ LoopInv s0 cls ns' (Some (_name (schema_of_arg a))) s1
    ∧ dict_get ns' (_name (schema_of_arg a)) = Some ch
    ∧ (∀ k, is_Some (dict_get ns' k)
            ↔ k = _name (schema_of_arg a) ∨ is_Some (dict_get ns k))
    ∧ declare_schema cls ns a s
      = (declare_schema_state cls (_name (schema_of_arg a))
           (_cascade (schema_of_arg a)) ch s1, Ok ns')
    ∧ LoopInv s0 cls ns' None
        (declare_schema_state cls (_name (schema_of_arg a))
           (_cascade (schema_of_arg a)) ch s1).
Proof.
  intros H.
  destruct (LoopInv_namespace_signal s0 cls ns s (_name (schema_of_arg a)) H)
    as (ns' & ch & s1 & Hns & H1 & Hch & _ & Hkeys).
  exists ns', ch, s1. repeat (split; [assumption|]).
  split; [apply declare_schema_eq; [apply (li_not_object _ _ _ _ _ H)|exact Hns]|].
  set (nm := _name (schema_of_arg a)) in *.
  unfold declare_schema_state.
  assert (H2 : LoopInv s0 cls ns' (Some nm)
                 (if _cascade (schema_of_arg a) then
                    let sb := exec (base_signal_create nm) s1 in
                    install_state cls (cascade_key nm)
                      (CascadePadre (next_fn sb) nm) ch sb
                  else s1)).
  { destruct (_cascade (schema_of_arg a)); [|exact H1].
    destruct (LoopInv_base_signal_create s0 cls ns' (Some nm) s1 nm H1)
      as (Hb & Hsome & _).
    cbv zeta.
    apply (LoopInv_install s0 cls ns' (Some nm) (Some nm) _ nm (cascade_key nm) ch
             (CascadePadre (next_fn (exec (base_signal_create nm) s1)) nm)
             Hb Hch I eq_refl).
    left. eauto. }
  apply (LoopInv_install s0 cls ns' (Some nm) None _ nm (all_cascade_key nm) ch
           (AllCascadePadre _ EVENT_TRIGGERED) H2 Hch I eq_refl).
  right. eauto 10.
Qed.

Lemma LoopInv_declare_all s0 cls l : ∀ ns s,
  LoopInv s0 cls ns None s →
  ∃ ns' s',
    declare_all cls ns l s = (s', Ok ns')
    ∧ LoopInv s0 cls ns' None s'
    ∧ (∀ k, is_Some (dict_get ns' k)
            ↔ k ∈ schema_names l ∨ is_Some (dict_get ns k)).
Proof.
  induction l as [|a l IH]; intros ns s H.
  - exists ns, s. split; [reflexivity|]. split; [exact H|].
    intros k. simpl. rewrite elem_of_nil. tauto.
  - destruct (LoopInv_declare_schema s0 cls ns s a H)
      as (ns1 & ch & s1 & _ & _ & _ & Hkeys & Heq & H1).
    destruct (IH _ _ H1) as (ns' & s' & Hall & H' & Hkeys').
    exists ns', s'. split; [|split; [exact H'|]].
    + simpl. unfold bind. rewrite Heq. exact Hall.
    + intros k. rewrite Hkeys', Hkeys. simpl. rewrite elem_of_cons. tauto.
Qed.

(** ** The decorator *)

Lemma signals_decorator_unknown args cls s :
  ¬ cls < length (classes s) →
  signals_decorator args cls s = (s, Raise TypeError).
Proof.
  intros Hk. unfold signals_decorator, bind, get.
  rewrite bool_decide_eq_false_2 by exact Hk. reflexivity.
Qed.

Lemma signals_decorator_eq args cls s :
  cls < length (classes s) → cls ≠ object_ →
  signals_decorator args cls s
  = match declare_all cls [] (decorator_schemata s args cls) (register cls s) with
    | (s2, Ok ns) => (attach cls ns s2, Ok cls)
    | (s2, Raise e) => (s2, Raise e)
    end.
Proof.
  intros Hk Hno. unfold signals_decorator, setattr_namespace, bind, get.
  destruct (decide (cls = object_)) as [?|_]; [done|].
  rewrite bool_decide_eq_true_2 by exact Hk. simpl.
  unfold decorator_schemata, register.
  change (hasattr_namespace (set_signal_classes _ s) cls)
    with (hasattr_namespace s cls).
  change (inherited_schemata (set_signal_classes _ s) cls)
    with (inherited_schemata s cls).
  destruct (declare_all _ _ _ _) as [s2 [ns|e]]; reflexivity.
Qed.

Lemma own_namespace_attach cls ns s c :
  cls < length (classes s) →
  own_namespace (attach cls ns s) c
  = if decide (c = cls) then Some ns else own_namespace s c.
Proof.
  intros Hk. unfold own_namespace, attach. simpl.
  apply lookup_lt_is_Some in Hk as [k Hk].
  destruct (decide (c = cls)) as [->|Hne].
  - rewrite list_lookup_alter_eq, Hk. reflexivity.
  - rewrite list_lookup_alter_ne by congruence. reflexivity.
Qed.

Lemma own_attr_attach cls ns s c key :
  own_attr (attach cls ns s) c key = own_attr s c key.
Proof.
  unfold own_attr, attach. simpl.
  destruct (decide (c = cls)) as [->|Hne].
  - rewrite list_lookup_alter_eq. destruct (classes s !! cls); reflexivity.
  - rewrite list_lookup_alter_ne by congruence. reflexivity.
Qed.

Lemma mro_attach cls ns s c : mro (attach cls ns s) c = mro s c.
Proof.
  unfold mro, attach. simpl.
  destruct (decide (c = cls)) as [->|Hne].
  - rewrite list_lookup_alter_eq. destruct (classes s !! cls); reflexivity.
  - rewrite list_lookup_alter_ne by congruence. reflexivity.
Qed.

Lemma bases_of_attach cls ns s c : bases_of (attach cls ns s) c = bases_of s c.
Proof.
  unfold bases_of, attach. simpl.
  destruct (decide (c = cls)) as [->|Hne].
  - rewrite list_lookup_alter_eq. destruct (classes s !! cls); reflexivity.
  - rewrite list_lookup_alter_ne by congruence. reflexivity.
Qed.

Lemma LoopInv_start s cls :
  Inv s → cls < length (classes s) → cls ≠ object_ →
  LoopInv (register cls s) cls [] None (register cls s).
Proof.
  intros H Hk Hno. constructor.
  - exact Hk.
  - exact Hno.
  - apply same_classes_refl.
  - reflexivity.
  - reflexivity.
  - reflexivity.
  - reflexivity.
  - intros ch sg h ? ?. exists sg. auto.
  - intros ch sg h ? ?. exists sg. auto.
  - reflexivity.
  - auto.
  - intros c ns' _. apply (inv_tables _ H).
  - intros c ns' n ch Hns Hget.
    eapply (table_ok_valid s c ns' None), Hget. apply (inv_tables _ H), Hns.
  - intros n ch. simpl. discriminate.
  - intros n ch. simpl. discriminate.
  - intros n1 n2 ch. simpl. discriminate.
  - simpl. apply NoDup_nil_2.
  - apply (inv_attr_fresh _ H).
  - apply (inv_attr_inj _ H).
  - apply (inv_base_event _ H).
  - apply (inv_base_nodup _ H).
  - apply (inv_receivers_nodup _ H).
Qed.

Lemma Inv_attach s cls ns s2 :
  Inv s → LoopInv (register cls s) cls ns None s2 → Inv (attach cls ns s2).
Proof.
  intros H L.
  assert (Hown : ∀ c, own_namespace (attach cls ns s2) c
                      = if decide (c = cls) then Some ns else own_namespace s c).
  { intros c. rewrite own_namespace_attach by apply (li_known _ _ _ _ _ L).
    destruct (decide (c = cls)); [reflexivity|].
    destruct (li_classes _ _ _ _ _ L) as (_ & Ho & _). apply Ho. }
  assert (Htr : ∀ c ns' sk, table_ok s2 c ns' sk → table_ok (attach cls ns s2) c ns' sk).
  { intros c ns' sk. apply table_ok_transfer; [| |auto].
    - intros ch sg Hsg. exists sg. split; [exact Hsg | reflexivity].
    - intros k. apply own_attr_attach. }
  constructor.
  - intros c Hc. rewrite Hown.
    change (signal_classes (attach cls ns s2)) with (signal_classes s2).
    rewrite (li_registered _ _ _ _ _ L). simpl.
    rewrite elem_of_union, elem_of_singleton.
    destruct (decide (c = cls)) as [->|Hne].
    + split; [eauto | auto].
    + rewrite (inv_registered _ H c Hc).
      split; [intros [?|?]; [done|assumption] | auto].
  - pose proof (li_not_object _ _ _ _ _ L) as Hno. split.
    + rewrite Hown, decide_False by congruence. apply (inv_object _ H).
    + rewrite mro_attach.
      destruct (li_classes _ _ _ _ _ L) as (_ & _ & Hm & _). rewrite Hm.
      apply (inv_object _ H).
  - intros c ns'. rewrite Hown. destruct (decide (c = cls)) as [->|Hne].
    + intros E. injection E as <-. apply Htr, (li_local _ _ _ _ _ L).
    + intros Hns. apply Htr, (li_other_tables _ _ _ _ _ L c ns' Hne).
      destruct (li_classes _ _ _ _ _ L) as (_ & Ho & _). rewrite Ho. exact Hns.
  - intros c ns'. rewrite Hown. destruct (decide (c = cls)) as [->|Hne].
    + intros E. injection E as <-. apply (li_local_nodup _ _ _ _ _ L).
    + apply (inv_tables_nodup _ H).
  - intros c key r. rewrite own_attr_attach. apply (li_attr_fresh _ _ _ _ _ L).
  - intros c1 k1 c2 k2 r. rewrite !own_attr_attach. apply (li_attr_inj _ _ _ _ _ L).
  - apply (li_base_event _ _ _ _ _ L).
  - apply (li_base_nodup _ _ _ _ _ L).
  - apply (li_receivers_nodup _ _ _ _ _ L).
Qed.

(** What a declaration does to a state that satisfies the invariant. *)
Lemma signals_decorator_spec args cls s :
  Inv s → cls < length (classes s) → cls ≠ object_ →
  ∃ ns s2,
    signals_decorator args cls s = (attach cls ns s2, Ok cls)
    ∧ LoopInv (register cls s) cls ns None s2
    ∧ (∀ k, is_Some (dict_get ns k)
            ↔ k ∈ schema_names (decorator_schemata s args cls)).
Proof.
  intros H Hk Hno.
  destruct (LoopInv_declare_all (register cls s) cls
              (decorator_schemata s args cls) [] (register cls s)
              (LoopInv_start s cls H Hk Hno)) as (ns & s2 & Hall & L & Hkeys).
  exists ns, s2. split; [|split; [exact L|]].
  - rewrite signals_decorator_eq by assumption. rewrite Hall. reflexivity.
  - intros k. rewrite Hkeys. simpl. split; [intros [?|[? ?]]; [assumption|discriminate] | auto].
Qed.

(** ** Properties kept by a computation *)

Section Preserves.
Context (P : State → Prop).

Lemma preserves_ret {A} (a : A) : preserves P (ret a).
Proof. intros s H. exact H. Qed.

Lemma preserves_raise {A} e : preserves P (@raise A e).
Proof. intros s H. exact H. Qed.

Lemma preserves_get {A} (f : State → A) : preserves P (get f).
Proof. intros s H. exact H. Qed.

Lemma preserves_modify f : (∀ s, P s → P (f s)) → preserves P (modify f).
Proof. intros Hf s H. apply Hf, H. Qed.

Lemma preserves_bind {A B} (m : M A) (k : A → M B) :
  preserves P m → (∀ a, preserves P (k a)) → preserves P (bind m k).
Proof.
  intros Hm Hk s H. unfold bind. specialize (Hm s H).
  destruct (m s) as [s' [a|e]]; simpl in *; [apply Hk, Hm | exact Hm].
Qed.

Lemma preserves_for_each {A} (l : list A) (body : A → M unit) :
  (∀ x, preserves P (body x)) → preserves P (for_each l body).
Proof.
  intros Hb. induction l as [|x l IH]; simpl.
  - apply preserves_ret.
  - apply preserves_bind; [apply Hb | intros _; exact IH].
Qed.
End Preserves.

Lemma Inv_frame s s' :
  Inv s →
  (∀ c, c ≠ object_ → (c ∈ signal_classes s' ↔ c ∈ signal_classes s)) →
  (∀ c, own_namespace s' c = own_namespace s c) →
  (∀ c k, own_attr s' c k = own_attr s c k) →
  next_fn s ≤ next_fn s' →
  (∀ n, is_Some (dict_get (base_signals s) n) →
        is_Some (dict_get (base_signals s') n)) →
  (∀ n hs, dict_get (base_signals s') n = Some hs → NoDup hs) →
  (∀ ch sg, heap s !! ch = Some sg →
     ∃ sg', heap s' !! ch = Some sg'
       ∧ ∀ x, is_closure x → (x ∈ receivers sg' ↔ x ∈ receivers sg)) →
  (∀ ch sg, heap s' !! ch = Some sg → NoDup (receivers sg)) →
  mro s' object_ = mro s object_ →
  Inv s'.
Proof.
  intros H Hsc Hown Hattr Hnext Hbase Hbnd Hheap Hnd Hmro. constructor.
  - intros c Hc. rewrite (Hsc c Hc), Hown. apply (inv_registered _ H c Hc).
  - rewrite Hown, Hmro. apply (inv_object _ H).
  - intros c ns. rewrite Hown. intros Hns.
    eapply table_ok_transfer; [exact Hheap | intros; apply Hattr | exact Hbase |].
    apply (inv_tables _ H), Hns.
  - intros c ns. rewrite Hown. apply (inv_tables_nodup _ H).
  - intros c key r. rewrite Hattr. intros Hr.
    destruct (inv_attr_fresh _ H c key r Hr) as [? ?]. split; [assumption|lia].
  - intros c1 k1 c2 k2 r. rewrite !Hattr. apply (inv_attr_inj _ H).
  - apply Hbase, (inv_base_event _ H).
  - exact Hbnd.
  - exact Hnd.
Qed.

Lemma Inv_not_object s T : Inv s → issubclass s T Signaler = true → T ≠ object_.
Proof.
  intros H Hsub ->. unfold issubclass in Hsub.
  destruct (inv_object _ H) as [_ Hm]. rewrite Hm in Hsub.
  apply bool_decide_eq_true in Hsub.
  apply list_elem_of_singleton in Hsub. discriminate.
Qed.

Lemma Inv_object_known s : Inv s → object_ < length (classes s).
Proof.
  intros H. destruct (inv_object _ H) as [_ Hm]. unfold mro in Hm.
  destruct (classes s !! object_) eqn:E; [|discriminate].
  eapply lookup_lt_Some, E.
Qed.

Lemma Inv_has_table s c :
  Inv s → is_Some (own_namespace s c) → c ∈ signal_classes s.
Proof.
  intros H Hc. apply (inv_registered _ H); [|exact Hc].
  intros ->. destruct (inv_object _ H) as [Ho _]. rewrite Ho in Hc.
  destruct Hc. discriminate.
Qed.

Lemma Inv_declared s c :
  Inv s → c ∈ signal_classes s → c ≠ object_ → is_Some (own_namespace s c).
Proof. intros H Hc Hne. apply (inv_registered _ H c Hne), Hc. Qed.

(** The decorator given [object]: the class is put into [signal_classes],
    and the first [setattr] raises.  By then the loop has made the signal
    of its first schema, the base signal if the schema is cascading, and a
    closure, none of which anything refers to. *)
Lemma signals_decorator_object args s :
  Inv s →
  ∃ s', signals_decorator args object_ s = (s', Raise TypeError)
    ∧ Inv s'
    ∧ classes s' = classes s
    ∧ signal_classes s' = {[object_]} ∪ signal_classes s
    ∧ calls s' = calls s
    ∧ (∃ extra, heap s' = heap s ++ extra
                ∧ ∀ sg, sg ∈ extra → receivers sg = [])
    ∧ (∀ nm, base_receivers s' nm = base_receivers s nm)
    ∧ (∀ nm, is_Some (dict_get (base_signals s) nm) →
             is_Some (dict_get (base_signals s') nm)).
Proof.
  intros H. pose proof (Inv_object_known s H) as Hk.
  assert (Hgen : ∀ s', classes s' = classes s →
            signal_classes s' = {[object_]} ∪ signal_classes s →
            calls s' = calls s →
            (∃ extra, heap s' = heap s ++ extra
                      ∧ ∀ sg, sg ∈ extra → receivers sg = []) →
            next_fn s ≤ next_fn s' →
            (∀ nm, dict_get (base_signals s') nm = dict_get (base_signals s) nm
                   ∨ (dict_get (base_signals s) nm = None
                      ∧ dict_get (base_signals s') nm = Some [])) →
            Inv s'
            ∧ classes s' = classes s
            ∧ signal_classes s' = {[object_]} ∪ signal_classes s
            ∧ calls s' = calls s
            ∧ (∃ extra, heap s' = heap s ++ extra
                        ∧ ∀ sg, sg ∈ extra → receivers sg = [])
            ∧ (∀ nm, base_receivers s' nm = base_receivers s nm)
            ∧ (∀ nm, is_Some (dict_get (base_signals s) nm) →
                     is_Some (dict_get (base_signals s') nm))).
  { intros s' Hcl Hsc Hca (extra & Hheap & Hextra) Hnext Hbase.
    assert (Hb2 : ∀ nm, is_Some (dict_get (base_signals s) nm) →
                        is_Some (dict_get (base_signals s') nm)).
    { intros nm Hn. destruct (Hbase nm) as [->|[E _]]; [exact Hn|].
      rewrite E in Hn. destruct Hn. discriminate. }
    split; [|split; [exact Hcl|split; [exact Hsc|split; [exact Hca|split;
              [eauto|split; [|exact Hb2]]]]]].
    - apply (Inv_frame s s' H).
      + intros c Hc. rewrite Hsc, elem_of_union, elem_of_singleton.
        split; [intros [?|?]; [done|assumption] | auto].
      + intros c. unfold own_namespace. rewrite Hcl. reflexivity.
      + intros c k. unfold own_attr. rewrite Hcl. reflexivity.
      + exact Hnext.
      + exact Hb2.
      + intros nm hs Hhs. destruct (Hbase nm) as [E|[_ E]].
        * rewrite E in Hhs. eapply (inv_base_nodup _ H), Hhs.
        * rewrite E in Hhs. injection Hhs as <-. apply NoDup_nil_2.
      + intros ch sg Hsg. exists sg. split; [|reflexivity].
        rewrite Hheap. apply lookup_app_l_Some, Hsg.
      + intros ch sg. rewrite Hheap. intros Hsg.
        apply lookup_app_Some in Hsg as [Hsg|[_ Hsg]].
        * eapply (inv_receivers_nodup _ H), Hsg.
        * rewrite (Hextra sg); [apply NoDup_nil_2|].
          eapply list_elem_of_lookup_2, Hsg.
      + unfold mro. rewrite Hcl. reflexivity.
    - intros nm. unfold base_receivers.
      destruct (Hbase nm) as [->|[-> ->]]; reflexivity. }
  unfold signals_decorator, bind, get.
  rewrite bool_decide_eq_true_2 by exact Hk. simpl.
  set (sr := set_signal_classes (λ sc, {[object_]} ∪ sc) s).
  destruct (args ++ (if hasattr_namespace sr object_
                     then inherited_schemata sr object_ else []))
    as [|a rest].
  - exists sr. split; [reflexivity|]. apply Hgen; try reflexivity.
    + exists []. rewrite app_nil_r. split; [reflexivity|].
      intros sg Hsg. apply elem_of_nil in Hsg. destruct Hsg.
    + intros nm. left. reflexivity.
  - simpl. unfold bind at 1. unfold declare_schema.
    unfold bind at 1. unfold namespace_signal. simpl.
    unfold setattr_cascade.
    destruct (decide (object_ = object_)) as [_|?]; [|done].
    destruct (_cascade (schema_of_arg a)); simpl.
    + eexists. split; [reflexivity|]. apply Hgen; try reflexivity.
      * eexists. split; [reflexivity|].
        intros sg Hsg. apply list_elem_of_singleton in Hsg. subst sg. reflexivity.
      * simpl. lia.
      * intros nm. simpl.
        destruct (dict_mem (base_signals s) (_name (schema_of_arg a))) eqn:Hm;
          [left; reflexivity|].
        apply dict_mem_false in Hm. rewrite dict_get_set.
        destruct (decide (nm = _name (schema_of_arg a))) as [->|];
          [right; auto | left; reflexivity].
    + eexists. split; [reflexivity|]. apply Hgen; try reflexivity.
      * eexists. split; [reflexivity|].
        intros sg Hsg. apply list_elem_of_singleton in Hsg. subst sg. reflexivity.
      * simpl. lia.
      * intros nm. left. reflexivity.
Qed.

Lemma Inv_signals_decorator args cls s :
  Inv s → Inv (exec (signals_decorator args cls) s).
Proof.
  intros H. unfold exec.
  destruct (decide (cls < length (classes s))) as [Hk|Hk].
  - destruct (decide (cls = object_)) as [->|Hno].
    + destruct (signals_decorator_object args s H) as (s' & -> & HI & _).
      exact HI.
    + destruct (signals_decorator_spec args cls s H Hk Hno)
        as (ns & s2 & -> & L & _).
      simpl. eapply Inv_attach; eauto.
  - rewrite signals_decorator_unknown by exact Hk. exact H.
Qed.

Lemma Inv_log_call via h sender kw : preserves Inv (log_call via h sender kw).
Proof.
  intros s H. simpl. apply (Inv_frame s _ H).
  - reflexivity.
  - reflexivity.
  - reflexivity.
  - reflexivity.
  - auto.
  - apply (inv_base_nodup _ H).
  - intros ch sg Hsg. exists sg. split; [exact Hsg | reflexivity].
  - apply (inv_receivers_nodup _ H).
  - reflexivity.
Qed.

Lemma NoDup_connect_handler fn hs : NoDup hs → NoDup (connect_handler fn hs).
Proof.
  intros Hnd. unfold connect_handler. destruct (decide (fn ∈ hs)); [assumption|].
  apply NoDup_app. split; [assumption|]. split.
  - intros x Hx Hx'. apply list_elem_of_singleton in Hx'. congruence.
  - apply NoDup_singleton.
Qed.

Lemma Inv_connect_base_signal nm fn : preserves Inv (connect_base_signal nm fn).
Proof.
  intros s H. simpl. apply (Inv_frame s _ H).
  - reflexivity.
  - reflexivity.
  - reflexivity.
  - reflexivity.
  - intros n Hn. simpl. rewrite dict_get_set. destruct (decide _); eauto.
  - intros n hs. simpl. rewrite dict_get_set. destruct (decide (n = nm)) as [->|].
    + intros E. injection E as <-. apply NoDup_connect_handler.
      destruct (dict_get (base_signals s) nm) eqn:E; simpl.
      * eapply (inv_base_nodup _ H), E.
      * apply NoDup_nil_2.
    + apply (inv_base_nodup _ H).
  - intros ch sg Hsg. exists sg. split; [exact Hsg | reflexivity].
  - apply (inv_receivers_nodup _ H).
  - reflexivity.
Qed.

Lemma Inv_signal_connect_user c h : preserves Inv (signal_connect c (User h)).
Proof.
  intros s H. simpl. apply (Inv_frame s _ H).
  - reflexivity.
  - reflexivity.
  - reflexivity.
  - reflexivity.
  - auto.
  - apply (inv_base_nodup _ H).
  - intros ch sg Hsg. simpl. rewrite list_lookup_alter.
    destruct (decide (c = ch)) as [->|Hne].
    + rewrite Hsg. simpl. eexists. split; [reflexivity|].
      intros x Hx. rewrite elem_of_connect_receiver. split; [|auto].
      intros [->|?]; [destruct Hx | assumption].
    + exists sg. split; [exact Hsg | reflexivity].
  - intros ch sg. simpl. rewrite list_lookup_alter.
    destruct (decide (c = ch)) as [->|Hne].
    + destruct (heap s !! ch) as [sg0|] eqn:E; simpl; [|discriminate].
      intros E'. injection E' as <-. apply NoDup_connect_receiver.
      eapply (inv_receivers_nodup _ H), E.
    + apply (inv_receivers_nodup _ H).
  - reflexivity.
Qed.

Lemma own_namespace_app_class s k c :
  signal_namespace k = None →
  ((classes s ++ [k]) !! c ≫= signal_namespace) = own_namespace s c.
Proof.
  intros Hk. unfold own_namespace.
  destruct (decide (c < length (classes s))) as [Hlt|Hge].
  - rewrite lookup_app_l by exact Hlt. reflexivity.
  - rewrite (lookup_ge_None_2 (classes s)) by lia.
    destruct (decide (c = length (classes s))) as [->|Hne].
    + rewrite list_lookup_middle by reflexivity. simpl. exact Hk.
    + rewrite lookup_ge_None_2; [reflexivity|]. rewrite length_app. simpl. lia.
Qed.

Lemma own_attr_app_class s k c key :
  cascade_attrs k = [] →
  ((classes s ++ [k]) !! c ≫= λ k, dict_get (cascade_attrs k) key)
  = own_attr s c key.
Proof.
  intros Hk. unfold own_attr.
  destruct (decide (c < length (classes s))) as [Hlt|Hge].
  - rewrite lookup_app_l by exact Hlt. reflexivity.
  - rewrite (lookup_ge_None_2 (classes s)) by lia.
    destruct (decide (c = length (classes s))) as [->|Hne].
    + rewrite list_lookup_middle by reflexivity. simpl. rewrite Hk. reflexivity.
    + rewrite lookup_ge_None_2; [reflexivity|]. rewrite length_app. simpl. lia.
Qed.

Lemma Inv_define_class bs : preserves Inv (define_class bs).
Proof.
  intros s H. unfold define_class.
  destruct (bool_decide _); [|exact H].
  destruct (linearize s _) as [anc|]; [|exact H].
  simpl. apply (Inv_frame s _ H).
  - reflexivity.
  - intros c. apply own_namespace_app_class. reflexivity.
  - intros c k. apply own_attr_app_class. reflexivity.
  - reflexivity.
  - auto.
  - apply (inv_base_nodup _ H).
  - intros ch sg Hsg. exists sg. split; [exact Hsg | reflexivity].
  - apply (inv_receivers_nodup _ H).
  - unfold mro. simpl.
    rewrite lookup_app_l by apply (Inv_object_known s H). reflexivity.
Qed.

Lemma Inv_signals args cls : preserves Inv (signals args cls).
Proof. intros s H. apply Inv_signals_decorator, H. Qed.

Lemma Inv_init_class_signals clz : preserves Inv (init_class_signals clz).
Proof.
  unfold init_class_signals. apply preserves_bind; [apply preserves_get|].
  intros []; [apply preserves_ret|].
  apply preserves_bind; [apply Inv_signals | intros; apply preserves_ret].
Qed.

Lemma Inv_Signaler_signals cls : preserves Inv (Signaler_signals cls).
Proof.
  intros s H. unfold Signaler_signals.
  destruct (issubclass _ _ _); [|exact H].
  destruct (getattr_namespace _ _); exact H.
Qed.

Lemma Inv_connect_class_signal clz nm fn :
  preserves Inv (connect_class_signal clz nm fn).
Proof.
  unfold connect_class_signal.
  apply preserves_bind; [apply Inv_init_class_signals|]. intros _.
  apply preserves_bind; [apply Inv_Signaler_signals|]. intros ns.
  destruct (dict_get ns nm); [|apply preserves_raise].
  apply preserves_bind; [apply Inv_signal_connect_user|]. intros _.
  apply preserves_ret.
Qed.

Lemma Inv_connect cs nm fn : preserves Inv (connect cs nm fn).
Proof.
  unfold connect. destruct cs; [apply Inv_connect_base_signal|].
  apply preserves_bind; [|intros; apply preserves_ret].
  apply preserves_for_each. intros x.
  apply preserves_bind; [apply Inv_connect_class_signal | intros; apply preserves_ret].
Qed.

Lemma Inv_connect_and_collect fn nm cs : ∀ found,
  preserves Inv (connect_and_collect fn nm cs found).
Proof.
  induction cs as [|c cs IH]; intros found; simpl.
  - apply preserves_ret.
  - apply preserves_bind; [apply Inv_connect_class_signal|]. intros _.
    apply preserves_bind; [apply preserves_get|]. intros subs. apply IH.
Qed.

Lemma Inv_connect_subclasses_fn depth fn : ∀ cs nm,
  preserves Inv (connect_subclasses_fn depth fn cs nm).
Proof.
  induction depth as [|d IH]; intros cs nm; simpl.
  - apply preserves_raise.
  - destruct cs; [apply preserves_raise|].
    apply preserves_bind; [apply Inv_connect_and_collect|]. intros found.
    apply preserves_bind.
    { apply preserves_for_each. intros x.
      apply preserves_bind; [apply Inv_connect_class_signal | intros; apply preserves_ret]. }
    intros _. apply preserves_bind; [|intros; apply preserves_ret].
    destruct found; [apply preserves_ret|].
    apply preserves_bind; [apply IH | intros; apply preserves_ret].
Qed.

Lemma Inv_connect_subclasses cs nm fn : preserves Inv (connect_subclasses cs nm fn).
Proof. intros s H. apply Inv_connect_subclasses_fn, H. Qed.

Lemma Inv_base_send nm sender kw : preserves Inv (base_send nm sender kw).
Proof.
  unfold base_send. apply preserves_bind; [apply preserves_get|]. intros b.
  destruct (dict_get b nm); [|apply preserves_raise].
  apply preserves_for_each. intros h. apply Inv_log_call.
Qed.

Lemma Inv_call_closure nm sender kw : preserves Inv (call_closure nm sender kw).
Proof.
  unfold call_closure. destruct (bool_decide _);
    [apply preserves_raise | apply Inv_base_send].
Qed.

Lemma Inv_signal_send c sender kw : preserves Inv (signal_send c sender kw).
Proof.
  assert (Hcore : ∀ sd, preserves Inv
            (h <~ get heap ;;
             match h !! c with
             | None => raise AttributeError
             | Some sg => for_each (receivers sg) (λ r, call_receiver c r sd kw)
             end)).
  { intros sd. apply preserves_bind; [apply preserves_get|]. intros h.
    destruct (h !! c); [|apply preserves_raise].
    apply preserves_for_each. intros [h'|f t|f t]; simpl;
      [apply Inv_log_call | apply Inv_call_closure | apply Inv_call_closure]. }
  unfold signal_send. destruct sender as [|x [|y l]];
    [apply Hcore | apply Hcore | apply preserves_raise].
Qed.

Lemma Inv_send_cls_signal cls sg sender cond kw :
  preserves Inv (send_cls_signal cls sg sender cond kw).
Proof.
  unfold send_cls_signal. apply preserves_bind; [apply preserves_get|].
  intros b. destruct (negb b); [apply preserves_raise|].
  destruct (_ || _); [apply preserves_raise|].
  destruct cond; [|apply preserves_ret].
  apply preserves_bind; [apply Inv_Signaler_signals|]. intros t.
  apply preserves_bind.
  { destruct (dict_mem t _); [apply preserves_ret|].
    apply preserves_bind; [apply Inv_init_class_signals|]. intros _.
    apply preserves_bind; [apply Inv_Signaler_signals|]. intros t'.
    destruct (dict_mem t' _); [apply preserves_ret | apply preserves_raise]. }
  intros _. apply preserves_bind; [apply Inv_Signaler_signals|]. intros t''.
  destruct (dict_get t'' _); [apply Inv_signal_send | apply preserves_raise].
Qed.

Lemma Inv_send_signal self sg sender cond kw :
  preserves Inv (send_signal self sg sender cond kw).
Proof.
  unfold send_signal. apply preserves_bind; [apply preserves_get|].
  intros b. destruct (negb b); [apply preserves_raise|].
  destruct (_ || _); [apply preserves_raise|].
  apply Inv_send_cls_signal.
Qed.

Lemma Inv_initial : Inv initial.
Proof.
  constructor.
  - intros c _. split.
    + intros Hc. apply elem_of_empty in Hc. destruct Hc.
    + intros [ns Hns]. unfold own_namespace, initial in Hns. simpl in Hns.
      destruct c as [|[|[|c]]]; discriminate.
  - split; reflexivity.
  - intros c ns Hns. unfold own_namespace, initial in Hns. simpl in Hns.
    destruct c as [|[|[|c]]]; discriminate.
  - intros c ns Hns. unfold own_namespace, initial in Hns. simpl in Hns.
    destruct c as [|[|[|c]]]; discriminate.
  - intros c key r Hr. unfold own_attr, initial in Hr. simpl in Hr.
    destruct c as [|[|[|c]]]; discriminate.
  - intros c1 k1 c2 k2 r Hr. unfold own_attr, initial in Hr. simpl in Hr.
    destruct c1 as [|[|[|c1]]]; discriminate.
  - simpl. eauto.
  - intros nm hs. simpl. destruct (decide _); [|discriminate].
    intros E. injection E as <-. apply NoDup_nil_2.
  - intros ch sg. simpl. discriminate.
Qed.

Lemma Inv_run_op o : preserves Inv (run_op o).
Proof.
  destruct o; simpl.
  - apply preserves_bind; [apply Inv_define_class | intros; apply preserves_ret].
  - apply preserves_bind; [apply Inv_signals | intros; apply preserves_ret].
  - apply preserves_bind; [apply Inv_connect_base_signal | intros; apply preserves_ret].
  - apply preserves_bind; [apply Inv_connect_class_signal | intros; apply preserves_ret].
  - apply preserves_bind; [apply Inv_connect | intros; apply preserves_ret].
  - apply preserves_bind; [apply Inv_connect_subclasses | intros; apply preserves_ret].
  - apply Inv_send_cls_signal.
  - apply Inv_send_signal.
Qed.

(** Every state a program can reach satisfies the invariant. *)
Lemma reachable_Inv s : reachable s → Inv s.
Proof.
  induction 1 as [|s o _ IH]; [apply Inv_initial | apply Inv_run_op, IH].
Qed.

(** ** Attribute lookup along the mro *)

Lemma getattr_namespace_None s c :
  getattr_namespace s c = None ↔ ∀ p, p ∈ mro s c → own_namespace s p = None.
Proof.
  unfold getattr_namespace.
  destruct (list_find _ _) as [[i p]|] eqn:E; simpl.
  - apply list_find_Some in E as (Hi & [ns Hns] & _). rewrite Hns. split; [discriminate|].
    intros H. rewrite H in Hns; [discriminate|].
    eapply list_elem_of_lookup_2, Hi.
  - apply list_find_None in E. split; [|reflexivity]. intros _ p Hp.
    rewrite Forall_forall in E. specialize (E p Hp).
    destruct (own_namespace s p); [|reflexivity]. destruct E. eauto.
Qed.

Lemma getattr_namespace_owner s c ns :
  getattr_namespace s c = Some ns →
  ∃ p, p ∈ mro s c ∧ own_namespace s p = Some ns.
Proof.
  unfold getattr_namespace.
  destruct (list_find _ _) as [[i p]|] eqn:E; simpl; [|discriminate].
  apply list_find_Some in E as (Hi & _ & _). intros Hns.
  exists p. split; [eapply list_elem_of_lookup_2, Hi | exact Hns].
Qed.

Lemma getattr_namespace_own s c ns :
  own_namespace s c = Some ns → getattr_namespace s c = Some ns.
Proof.
  intros Hns. unfold getattr_namespace, mro.
  destruct (classes s !! c) as [k|] eqn:Hk.
  - simpl. rewrite decide_True by (rewrite Hns; eauto). simpl. exact Hns.
  - unfold own_namespace in Hns. rewrite Hk in Hns. discriminate.
Qed.

Lemma issubclass_known s c l : issubclass s c l = true → c < length (classes s).
Proof.
  unfold issubclass, mro. intros H. apply bool_decide_eq_true in H.
  destruct (classes s !! c) eqn:E.
  - eapply lookup_lt_Some, E.
  - apply elem_of_nil in H. destruct H.
Qed.

Lemma mro_head s c : c < length (classes s) → c ∈ mro s c.
Proof.
  intros H. apply lookup_lt_is_Some in H as [k Hk]. unfold mro. rewrite Hk. left.
Qed.

Lemma reachable_run ops : ∀ s, reachable s → reachable (run ops s).
Proof.
  induction ops as [|o ops IH]; intros s H; [exact H|].
  apply IH, reachable_step, H.
Qed.

Lemma getattr_namespace_first s T pre p post ns :
  mro s T = pre ++ p :: post →
  (∀ q, q ∈ pre → own_namespace s q = None) →
  own_namespace s p = Some ns →
  getattr_namespace s T = Some ns.
Proof.
  intros Hm Hpre Hp. unfold getattr_namespace. rewrite Hm. clear Hm.
  induction pre as [|q pre IH]; simpl.
  - rewrite decide_True by (rewrite Hp; eauto). simpl. exact Hp.
  - rewrite decide_False.
    + destruct (list_find _ (pre ++ p :: post)) as [[i x]|] eqn:E; simpl in *.
      * apply IH. intros q' Hq'. apply Hpre. right. exact Hq'.
      * apply IH. intros q' Hq'. apply Hpre. right. exact Hq'.
    + rewrite (Hpre q ltac:(left)). intros [? ?]. discriminate.
Qed.

(** C8, amended: [signals()] never changes the state; it raises the
    namespace error exactly when no class of the mro other than [object] is
    in [signal_classes] ([object] can be there without a table, after a
    declaration of it that failed); and when [p] is the first class of the
    mro that is in [signal_classes], it returns the table of [p]: the own
    table of the class if the class is declared, and the table of the
    nearest declared class of the mro if it is not. *)
Theorem signals_raises_iff_none_declared (s : State) (T : ClassId) :
  reachable s → issubclass s T Signaler = true →
  exec (Signaler_signals T) s = s
  ∧ (outcome (Signaler_signals T) s = Raise (ValueError NamespaceNotDefined)
     ↔ ∀ p, p ∈ mro s T → p ∈ signal_classes s → p = object_)
  ∧ (∀ pre p post,
       mro s T = pre ++ p :: post →
       (∀ q, q ∈ pre → q ∉ signal_classes s) →
       p ∈ signal_classes s → p ≠ object_ →
       ∃ ns, own_namespace s p = Some ns
             ∧ outcome (Signaler_signals T) s = Ok ns).
Proof.
  intros Hr Hsub. apply reachable_Inv in Hr.
  unfold outcome, exec, Signaler_signals. rewrite Hsub.
  split; [|split].
  - destruct (getattr_namespace s T); reflexivity.
  - destruct (getattr_namespace s T) as [ns|] eqn:E; simpl.
    + split; [discriminate|]. intros H.
      apply getattr_namespace_owner in E as (p & Hp & Hns).
      assert (Hin : p ∈ signal_classes s) by (apply Inv_has_table; eauto).
      rewrite (H p Hp Hin) in Hns.
      destruct (inv_object _ Hr) as [Ho _]. congruence.
    + split; [|reflexivity]. intros _ p Hp Hin.
      destruct (decide (p = object_)) as [|Hne]; [assumption|].
      destruct (Inv_declared s p Hr Hin Hne) as [ns Hns].
      rewrite (proj1 (getattr_namespace_None s T) E p Hp) in Hns. discriminate.
  - intros pre p post Hm Hpre Hin Hne.
    destruct (Inv_declared s p Hr Hin Hne) as [ns Hns].
    exists ns. split; [exact Hns|].
    rewrite (getattr_namespace_first s T pre p post ns Hm); [reflexivity| |exact Hns].
    intros q Hq. destruct (own_namespace s q) eqn:E; [|reflexivity].
    destruct (Hpre q Hq). apply Inv_has_table; eauto.
Qed.

Lemma signals_raises_iff_none_declared_witness :
  let s := run prog_undeclared_subclass initial in
  (exec (Signaler_signals 4) s = s
   ∧ (outcome (Signaler_signals 4) s = Raise (ValueError NamespaceNotDefined)
      ↔ ∀ p, p ∈ mro s 4 → p ∈ signal_classes s → p = object_)
   ∧ (∀ pre p post,
        mro s 4 = pre ++ p :: post →
        (∀ q, q ∈ pre → q ∉ signal_classes s) →
        p ∈ signal_classes s → p ≠ object_ →
        ∃ ns, own_namespace s p = Some ns
              ∧ outcome (Signaler_signals 4) s = Ok ns))
  ∧ ∃ ns, own_namespace s 3 = Some ns
          ∧ outcome (Signaler_signals 4) s = Ok ns.
Proof.
  intros s.
  assert (Hr : reachable s) by apply reachable_run, reachable_initial.
  assert (Hsub : issubclass s 4 Signaler = true) by (vm_compute; reflexivity).
  assert (Hm : mro s 4 = [4] ++ 3 :: [2; 1; 0]) by (vm_compute; reflexivity).
  assert (H4 : bool_decide (4 ∈ signal_classes s) = false)
    by (vm_compute; reflexivity).
  assert (H3 : bool_decide (3 ∈ signal_classes s) = true)
    by (vm_compute; reflexivity).
  pose proof (signals_raises_iff_none_declared s 4 Hr Hsub) as Hthm.
  split; [exact Hthm|].
  destruct Hthm as (_ & _ & Hshow).
  apply (Hshow [4] 3 [2; 1; 0] Hm).
  - intros q Hq. apply list_elem_of_singleton in Hq. subst q.
    apply (bool_decide_eq_false_1 _ H4).
  - apply (bool_decide_eq_true_1 _ H3).
  - discriminate.
Defined.

(** ** The names a declaration inherits *)

Lemma merge_fold_keys s limit l k : ∀ acc,
  k ∈ dict_keys (foldl (merge_step s limit) acc l)
  ↔ k ∈ dict_keys acc
    ∨ ∃ p ns, p ∈ l ∧ issubclass s p limit = true
              ∧ getattr_namespace s p = Some ns ∧ k ∈ dict_keys ns.
Proof.
  induction l as [|q l IH]; intros acc; simpl.
  - split; [auto|]. intros [?|(p & ns & Hp & _)]; [assumption|].
    apply elem_of_nil in Hp. destruct Hp.
  - rewrite IH. unfold merge_step at 1.
    destruct (issubclass s q limit) eqn:Hs; simpl.
    + destruct (hasattr_namespace s q) eqn:Hh.
      * apply hasattr_namespace_true in Hh as [nsq Hq]. rewrite Hq. simpl.
        rewrite dict_keys_merge. split.
        -- intros [[?|?]|(p & ns & Hp & ?)]; [auto| |].
           ++ right. exists q, nsq. split; [left|auto].
           ++ right. exists p, ns. split; [right; exact Hp|assumption].
        -- intros [?|(p & ns & Hp & Hsp & Hg & Hk)]; [auto|].
           apply elem_of_cons in Hp as [->|Hp].
           ++ left. right. congruence.
           ++ right. eauto 10.
      * split.
        -- intros [?|(p & ns & Hp & ?)]; [auto|].
           right. exists p, ns. split; [right; exact Hp|assumption].
        -- intros [?|(p & ns & Hp & Hsp & Hg & Hk)]; [auto|].
           apply elem_of_cons in Hp as [->|Hp]; [|right; eauto 10].
           assert (hasattr_namespace s q = true)
             by (apply hasattr_namespace_true; eauto). congruence.
    + split.
      * intros [?|(p & ns & Hp & ?)]; [auto|].
        right. exists p, ns. split; [right; exact Hp|assumption].
      * intros [?|(p & ns & Hp & Hsp & Hg & Hk)]; [auto|].
        apply elem_of_cons in Hp as [->|Hp]; [congruence|right; eauto 10].
Qed.

Lemma merge_keys s clz limit k :
  k ∈ dict_keys (_merge_dict_class_vars s clz limit)
  ↔ ∃ p ns, p ∈ mro s clz ∧ issubclass s p limit = true
            ∧ getattr_namespace s p = Some ns ∧ k ∈ dict_keys ns.
Proof.
  rewrite merge_unfold, merge_fold_keys. split; [|auto].
  intros [H|H]; [|exact H]. apply elem_of_nil in H. destruct H.
Qed.

Lemma inherited_schemata_names s cls :
  schema_names (inherited_schemata s cls)
  = dict_keys (_merge_dict_class_vars s cls Signaler).
Proof.
  unfold schema_names, inherited_schemata, dict_keys.
  rewrite map_map. apply map_ext. intros [k v]. reflexivity.
Qed.

(** A declared class inherits, among others, its own names. *)
Lemma decorator_schemata_own s args cls ns n :
  issubclass s cls Signaler = true →
  own_namespace s cls = Some ns → is_Some (dict_get ns n) →
  n ∈ schema_names (decorator_schemata s args cls).
Proof.
  intros Hsub Hns Hn. unfold decorator_schemata, schema_names.
  rewrite map_app, elem_of_app. right.
  pose proof (getattr_namespace_own _ _ _ Hns) as Hg.
  assert (Hh : hasattr_namespace s cls = true)
    by (apply hasattr_namespace_true; eauto).
  rewrite Hh. fold (schema_names (inherited_schemata s cls)).
  rewrite inherited_schemata_names. apply merge_keys.
  exists cls, ns. split; [|split; [exact Hsub|split; [exact Hg|]]].
  - apply mro_head. eapply issubclass_known, Hsub.
  - apply dict_keys_is_Some, Hn.
Qed.

(** ** What an emission logs *)

Lemma add_calls_nil s : add_calls [] s = s.
Proof. destruct s. unfold add_calls, set_calls. simpl. rewrite app_nil_r. reflexivity. Qed.

Lemma add_calls_add_calls a b s :
  add_calls b (add_calls a s) = add_calls (a ++ b) s.
Proof. unfold add_calls, set_calls. simpl. rewrite app_assoc. reflexivity. Qed.

Lemma for_each_log_call via sender kw hs : ∀ s,
  for_each hs (λ h, log_call via h sender kw) s
  = (add_calls (map (λ h, {| call_via := via; call_fn := h;
                             call_sender := sender; call_kwargs := kw |}) hs) s,
     Ok ()).
Proof.
  induction hs as [|h hs IH]; intros s; simpl.
  - rewrite add_calls_nil. reflexivity.
  - unfold bind. simpl. rewrite IH.
    change (set_calls _ s) with (add_calls [ {| call_via := via; call_fn := h;
              call_sender := sender; call_kwargs := kw |} ] s).
    rewrite add_calls_add_calls. reflexivity.
Qed.

Lemma base_send_run t sender kw s :
  is_Some (dict_get (base_signals s) t) →
  base_send t sender kw s = (add_calls (base_calls s t sender kw) s, Ok ()).
Proof.
  intros [hs Hhs]. unfold base_send, bind, get, base_calls, base_receivers.
  rewrite Hhs. simpl. apply for_each_log_call.
Qed.

Lemma call_closure_run t sender kw s :
  "sender" ∉ dict_keys kw → is_Some (dict_get (base_signals s) t) →
  call_closure t sender kw s = (add_calls (base_calls s t sender kw) s, Ok ()).
Proof.
  intros Hs Ht. unfold call_closure.
  rewrite bool_decide_eq_false_2 by exact Hs. apply base_send_run, Ht.
Qed.

Lemma call_closure_refused t sender kw s :
  "sender" ∈ dict_keys kw → call_closure t sender kw s = (s, Raise TypeError).
Proof.
  intros Hs. unfold call_closure.
  rewrite bool_decide_eq_true_2 by exact Hs. reflexivity.
Qed.

Lemma call_receiver_run c r sender kw s :
  "sender" ∉ dict_keys kw → target_known s r →
  call_receiver c r sender kw s
  = (add_calls (receiver_calls s c sender kw r) s, Ok ()).
Proof.
  intros Hs Hk. destruct r as [h|f t|f t]; simpl.
  - reflexivity.
  - apply call_closure_run; [exact Hs|]. apply Hk. reflexivity.
  - apply call_closure_run; [exact Hs|]. apply Hk. reflexivity.
Qed.

Lemma for_each_call_receiver c sender kw l : ∀ s,
  "sender" ∉ dict_keys kw →
  (∀ r, r ∈ l → target_known s r) →
  for_each l (λ r, call_receiver c r sender kw) s
  = (add_calls (concat (map (receiver_calls s c sender kw) l)) s, Ok ()).
Proof.
  induction l as [|r l IH]; intros s Hs Hk; simpl.
  - rewrite add_calls_nil. reflexivity.
  - unfold bind. rewrite call_receiver_run; [|exact Hs|apply Hk; left].
    rewrite IH; [|exact Hs|intros r' Hr'; apply (Hk r'); right; exact Hr'].
    rewrite add_calls_add_calls. reflexivity.
Qed.

(** With a keyword named [sender] the handlers of users connected before
    the first closure are called, and the closure raises. *)
Lemma for_each_call_receiver_refused c sender kw l : ∀ s,
  "sender" ∈ dict_keys kw →
  ∃ d res,
    for_each l (λ r, call_receiver c r sender kw) s = (add_calls d s, res)
    ∧ ∀ x, x ∈ d → ∃ r, r ∈ l ∧ x ∈ receiver_calls s c sender kw r.
Proof.
  induction l as [|r l IH]; intros s Hs; simpl.
  - exists [], (Ok ()). rewrite add_calls_nil. split; [reflexivity|].
    intros x Hx. apply elem_of_nil in Hx. destruct Hx.
  - unfold bind. destruct r as [h|f t|f t]; simpl.
    + destruct (IH (set_calls
                      (λ l0, l0 ++ [ {| call_via := ViaClassSignal c; call_fn := h;
                                        call_sender := sender; call_kwargs := kw |} ]) s)
                   Hs) as (d & res & E & Hd).
      rewrite E.
      exists ({| call_via := ViaClassSignal c; call_fn := h;
                 call_sender := sender; call_kwargs := kw |} :: d), res.
      split.
      * change (set_calls _ s) with (add_calls [ {| call_via := ViaClassSignal c;
                  call_fn := h; call_sender := sender; call_kwargs := kw |} ] s).
        rewrite add_calls_add_calls. reflexivity.
      * intros x Hx. apply elem_of_cons in Hx as [->|Hx].
        -- exists (User h). split; [left|]. simpl. left.
        -- destruct (Hd x Hx) as (r & Hr & Hxr). exists r. split; [right; exact Hr|].
           exact Hxr.
    + rewrite call_closure_refused by exact Hs.
      exists [], (Raise TypeError). rewrite add_calls_nil. split; [reflexivity|].
      intros x Hx. apply elem_of_nil in Hx. destruct Hx.
    + rewrite call_closure_refused by exact Hs.
      exists [], (Raise TypeError). rewrite add_calls_nil. split; [reflexivity|].
      intros x Hx. apply elem_of_nil in Hx. destruct Hx.
Qed.

Lemma sender_key_signal sig (kw : dict Value) :
  "sender" ∈ dict_keys (("signal", VSchema sig) :: kw) ↔ "sender" ∈ dict_keys kw.
Proof.
  unfold dict_keys. simpl. rewrite elem_of_cons. split; [|auto].
  intros [?|?]; [discriminate|assumption].
Qed.

Lemma new_calls_add_calls {A} (m : M A) s d :
  exec m s = add_calls d s → new_calls m s = d.
Proof.
  intros E. unfold new_calls. rewrite E. simpl. apply drop_app_length.
Qed.

Lemma has_key_false kw k : k ∉ dict_keys kw → has_key kw k = false.
Proof. intros H. unfold has_key. apply bool_decide_eq_false_2, H. Qed.

(** The closures connected to a signal of a table forward to base signals
    that exist. *)
Lemma table_targets_known s p ns n c sg r :
  Inv s → own_namespace s p = Some ns → dict_get ns n = Some c →
  heap s !! c = Some sg → r ∈ receivers sg → target_known s r.
Proof.
  intros H Hns Hn Hsg Hr t Ht.
  destruct (inv_tables _ H p ns Hns n c Hn) as (sg' & Hsg' & Hmost & _).
  assert (sg' = sg) as -> by congruence.
  destruct r as [h|f t'|f t']; [discriminate| |]; injection Ht as ->.
  - destruct (Hmost _ Hr I) as [(_ & [f' E] & Hb)|(_ & [f' E])]; [|discriminate].
    injection E as _ <-. exact Hb.
  - destruct (Hmost _ Hr I) as [(_ & [f' E] & Hb)|(_ & [f' E])]; [discriminate|].
    injection E as _ ->. apply (inv_base_event _ H).
Qed.

(** An emission of a name the class shows: every receiver of the signal is
    called once, in the order of the list, and nothing else changes. *)
Lemma send_cls_signal_run s T sig sender kw ns c sg :
  Inv s → issubclass s T Signaler = true → payload_ok kw →
  "sender" ∉ dict_keys kw →
  length sender ≤ 1 →
  getattr_namespace s T = Some ns → dict_get ns (_name sig) = Some c →
  heap s !! c = Some sg →
  send_cls_signal T sig sender true kw s
  = (add_calls
       (concat (map (receiver_calls s c (effective_sender T sender)
                       (("signal", VSchema sig) :: kw))
                    (receivers sg))) s,
     Ok ()).
Proof.
  intros H Hsub (Hk1 & Hk2 & Hk3) Hks Hlen Hns Hn Hsg.
  unfold send_cls_signal, bind, get. rewrite Hsub. simpl.
  rewrite !has_key_false by assumption. simpl.
  unfold Signaler_signals. rewrite Hsub, Hns.
  assert (Hm : dict_mem ns (_name sig) = true) by (apply dict_mem_true; eauto).
  rewrite Hm. simpl. rewrite Hsub, Hns, Hn.
  destruct (getattr_namespace_owner _ _ _ Hns) as (p & _ & Hp).
  assert (Hrun : ∀ sd, (h <~ get heap ;;
             match h !! c with
             | None => raise AttributeError
             | Some sg => for_each (receivers sg)
                            (λ r, call_receiver c r sd (("signal", VSchema sig) :: kw))
             end) s
            = (add_calls (concat (map (receiver_calls s c sd
                         (("signal", VSchema sig) :: kw)) (receivers sg))) s, Ok ())).
  { intros sd. unfold bind, get. rewrite Hsg. apply for_each_call_receiver.
    - rewrite sender_key_signal. exact Hks.
    - intros r Hr. eapply table_targets_known; eauto. }
  unfold signal_send, effective_sender.
  destruct sender as [|x [|y l]]; [apply Hrun | apply Hrun | simpl in Hlen; lia].
Qed.

(** ** Counting deliveries *)

Lemma deliveries_app via h l1 l2 :
  deliveries via h (l1 ++ l2) = deliveries via h l1 ++ deliveries via h l2.
Proof. apply filter_app. Qed.







Lemma base_receivers_NoDup s t : Inv s → NoDup (base_receivers s t).
Proof.
  intros H. unfold base_receivers.
  destruct (dict_get (base_signals s) t) eqn:E; simpl.
  - eapply (inv_base_nodup _ H), E.
  - apply NoDup_nil_2.
Qed.

Lemma class_receivers_Some s T n rs :
  class_receivers s T n = Some rs →
  ∃ ns c sg, getattr_namespace s T = Some ns ∧ dict_get ns n = Some c
             ∧ heap s !! c = Some sg ∧ rs = receivers sg.
Proof.
  unfold class_receivers.
  destruct (getattr_namespace s T) as [ns|]; simpl; [|discriminate].
  destruct (dict_get ns n) as [c|] eqn:Hc; simpl; [|discriminate].
  destruct (heap s !! c) as [sg|] eqn:Hsg; simpl; [|discriminate].
  intros E. injection E as <-. exists ns, c, sg. auto.
Qed.



(** ** The cascade closure of a name through the loop *)

Lemma declare_schema_state_phase cls nm casc ch s1 :
  declare_schema_state cls nm casc ch s1
  = install_state cls (all_cascade_key nm)
      (AllCascadePadre (next_fn (cascade_phase cls nm casc ch s1))
         EVENT_TRIGGERED)
      ch (cascade_phase cls nm casc ch s1).
Proof. reflexivity. Qed.

Lemma LoopInv_cascade_phase s0 cls ns nm casc ch s1 :
  LoopInv s0 cls ns (Some nm) s1 → dict_get ns nm = Some ch →
  LoopInv s0 cls ns (Some nm) (cascade_phase cls nm casc ch s1).
Proof.
  intros H1 Hch. unfold cascade_phase. destruct casc; [|exact H1].
  destruct (LoopInv_base_signal_create s0 cls ns (Some nm) s1 nm H1)
    as (Hb & Hsome & _).
  cbv zeta.
  apply (LoopInv_install s0 cls ns (Some nm) (Some nm) _ nm (cascade_key nm) ch
           (CascadePadre (next_fn (exec (base_signal_create nm) s1)) nm)
           Hb Hch I eq_refl).
  left. eauto.
Qed.

Lemma cascade_edge_install_other s0 cls ns sk s n key r ch :
  LoopInv s0 cls ns sk s → cascade_edge s cls ns n → key ≠ cascade_key n →
  cascade_edge (install_state cls key r ch s) cls ns n.
Proof.
  intros L (c & sg & f & Hn & Hsg & Ha & Hin) Hne.
  destruct (heap_install_fwd cls key r ch s c sg Hsg) as (sg' & Hsg' & _ & Hmem & _).
  exists c, sg', f. split; [exact Hn|split; [exact Hsg'|split]].
  - rewrite own_attr_install by apply (li_known _ _ _ _ _ L).
    rewrite decide_False; [exact Ha|]. intros [_ ?]. congruence.
  - apply Hmem. left. split; [exact Hin|]. intros Hold.
    destruct (li_attr_inj _ _ _ _ _ L _ _ _ _ _ Ha Hold) as [_ ?]. congruence.
Qed.

Lemma cascade_edge_install_new s0 cls ns sk s n f ch :
  LoopInv s0 cls ns sk s → dict_get ns n = Some ch →
  cascade_edge (install_state cls (cascade_key n) (CascadePadre f n) ch s) cls ns n.
Proof.
  intros L Hn. destruct (li_local _ _ _ _ _ L n ch Hn) as (sg & Hsg & _).
  destruct (heap_install_fwd cls (cascade_key n) (CascadePadre f n) ch s ch sg Hsg)
    as (sg' & Hsg' & _ & Hmem & _).
  exists ch, sg', f. split; [exact Hn|split; [exact Hsg'|split]].
  - rewrite own_attr_install by apply (li_known _ _ _ _ _ L).
    rewrite decide_True by done. reflexivity.
  - apply Hmem. right. auto.
Qed.

Lemma cascade_edge_namespace_signal s0 cls ns s nm n s1 ns' ch :
  LoopInv s0 cls ns None s →
  namespace_signal ns nm s = (s1, Ok (ns', ch)) →
  cascade_edge s cls ns n → cascade_edge s1 cls ns' n.
Proof.
  intros L Hns (c & sg & f & Hn & Hsg & Ha & Hin).
  unfold namespace_signal in Hns.
  destruct (dict_get ns nm) as [c0|] eqn:E.
  - injection Hns as <- <- <-. exists c, sg, f. auto.
  - injection Hns as <- <- <-. exists c, sg, f.
    split; [|split; [|split; [exact Ha | exact Hin]]].
    + rewrite dict_get_set_ne; [exact Hn|]. congruence.
    + simpl. apply lookup_app_l_Some, Hsg.
Qed.

Lemma cascade_edge_declare_schema s0 cls ns s a n :
  LoopInv s0 cls ns None s →
  n ≠ generic_prefixed (_name (schema_of_arg a)) →
  cascade_edge s cls ns n
  ∨ (_name (schema_of_arg a) = n ∧ _cascade (schema_of_arg a) = true) →
  ∃ ns' s',
    declare_schema cls ns a s = (s', Ok ns')
    ∧ LoopInv s0 cls ns' None s'
    ∧ cascade_edge s' cls ns' n.
Proof.
  intros L Hgp Hor.
  destruct (LoopInv_declare_schema s0 cls ns s a L)
    as (ns' & ch & s1 & Hns & L1 & Hch & _ & Heq & L').
  eexists ns', _. split; [exact Heq|]. split; [exact L'|].
  set (nm := _name (schema_of_arg a)) in *.
  set (casc := _cascade (schema_of_arg a)) in *.
  rewrite declare_schema_state_phase.
  pose proof (LoopInv_cascade_phase s0 cls ns' nm casc ch s1 L1 Hch) as L2.
  apply (cascade_edge_install_other s0 cls ns' (Some nm) _ n); [exact L2| |].
  - (* the edge after the cascade phase *)
    destruct (decide (nm = n ∧ casc = true)) as [[<- Hc]|Hno].
    + unfold cascade_phase. rewrite Hc. cbv zeta.
      destruct (LoopInv_base_signal_create s0 cls ns' (Some nm) s1 nm L1) as (Lb & _).
      eapply cascade_edge_install_new; eauto.
    + destruct Hor as [He|[? ?]]; [|tauto].
      pose proof (cascade_edge_namespace_signal _ _ _ _ _ n _ _ _ L Hns He) as He1.
      unfold cascade_phase. destruct casc; [|exact He1].
      destruct (LoopInv_base_signal_create s0 cls ns' (Some nm) s1 nm L1) as (Lb & _).
      cbv zeta. apply (cascade_edge_install_other s0 cls ns' (Some nm) _ n); [exact Lb| |].
      * exact He1.
      * intros E. apply cascade_key_inj in E. tauto.
  - intros E. symmetry in E. apply cascade_all_key in E. done.
Qed.

Lemma cascade_edge_declare_all s0 cls l n : ∀ ns s,
  LoopInv s0 cls ns None s →
  (∀ m, m ∈ schema_names l → n ≠ generic_prefixed m) →
  cascade_edge s cls ns n
  ∨ (∃ a, a ∈ l ∧ _name (schema_of_arg a) = n
          ∧ _cascade (schema_of_arg a) = true) →
  ∃ ns' s',
    declare_all cls ns l s = (s', Ok ns')
    ∧ LoopInv s0 cls ns' None s'
    ∧ cascade_edge s' cls ns' n.
Proof.
  induction l as [|a l IH]; intros ns s L Hgp Hor.
  - exists ns, s. split; [reflexivity|]. split; [exact L|].
    destruct Hor as [?|(a & Ha & _)]; [assumption|].
    apply elem_of_nil in Ha. destruct Ha.
  - destruct (decide (_name (schema_of_arg a) = n
                      ∧ _cascade (schema_of_arg a) = true)) as [Hhere|Hnot].
    + destruct (cascade_edge_declare_schema s0 cls ns s a n L) as (ns1 & s1 & Heq & L1 & He1).
      { apply Hgp. left. }
      { right. exact Hhere. }
      destruct (IH ns1 s1 L1) as (ns' & s' & Hall & L' & He').
      { intros m Hm. apply Hgp. right. exact Hm. }
      { left. exact He1. }
      exists ns', s'. split; [|auto]. simpl. unfold bind. rewrite Heq. exact Hall.
    + destruct Hor as [He|(b & Hb & Hbn & Hbc)].
      * destruct (cascade_edge_declare_schema s0 cls ns s a n L) as (ns1 & s1 & Heq & L1 & He1).
        { apply Hgp. left. }
        { left. exact He. }
        destruct (IH ns1 s1 L1) as (ns' & s' & Hall & L' & He').
        { intros m Hm. apply Hgp. right. exact Hm. }
        { left. exact He1. }
        exists ns', s'. split; [|auto]. simpl. unfold bind. rewrite Heq. exact Hall.
      * apply elem_of_cons in Hb as [->|Hb]; [tauto|].
        destruct (LoopInv_declare_schema s0 cls ns s a L)
          as (ns1 & ch & s1 & _ & _ & _ & _ & Heq & L1).
        destruct (IH ns1 _ L1) as (ns' & s' & Hall & L' & He').
        { intros m Hm. apply Hgp. right. exact Hm. }
        { right. eauto. }
        exists ns', s'. split; [|auto]. simpl. unfold bind. rewrite Heq. exact Hall.
Qed.

Lemma signals_cascade_edge s A args n :
  Inv s → A < length (classes s) → A ≠ object_ →
  (∃ a, a ∈ args ∧ _name (schema_of_arg a) = n
        ∧ _cascade (schema_of_arg a) = true) →
  (∀ m, m ∈ schema_names (decorator_schemata s args A) → n ≠ generic_prefixed m) →
  ∃ ns s2,
    signals args A s = (attach A ns s2, Ok A)
    ∧ LoopInv (register A s) A ns None s2
    ∧ cascade_edge s2 A ns n.
Proof.
  intros H Hk Hno (a & Ha & Han & Hac) Hgp.
  destruct (cascade_edge_declare_all (register A s) A
              (decorator_schemata s args A) n [] (register A s)
              (LoopInv_start s A H Hk Hno) Hgp) as (ns & s2 & Hall & L & He).
  { right. exists a. split; [|auto]. unfold decorator_schemata.
    apply elem_of_app. left. exact Ha. }
  exists ns, s2. split; [|auto].
  unfold signals. rewrite signals_decorator_eq by assumption. rewrite Hall.
  reflexivity.
Qed.

Lemma elem_of_connect_handler fn hs : fn ∈ connect_handler fn hs.
Proof.
  unfold connect_handler. destruct (decide (fn ∈ hs)); [assumption|].
  apply elem_of_app. right. left.
Qed.

Lemma base_receivers_connect nm fn s :
  base_receivers (exec (connect_base_signal nm fn) s) nm
  = connect_handler fn (base_receivers s nm).
Proof.
  unfold base_receivers, exec, connect_base_signal, bind, modify. simpl.
  rewrite dict_get_set_eq. reflexivity.
Qed.



(** ** What lazy declaration and connection leave alone *)

Lemma Frame_refl s : Frame s s.
Proof. constructor; eauto. Qed.

Lemma Frame_trans s1 s2 s3 : Frame s1 s2 → Frame s2 s3 → Frame s1 s3.
Proof.
  intros F G. constructor.
  - rewrite (f_length _ _ G). apply (f_length _ _ F).
  - intros c. rewrite (f_mro _ _ G). apply (f_mro _ _ F).
  - intros c. rewrite (f_bases _ _ G). apply (f_bases _ _ F).
  - intros c Hc. apply (f_registered _ _ G), (f_registered _ _ F), Hc.
  - intros c ns Hns. apply (f_tables _ _ G), (f_tables _ _ F), Hns.
  - intros ch sg h Hsg Hin.
    destruct (f_users_kept _ _ F _ _ _ Hsg Hin) as (sg' & Hsg' & Hin').
    apply (f_users_kept _ _ G _ _ _ Hsg' Hin').
Qed.

Lemma Quiet_refl s : Quiet s s.
Proof. constructor; eauto. Qed.

Lemma Quiet_trans s1 s2 s3 : Quiet s1 s2 → Quiet s2 s3 → Quiet s1 s3.
Proof.
  intros F G. constructor.
  - rewrite (q_calls _ _ G). apply (q_calls _ _ F).
  - intros ch sg h Hsg Hin.
    destruct (q_users _ _ G _ _ _ Hsg Hin) as (sg' & Hsg' & Hin').
    apply (q_users _ _ F _ _ _ Hsg' Hin').
  - intros nm. rewrite (q_base _ _ G). apply (q_base _ _ F).
Qed.

Lemma Frame_issubclass s s' c l : Frame s s' → issubclass s' c l = issubclass s c l.
Proof. intros F. unfold issubclass. rewrite (f_mro _ _ F). reflexivity. Qed.

Lemma Frame_subclasses s s' c : Frame s s' → subclasses s' c = subclasses s c.
Proof.
  intros F. unfold subclasses. rewrite (f_length _ _ F).
  apply list_filter_iff. intros d. rewrite (f_bases _ _ F). reflexivity.
Qed.

(** The first declaration of a class. *)
Lemma first_declaration args T s :
  Inv s → T < length (classes s) → T ≠ object_ → T ∉ signal_classes s →
  ∃ s' ns,
    signals args T s = (s', Ok T)
    ∧ Inv s' ∧ Frame s s' ∧ Quiet s s'
    ∧ own_namespace s' T = Some ns
    ∧ T ∈ signal_classes s'
    ∧ (∀ c, c ≠ T → own_namespace s' c = own_namespace s c)
    ∧ (∀ k, is_Some (dict_get ns k)
            ↔ k ∈ schema_names (decorator_schemata s args T)).
Proof.
  intros H Hk Hno Hni.
  destruct (signals_decorator_spec args T s H Hk Hno)
    as (ns & s2 & Heq & L & Hkeys).
  exists (attach T ns s2), ns.
  assert (Hown : ∀ c, own_namespace (attach T ns s2) c
                      = if decide (c = T) then Some ns else own_namespace s c).
  { intros c. rewrite own_namespace_attach by apply (li_known _ _ _ _ _ L).
    destruct (decide (c = T)); [reflexivity|].
    destruct (li_classes _ _ _ _ _ L) as (_ & Ho & _). apply Ho. }
  assert (HT : own_namespace s T = None).
  { destruct (own_namespace s T) eqn:E; [|reflexivity].
    destruct Hni. apply Inv_has_table; eauto. }
  destruct (li_classes _ _ _ _ _ L) as (Hlen & _ & Hmro & Hbases).
  split; [exact Heq|]. split; [eapply Inv_attach; eauto|].
  split; [|split; [|split; [|split; [|split]]]].
  - constructor.
    + unfold attach. simpl. rewrite length_alter. exact Hlen.
    + intros c. rewrite mro_attach. apply Hmro.
    + intros c. rewrite bases_of_attach. apply Hbases.
    + intros c Hc. change (signal_classes (attach T ns s2)) with (signal_classes s2).
      rewrite (li_registered _ _ _ _ _ L). simpl. apply elem_of_union. right. exact Hc.
    + intros c ns0 Hns0. rewrite Hown. destruct (decide (c = T)) as [->|]; [congruence|exact Hns0].
    + intros ch sg h Hsg Hin. apply (li_user_kept _ _ _ _ _ L ch sg h Hsg Hin).
  - constructor.
    + apply (li_calls _ _ _ _ _ L).
    + intros ch sg h Hsg Hin. apply (li_old_user _ _ _ _ _ L ch sg h Hsg Hin).
    + apply (li_base_kept _ _ _ _ _ L).
  - rewrite Hown, decide_True by reflexivity. reflexivity.
  - change (signal_classes (attach T ns s2)) with (signal_classes s2).
    rewrite (li_registered _ _ _ _ _ L). simpl. apply elem_of_union. left.
    apply elem_of_singleton. reflexivity.
  - intros c Hne. rewrite Hown, decide_False by exact Hne. reflexivity.
  - exact Hkeys.
Qed.

(** [init_class_signals] on a class: it never raises, and afterwards the
    class is declared. *)
Lemma init_class_signals_spec T s :
  Inv s → T < length (classes s) → T ≠ object_ →
  ∃ s' ns,
    init_class_signals T s = (s', Ok ())
    ∧ Inv s' ∧ Frame s s' ∧ Quiet s s'
    ∧ own_namespace s' T = Some ns
    ∧ T ∈ signal_classes s'
    ∧ (T ∈ signal_classes s → s' = s)
    ∧ (T ∉ signal_classes s →
       ∀ k, is_Some (dict_get ns k)
            ↔ k ∈ schema_names (decorator_schemata s [] T)).
Proof.
  intros H Hk Hno. unfold init_class_signals, bind, get.
  destruct (decide (T ∈ signal_classes s)) as [Hin|Hni].
  - rewrite bool_decide_eq_true_2 by exact Hin.
    destruct (Inv_declared s T H Hin Hno) as [ns Hns].
    exists s, ns. split; [reflexivity|].
    split; [exact H|]. split; [apply Frame_refl|]. split; [apply Quiet_refl|].
    split; [exact Hns|]. split; [exact Hin|]. split; [reflexivity|]. intros ?. done.
  - rewrite bool_decide_eq_false_2 by exact Hni.
    destruct (first_declaration [] T s H Hk Hno Hni)
      as (s' & ns & Heq & HI & F & Q & Hns & Hin & _ & Hkeys).
    exists s', ns. rewrite Heq. simpl. split; [reflexivity|].
    split; [exact HI|]. split; [exact F|]. split; [exact Q|].
    split; [exact Hns|]. split; [exact Hin|]. split; [intros ?; done|].
    intros _. exact Hkeys.
Qed.

Lemma connect_class_signal_spec T n h s :
  Inv s → issubclass s T Signaler = true →
  ∃ s1 ns,
    init_class_signals T s = (s1, Ok ())
    ∧ Inv s1 ∧ Frame s s1 ∧ Quiet s s1
    ∧ own_namespace s1 T = Some ns
    ∧ T ∈ signal_classes s1
    ∧ connect_class_signal T n h s
      = match dict_get ns n with
        | None => (s1, Raise (ValueError SignalNotDefinedOnClass))
        | Some c => (exec (signal_connect c (User h)) s1, Ok h)
        end.
Proof.
  intros H Hsub. pose proof (issubclass_known _ _ _ Hsub) as Hk.
  destruct (init_class_signals_spec T s H Hk (Inv_not_object _ _ H Hsub))
    as (s1 & ns & Heq & HI & F & Q & Hns & Hin & _).
  exists s1, ns. repeat (split; [assumption|]).
  unfold connect_class_signal, bind. rewrite Heq.
  unfold Signaler_signals. rewrite (Frame_issubclass _ _ _ _ F), Hsub.
  rewrite (getattr_namespace_own _ _ _ Hns).
  destruct (dict_get ns n); reflexivity.
Qed.

Lemma sends_only_bind {A B} (m : M A) (k : A → M B) :
  sends_only m → (∀ a, sends_only (k a)) → sends_only (bind m k).
Proof.
  intros Hm Hk s. unfold bind. destruct (Hm s) as [Hc He].
  destruct (m s) as [s' [a|e]]; simpl in *.
  - destruct (Hk a s') as [Hc' He']. split; [congruence | exact He'].
  - split; [exact Hc|]. intros msg E. apply (He msg). congruence.
Qed.

Lemma sends_only_for_each {A} (l : list A) (body : A → M unit) :
  (∀ x, sends_only (body x)) → sends_only (for_each l body).
Proof.
  intros Hb. induction l as [|x l IH]; simpl.
  - intros s. split; [reflexivity | discriminate].
  - apply sends_only_bind; [apply Hb | intros _; exact IH].
Qed.

Lemma sends_only_log_call via h sender kw : sends_only (log_call via h sender kw).
Proof. intros s. split; [reflexivity | discriminate]. Qed.

Lemma sends_only_base_send nm sender kw : sends_only (base_send nm sender kw).
Proof.
  unfold base_send. apply sends_only_bind.
  - intros s. split; [reflexivity | discriminate].
  - intros b. destruct (dict_get b nm).
    + apply sends_only_for_each. intros h. apply sends_only_log_call.
    + intros s. split; [reflexivity | discriminate].
Qed.

Lemma sends_only_call_closure nm sender kw :
  sends_only (call_closure nm sender kw).
Proof.
  unfold call_closure. destruct (bool_decide _); [|apply sends_only_base_send].
  intros s. split; [reflexivity | discriminate].
Qed.

Lemma sends_only_signal_send c sender kw : sends_only (signal_send c sender kw).
Proof.
  assert (Hcore : ∀ sd, sends_only
            (h <~ get heap ;;
             match h !! c with
             | None => raise AttributeError
             | Some sg => for_each (receivers sg) (λ r, call_receiver c r sd kw)
             end)).
  { intros sd. apply sends_only_bind.
    - intros s. split; [reflexivity | discriminate].
    - intros h. destruct (h !! c).
      + apply sends_only_for_each. intros [h'|f t|f t]; simpl;
          [apply sends_only_log_call | apply sends_only_call_closure
           | apply sends_only_call_closure].
      + intros s. split; [reflexivity | discriminate]. }
  unfold signal_send. destruct sender as [|x [|y l]];
    [apply Hcore | apply Hcore |].
  intros s. split; [reflexivity | discriminate].
Qed.

Lemma registered_signal_send (X : gset ClassId) c sender kw :
  preserves (λ s, signal_classes s = X) (signal_send c sender kw).
Proof.
  assert (Hclosure : ∀ t sd, preserves (λ s, signal_classes s = X)
            (call_closure t sd kw)).
  { intros t sd. unfold call_closure.
    destruct (bool_decide _); [apply preserves_raise|].
    unfold base_send. apply preserves_bind; [apply preserves_get|]. intros b.
    destruct (dict_get b t); [|apply preserves_raise].
    apply preserves_for_each. intros h. apply preserves_modify.
    intros s0 E. exact E. }
  assert (Hcore : ∀ sd, preserves (λ s, signal_classes s = X)
            (h <~ get heap ;;
             match h !! c with
             | None => raise AttributeError
             | Some sg => for_each (receivers sg) (λ r, call_receiver c r sd kw)
             end)).
  { intros sd. apply preserves_bind; [apply preserves_get|]. intros h.
    destruct (h !! c); [|apply preserves_raise].
    apply preserves_for_each. intros [h'|f t|f t]; simpl;
      [|apply Hclosure|apply Hclosure].
    apply preserves_modify. intros s0 E. exact E. }
  unfold signal_send. destruct sender as [|x [|y l]];
    [apply Hcore | apply Hcore | apply preserves_raise].
Qed.

Lemma own_namespace_classes s s' c :
  classes s' = classes s → own_namespace s' c = own_namespace s c.
Proof. intros E. unfold own_namespace. rewrite E. reflexivity. Qed.

Lemma getattr_namespace_classes s s' c :
  classes s' = classes s → getattr_namespace s' c = getattr_namespace s c.
Proof.
  intros E. unfold getattr_namespace, mro, own_namespace. rewrite E. reflexivity.
Qed.

(** The emission once the class shows a table. *)
Lemma send_cls_signal_shown s T sig sender kw ns :
  issubclass s T Signaler = true → payload_ok kw →
  getattr_namespace s T = Some ns →
  send_cls_signal T sig sender true kw s
  = match dict_get ns (_name sig) with
    | Some c =>
        signal_send c (match sender with [] => [SenderClass T] | _ => sender end)
          (("signal", VSchema sig) :: kw) s
    | None =>
        (init_class_signals T ;;;
         table' <~ Signaler_signals T ;;
         (if dict_mem table' (_name sig) then ret ()
          else raise (ValueError SignalNotExisting)) ;;;
         table'' <~ Signaler_signals T ;;
         match dict_get table'' (_name sig) with
         | None => raise AttributeError
         | Some c =>
             signal_send c
               (match sender with [] => [SenderClass T] | _ => sender end)
               (("signal", VSchema sig) :: kw)
         end) s
    end.
Proof.
  intros Hsub (Hk1 & Hk2 & Hk3) Hns.
  unfold send_cls_signal. unfold bind at 1. unfold get. rewrite Hsub. simpl.
  rewrite !has_key_false by assumption. simpl.
  unfold bind at 1. unfold Signaler_signals at 1. rewrite Hsub, Hns.
  destruct (dict_get ns (_name sig)) as [c|] eqn:Hn.
  - assert (Hm : dict_mem ns (_name sig) = true) by (apply dict_mem_true; eauto).
    rewrite Hm. unfold bind, ret. unfold Signaler_signals. rewrite Hsub, Hns, Hn.
    reflexivity.
  - assert (Hm : dict_mem ns (_name sig) = false) by (apply dict_mem_false; exact Hn).
    rewrite Hm. unfold bind.
    destruct (init_class_signals T s) as [s1 [[]|e]]; [|reflexivity].
    destruct (Signaler_signals T s1) as [s2 [t'|e]]; [|reflexivity].
    destruct (dict_mem t' (_name sig)); reflexivity.
Qed.

(** C6, amended.  Connecting a handler to [T] for [n] first declares [T] if
    it was not declared, and raises the signal-not-defined error exactly when
    [n] is absent from the table of [T] after that; otherwise the handler is
    connected.  Emitting [n] on [T] raises the namespace error, and declares
    nothing, when [T] shows no table at all; when [T] shows a table (its own
    or an inherited one) that lacks [n], the emission first declares [T], so
    that [T] is registered and has a table of its own afterwards; when the
    table shown has [n], nothing is declared.  In both cases the emission
    raises the signal-not-defined error exactly when [n] is absent from the
    table [T] shows afterwards.  On either error path no handler is
    connected and none is called. *)
Theorem signal_not_defined_iff (s : State) (T : ClassId) (n : string)
    (h : Handler) (sig : SignalSchema) (sender : list Sender)
    (kw : dict Value) :
  reachable s → issubclass s T Signaler = true → payload_ok kw →
  (let s' := exec (connect_class_signal T n h) s in
   let r := outcome (connect_class_signal T n h) s in
   T ∈ signal_classes s'
   ∧ ∃ ns', own_namespace s' T = Some ns'
       ∧ (r = Raise (ValueError SignalNotDefinedOnClass) ↔ dict_get ns' n = None)
       ∧ (dict_get ns' n = None → Quiet s s')
       ∧ (is_Some (dict_get ns' n) →
          r = Ok h ∧ ∃ rs, class_receivers s' T n = Some rs ∧ User h ∈ rs))
  ∧ (let s' := exec (send_cls_signal T sig sender true kw) s in
     let r := outcome (send_cls_signal T sig sender true kw) s in
     (getattr_namespace s T = None →
      r = Raise (ValueError NamespaceNotDefined) ∧ s' = s)
     ∧ (is_Some (getattr_namespace s T) →
        ∃ ns', getattr_namespace s' T = Some ns'
          ∧ (r = Raise (ValueError SignalNotExisting)
             ↔ dict_get ns' (_name sig) = None)
          ∧ (dict_get ns' (_name sig) = None → Quiet s s')
          ∧ (∀ ns, getattr_namespace s T = Some ns →
               dict_get ns (_name sig) = None →
               T ∈ signal_classes s' ∧ own_namespace s' T = Some ns')
          ∧ (∀ ns, getattr_namespace s T = Some ns →
               is_Some (dict_get ns (_name sig)) →
               signal_classes s' = signal_classes s ∧ ns' = ns))).
Proof.
  intros Hr Hsub Hkw. apply reachable_Inv in Hr.
  pose proof (Inv_not_object s T Hr Hsub) as Hno. split.
  - (* connecting *)
    destruct (connect_class_signal_spec T n h s Hr Hsub)
      as (s1 & ns & _ & HI & F & Q & Hns & Hin & Heq).
    unfold exec, outcome. rewrite Heq.
    destruct (dict_get ns n) as [c|] eqn:Hn; simpl.
    + split; [exact Hin|]. exists ns. split; [exact Hns|]. rewrite Hn.
      split; [split; discriminate|]. split; [discriminate|]. intros _.
      split; [reflexivity|].
      destruct (inv_tables _ HI T ns Hns n c Hn) as (sg & Hsg & _).
      exists (receivers (connect_receiver (User h) sg)). split.
      * unfold class_receivers.
        rewrite (getattr_namespace_classes s1) by reflexivity.
        rewrite (getattr_namespace_own _ _ _ Hns). simpl. rewrite Hn. simpl.
        rewrite list_lookup_alter_eq, Hsg. reflexivity.
      * apply elem_of_connect_receiver. left. reflexivity.
    + split; [exact Hin|]. exists ns. split; [exact Hns|]. rewrite Hn.
      split; [split; reflexivity|]. split; [intros _; exact Q|].
      intros [? ?]. discriminate.
  - (* emitting *)
    split.
    + intros Hnone. unfold exec, outcome, send_cls_signal, bind, get.
      rewrite Hsub. simpl. destruct Hkw as (Hk1 & Hk2 & Hk3).
      rewrite !has_key_false by assumption. simpl.
      unfold Signaler_signals. rewrite Hsub, Hnone. split; reflexivity.
    + intros [ns Hns]. unfold exec, outcome.
      rewrite (send_cls_signal_shown s T sig sender kw ns Hsub Hkw Hns).
      destruct (dict_get ns (_name sig)) as [c|] eqn:Hn.
      * destruct (sends_only_signal_send c
                    (match sender with [] => [SenderClass T] | _ => sender end)
                    (("signal", VSchema sig) :: kw) s) as [Hc He].
        exists ns. split; [|split; [|split; [|split]]].
        -- rewrite (getattr_namespace_classes s) by exact Hc. exact Hns.
        -- rewrite Hn. split; [intros E; destruct (He _ E) | discriminate].
        -- rewrite Hn. discriminate.
        -- intros ns0 E0 En0. congruence.
        -- intros ns0 E0 _. split; [|congruence].
           apply (registered_signal_send (signal_classes s)). reflexivity.
      * pose proof (issubclass_known _ _ _ Hsub) as Hk.
        destruct (init_class_signals_spec T s Hr Hk Hno)
          as (s1 & ns1 & Heq & HI & F & Q & Hns1 & Hin & _).
        set (sd := match sender with [] => [SenderClass T] | _ => sender end).
        assert (Hres :
          (init_class_signals T ;;;
           table' <~ Signaler_signals T ;;
           (if dict_mem table' (_name sig) then ret ()
            else raise (ValueError SignalNotExisting)) ;;;
           table'' <~ Signaler_signals T ;;
           match dict_get table'' (_name sig) with
           | None => raise AttributeError
           | Some c => signal_send c sd (("signal", VSchema sig) :: kw)
           end) s
          = match dict_get ns1 (_name sig) with
            | Some c => signal_send c sd (("signal", VSchema sig) :: kw) s1
            | None => (s1, Raise (ValueError SignalNotExisting))
            end).
        { unfold bind at 1. rewrite Heq. unfold bind at 1.
          unfold Signaler_signals at 1.
          rewrite (Frame_issubclass _ _ _ _ F), Hsub.
          rewrite (getattr_namespace_own _ _ _ Hns1).
          destruct (dict_get ns1 (_name sig)) as [c|] eqn:Hn1.
          - assert (Hm : dict_mem ns1 (_name sig) = true)
              by (apply dict_mem_true; eauto).
            rewrite Hm. unfold bind, ret. unfold Signaler_signals.
            rewrite (Frame_issubclass _ _ _ _ F), Hsub.
            rewrite (getattr_namespace_own _ _ _ Hns1), Hn1. reflexivity.
          - assert (Hm : dict_mem ns1 (_name sig) = false)
              by (apply dict_mem_false; exact Hn1).
            rewrite Hm. reflexivity. }
        rewrite Hres. clear Hres.
        destruct (dict_get ns1 (_name sig)) as [c|] eqn:Hn1.
        -- destruct (sends_only_signal_send c sd
                       (("signal", VSchema sig) :: kw) s1) as [Hc He].
           exists ns1. split; [|split; [|split; [|split]]].
           ++ rewrite (getattr_namespace_classes s1) by exact Hc.
              apply getattr_namespace_own, Hns1.
           ++ rewrite Hn1. split; [intros E; destruct (He _ E) | discriminate].
           ++ rewrite Hn1. discriminate.
           ++ intros _ _ _. split.
              ** rewrite (registered_signal_send (signal_classes s1) c sd
                            (("signal", VSchema sig) :: kw) s1 eq_refl).
                 exact Hin.
              ** rewrite (own_namespace_classes s1) by exact Hc. exact Hns1.
           ++ intros ns0 E0 [v Ev]. congruence.
        -- simpl. exists ns1. split; [apply getattr_namespace_own, Hns1|].
           rewrite Hn1. split; [split; reflexivity|].
           split; [intros _; exact Q|]. split.
           ++ intros _ _ _. split; [exact Hin | exact Hns1].
           ++ intros ns0 E0 [v Ev]. congruence.
Qed.

(** [B(A)] is not declared and [A] declares ["created"]: emitting
    ["deleted"] on [B] declares [B], which then has a table of its own
    without ["deleted"], and raises; connecting to [B] for ["deleted"]
    raises as well. *)
Lemma signal_not_defined_iff_witness :
  let s := run prog_undeclared_subclass initial in
  let sig := {| _name := "deleted"; _cascade := false |} in
  let s' := exec (send_cls_signal 4 sig [] true []) s in
  4 ∈ signal_classes s'
  ∧ (∃ ns', own_namespace s' 4 = Some ns' ∧ dict_get ns' "deleted" = None)
  ∧ Quiet s s'
  ∧ (∃ ns', own_namespace (exec (connect_class_signal 4 "deleted" on_created) s) 4
            = Some ns'
            ∧ dict_get ns' "deleted" = None).
Proof.
  intros s sig s'.
  assert (Hr : reachable s) by apply reachable_run, reachable_initial.
  assert (Hsub : issubclass s 4 Signaler = true) by (vm_compute; reflexivity).
  assert (Hkw : payload_ok []) by (repeat split; apply not_elem_of_nil).
  assert (Hns : getattr_namespace s 4 = Some [("created", 0)])
    by (vm_compute; reflexivity).
  assert (Hout : outcome (send_cls_signal 4 sig [] true []) s
                 = Raise (ValueError SignalNotExisting))
    by (vm_compute; reflexivity).
  assert (Hcon : outcome (connect_class_signal 4 "deleted" on_created) s
                 = Raise (ValueError SignalNotDefinedOnClass))
    by (vm_compute; reflexivity).
  destruct (signal_not_defined_iff s 4 "deleted" on_created sig [] [] Hr Hsub Hkw)
    as [(_ & nc & Hnc & Hciff & _) [_ He]].
  destruct (He (ex_intro _ _ Hns)) as (ns' & _ & Hiff & Hq & Hlazy & _).
  destruct (Hlazy _ Hns eq_refl) as [Hin Hown].
  pose proof (proj1 Hiff Hout) as Hnone.
  split; [exact Hin|]. split; [exists ns'; split; [exact Hown | exact Hnone]|].
  split; [exact (Hq Hnone)|].
  exists nc. split; [exact Hnc | exact (proj1 Hciff Hcon)].
Defined.

(** ** The class graph *)

Lemma bases_of_hier s c :
  bases_of s c = default [] (fst <$> hier s !! c).
Proof.
  unfold bases_of, hier. rewrite list_lookup_fmap.
  destruct (classes s !! c); reflexivity.
Qed.

Lemma mro_hier s c :
  mro s c = from_option (λ p, c :: p.2) [] (hier s !! c).
Proof.
  unfold mro, hier. rewrite list_lookup_fmap.
  destruct (classes s !! c); reflexivity.
Qed.

Lemma hier_length s s' : hier s' = hier s → length (classes s') = length (classes s).
Proof.
  intros E. apply (f_equal length) in E. unfold hier in E.
  rewrite !length_map in E. exact E.
Qed.

Lemma Wf_hier s s' : hier s' = hier s → Wf s → Wf s'.
Proof.
  intros E H X b. rewrite bases_of_hier, !mro_hier, E, <- bases_of_hier.
  intros Hb. destruct (H X b Hb) as [Hlt Hm]. split; [exact Hlt|].
  intros a. rewrite <- !mro_hier. apply Hm.
Qed.

Lemma hier_alter s cls f :
  (∀ k, bases (f k) = bases k ∧ ancestors (f k) = ancestors k) →
  hier (set_classes (alter f cls) s) = hier s.
Proof.
  intros Hf. unfold hier. simpl. apply list_eq. intros i.
  rewrite !list_lookup_fmap, list_lookup_alter.
  destruct (decide (cls = i)) as [->|]; [|reflexivity].
  destruct (classes s !! i) as [k|]; [|reflexivity]. simpl.
  destruct (Hf k) as [-> ->]. reflexivity.
Qed.

Lemma keeps_hier_modify f : (∀ s, hier (f s) = hier s) → keeps_hier (modify f).
Proof. intros Hf H s E. simpl. rewrite Hf. exact E. Qed.

Lemma keeps_hier_setattr cls key r : keeps_hier (setattr_cascade cls key r).
Proof.
  intros H. unfold setattr_cascade.
  destruct (decide (cls = object_)); [apply preserves_raise|].
  apply preserves_bind; [apply preserves_get|]. intros old.
  apply preserves_bind; [|intros _].
  - apply keeps_hier_modify. intros s. apply hier_alter. intros k. split; reflexivity.
  - apply keeps_hier_modify. intros s. destruct old; reflexivity.
Qed.

Lemma keeps_hier_declare_schema cls ns a : keeps_hier (declare_schema cls ns a).
Proof.
  intros H. unfold declare_schema.
  apply preserves_bind.
  { unfold namespace_signal. destruct (dict_get ns _); [apply preserves_ret|].
    intros s E. exact E. }
  intros p. apply preserves_bind.
  { destruct (_cascade _); [|apply preserves_ret].
    apply preserves_bind; [apply keeps_hier_modify; reflexivity|]. intros _.
    apply preserves_bind; [intros s E; exact E|]. intros f.
    apply preserves_bind; [apply keeps_hier_setattr|]. intros _.
    apply keeps_hier_modify. reflexivity. }
  intros _. apply preserves_bind; [intros s E; exact E|]. intros g.
  apply preserves_bind; [apply keeps_hier_setattr|]. intros _.
  apply preserves_bind; [apply keeps_hier_modify; reflexivity|]. intros _.
  apply preserves_ret.
Qed.

Lemma keeps_hier_declare_all cls l : ∀ ns, keeps_hier (declare_all cls ns l).
Proof.
  induction l as [|a l IH]; intros ns H; simpl.
  - apply preserves_ret.
  - apply preserves_bind; [apply keeps_hier_declare_schema|]. intros ns'. apply IH.
Qed.

Lemma keeps_hier_signals args cls : keeps_hier (signals args cls).
Proof.
  intros H. unfold signals, signals_decorator.
  apply preserves_bind; [apply preserves_get|]. intros known.
  destruct (negb known); [apply preserves_raise|].
  apply preserves_bind; [apply keeps_hier_modify; reflexivity|]. intros _.
  apply preserves_bind; [apply preserves_get|]. intros has.
  apply preserves_bind; [apply preserves_get|]. intros inh.
  apply preserves_bind; [apply keeps_hier_declare_all|]. intros ns.
  apply preserves_bind; [|intros; apply preserves_ret].
  unfold setattr_namespace.
  destruct (decide (cls = object_)); [apply preserves_raise|].
  apply keeps_hier_modify. intros s. apply hier_alter. intros k. split; reflexivity.
Qed.

Lemma keeps_hier_init clz : keeps_hier (init_class_signals clz).
Proof.
  intros H. unfold init_class_signals.
  apply preserves_bind; [apply preserves_get|]. intros [|]; [apply preserves_ret|].
  apply preserves_bind; [apply keeps_hier_signals | intros; apply preserves_ret].
Qed.

Lemma keeps_hier_Signaler_signals cls : keeps_hier (Signaler_signals cls).
Proof.
  intros H s E. unfold Signaler_signals.
  destruct (issubclass _ _ _); [|exact E].
  destruct (getattr_namespace _ _); exact E.
Qed.

Lemma keeps_hier_connect_class_signal clz nm fn :
  keeps_hier (connect_class_signal clz nm fn).
Proof.
  intros H. unfold connect_class_signal.
  apply preserves_bind; [apply keeps_hier_init|]. intros _.
  apply preserves_bind; [apply keeps_hier_Signaler_signals|]. intros ns.
  destruct (dict_get ns nm); [|apply preserves_raise].
  apply preserves_bind; [apply keeps_hier_modify; reflexivity|]. intros _.
  apply preserves_ret.
Qed.

Lemma keeps_hier_connect_and_collect fn nm cs : ∀ found,
  keeps_hier (connect_and_collect fn nm cs found).
Proof.
  induction cs as [|c cs IH]; intros found H; simpl.
  - apply preserves_ret.
  - apply preserves_bind; [apply keeps_hier_connect_class_signal|]. intros _.
    apply preserves_bind; [apply preserves_get|]. intros subs. apply IH.
Qed.

Lemma keeps_hier_connect_subclasses_fn depth fn : ∀ cs nm,
  keeps_hier (connect_subclasses_fn depth fn cs nm).
Proof.
  induction depth as [|d IH]; intros cs nm H; simpl.
  - apply preserves_raise.
  - destruct cs; [apply preserves_raise|].
    apply preserves_bind; [apply keeps_hier_connect_and_collect|]. intros found.
    apply preserves_bind.
    { apply preserves_for_each. intros x.
      apply preserves_bind; [apply keeps_hier_connect_class_signal
                            | intros; apply preserves_ret]. }
    intros _. apply preserves_bind; [|intros; apply preserves_ret].
    destruct found; [apply preserves_ret|].
    apply preserves_bind; [apply IH | intros; apply preserves_ret].
Qed.

Lemma keeps_hier_sends {A} (m : M A) : sends_only m → keeps_hier m.
Proof.
  intros Hm H s E. destruct (Hm s) as [Hc _]. unfold hier. rewrite Hc. exact E.
Qed.

Lemma keeps_hier_send_cls_signal cls sg sender cond kw :
  keeps_hier (send_cls_signal cls sg sender cond kw).
Proof.
  intros H. unfold send_cls_signal. apply preserves_bind; [apply preserves_get|].
  intros b. destruct (negb b); [apply preserves_raise|].
  destruct (_ || _); [apply preserves_raise|].
  destruct cond; [|apply preserves_ret].
  apply preserves_bind; [apply keeps_hier_Signaler_signals|]. intros t.
  apply preserves_bind.
  { destruct (dict_mem t _); [apply preserves_ret|].
    apply preserves_bind; [apply keeps_hier_init|]. intros _.
    apply preserves_bind; [apply keeps_hier_Signaler_signals|]. intros t'.
    destruct (dict_mem t' _); [apply preserves_ret | apply preserves_raise]. }
  intros _. apply preserves_bind; [apply keeps_hier_Signaler_signals|]. intros t''.
  destruct (dict_get t'' _); [|apply preserves_raise].
  apply keeps_hier_sends, sends_only_signal_send.
Qed.

Lemma keeps_hier_send_signal self sg sender cond kw :
  keeps_hier (send_signal self sg sender cond kw).
Proof.
  intros H. unfold send_signal. apply preserves_bind; [apply preserves_get|].
  intros b. destruct (negb b); [apply preserves_raise|].
  destruct (_ || _); [apply preserves_raise|].
  apply keeps_hier_send_cls_signal.
Qed.

Lemma keeps_hier_connect_base_signal nm fn : keeps_hier (connect_base_signal nm fn).
Proof.
  intros H. unfold connect_base_signal.
  apply preserves_bind; [apply keeps_hier_modify; reflexivity|]. intros _.
  apply preserves_ret.
Qed.

Lemma keeps_hier_connect cs nm fn : keeps_hier (connect cs nm fn).
Proof.
  intros H. unfold connect. destruct cs; [apply keeps_hier_connect_base_signal|].
  apply preserves_bind; [|intros; apply preserves_ret].
  apply preserves_for_each. intros x.
  apply preserves_bind; [apply keeps_hier_connect_class_signal
                        | intros; apply preserves_ret].
Qed.

Lemma keeps_hier_connect_subclasses cs nm fn :
  keeps_hier (connect_subclasses cs nm fn).
Proof. intros H s E. apply keeps_hier_connect_subclasses_fn, E. Qed.

Lemma keeps_hier_exec {A} (m : M A) s : keeps_hier m → hier (exec m s) = hier s.
Proof. intros Hm. apply (Hm (hier s) s). reflexivity. Qed.

(** The linearization holds every class of every sequence it merges. *)
Lemma c3_merge_elem fuel : ∀ seqs out,
  c3_merge fuel seqs = Some out →
  ∀ sq x, sq ∈ seqs → x ∈ sq → x ∈ out.
Proof.
  induction fuel as [|fuel IH]; intros seqs out Hm sq x Hsq Hx.
  - simpl in Hm.
    assert (Hlive : sq ∈ filter (λ sq, sq ≠ []) seqs).
    { apply list_elem_of_filter. split; [|exact Hsq].
      intros ->. apply elem_of_nil in Hx. destruct Hx. }
    destruct (filter (λ sq, sq ≠ []) seqs); [|discriminate].
    apply elem_of_nil in Hlive. destruct Hlive.
  - simpl in Hm.
    assert (Hlive : sq ∈ filter (λ sq, sq ≠ []) seqs).
    { apply list_elem_of_filter. split; [|exact Hsq].
      intros ->. apply elem_of_nil in Hx. destruct Hx. }
    set (live := filter (λ sq, sq ≠ []) seqs) in *.
    destruct live as [|l0 live'] eqn:El.
    { apply elem_of_nil in Hlive. destruct Hlive. }
    destruct (list_find _ _) as [[i h]|]; [|discriminate].
    destruct (c3_merge fuel _) as [out'|] eqn:Hrec; [|discriminate].
    simpl in Hm. injection Hm as <-.
    destruct (decide (x = h)) as [->|Hne]; [left|right].
    set (g := λ sq : list nat,
                if decide (head sq = Some h) then tail sq else sq) in *.
    apply (IH _ _ Hrec (g sq)).
    + apply (list_elem_of_fmap_2 g). exact Hlive.
    + unfold g. destruct (decide (head sq = Some h)) as [Hh|]; [|exact Hx].
      destruct sq as [|y sq]; [discriminate|]. simpl in Hh. injection Hh as ->.
      simpl. apply elem_of_cons in Hx as [?|?]; [congruence|assumption].
Qed.

Lemma linearize_elem s bs anc :
  linearize s bs = Some anc →
  ∀ b a, b ∈ bs → a ∈ mro s b → a ∈ anc.
Proof.
  unfold linearize. intros Hl b a Hb Ha.
  eapply (c3_merge_elem _ _ _ Hl (mro s b) a); [|exact Ha].
  apply elem_of_app. left. apply list_elem_of_fmap_2, Hb.
Qed.

Lemma Wf_define_class bs : preserves Wf (define_class bs).
Proof.
  intros s H. unfold define_class.
  destruct (bool_decide _) eqn:Hg; [|exact H].
  apply bool_decide_eq_true in Hg as [Hvalid _].
  destruct (linearize s _) as [anc|] eqn:Hl; [|exact H].
  simpl. set (bs' := if decide (bs = []) then [object_] else bs) in *.
  set (k := {| bases := bs'; ancestors := anc;
               signal_namespace := None; cascade_attrs := [] |}).
  set (s' := set_classes (λ cl, cl ++ [k]) s).
  assert (Hold : ∀ c, c < length (classes s) →
                      bases_of s' c = bases_of s c ∧ mro s' c = mro s c).
  { intros c Hc. unfold bases_of, mro, s'. simpl.
    rewrite lookup_app_l by exact Hc. auto. }
  assert (Hnew : bases_of s' (length (classes s)) = bs'
                 ∧ mro s' (length (classes s)) = length (classes s) :: anc).
  { unfold bases_of, mro, s'. simpl.
    rewrite list_lookup_middle by reflexivity. auto. }
  assert (Hout : ∀ c, length (classes s) < c → bases_of s' c = []).
  { intros c Hc. unfold bases_of, s'. simpl.
    rewrite lookup_ge_None_2; [reflexivity|]. rewrite length_app. simpl. lia. }
  assert (Hknown : ∀ X b, b ∈ bases_of s X → X < length (classes s)).
  { intros X b. unfold bases_of. destruct (classes s !! X) eqn:E.
    - intros _. eapply lookup_lt_Some, E.
    - intros Hb. apply elem_of_nil in Hb. destruct Hb. }
  intros X b Hb.
  destruct (decide (X < length (classes s))) as [HX|HX].
  - destruct (Hold X HX) as [Eb Em]. rewrite Eb in Hb.
    destruct (H X b Hb) as [Hlt Hm]. split; [exact Hlt|].
    intros a. rewrite Em. destruct (Hold b ltac:(lia)) as [_ ->]. apply Hm.
  - destruct (decide (X = length (classes s))) as [->|HX'].
    + destruct Hnew as [Eb Em]. rewrite Eb in Hb.
      rewrite Forall_forall in Hvalid. pose proof (Hvalid b Hb) as Hlt.
      split; [exact Hlt|]. intros a. rewrite Em.
      destruct (Hold b Hlt) as [_ ->]. intros Ha. right.
      eapply linearize_elem; eauto.
    + rewrite Hout in Hb by lia. apply elem_of_nil in Hb. destruct Hb.
Qed.

Lemma Wf_initial : Wf initial.
Proof.
  intros X b. unfold bases_of, mro, initial. simpl.
  destruct X as [|[|[|X]]]; simpl; intros Hb.
  - apply elem_of_nil in Hb. destruct Hb.
  - apply list_elem_of_singleton in Hb. subst b. split; [unfold object_; lia|].
    simpl. intros a Ha. right. exact Ha.
  - apply list_elem_of_singleton in Hb. subst b. split; [unfold SuperStop; lia|].
    simpl. intros a Ha. right. exact Ha.
  - apply elem_of_nil in Hb. destruct Hb.
Qed.

Lemma Wf_keeps_hier {A} (m : M A) : keeps_hier m → preserves Wf m.
Proof.
  intros Hm s H. eapply Wf_hier; [|exact H]. apply (keeps_hier_exec m s Hm).
Qed.

Lemma Wf_run_op o : preserves Wf (run_op o).
Proof.
  destruct o; simpl.
  - apply preserves_bind; [apply Wf_define_class | intros; apply preserves_ret].
  - apply preserves_bind; [apply Wf_keeps_hier, keeps_hier_signals
                          | intros; apply preserves_ret].
  - apply preserves_bind; [apply Wf_keeps_hier, keeps_hier_connect_base_signal
                          | intros; apply preserves_ret].
  - apply preserves_bind; [apply Wf_keeps_hier, keeps_hier_connect_class_signal
                          | intros; apply preserves_ret].
  - apply preserves_bind; [apply Wf_keeps_hier, keeps_hier_connect
                          | intros; apply preserves_ret].
  - apply preserves_bind; [apply Wf_keeps_hier, keeps_hier_connect_subclasses
                          | intros; apply preserves_ret].
  - apply Wf_keeps_hier, keeps_hier_send_cls_signal.
  - apply Wf_keeps_hier, keeps_hier_send_signal.
Qed.

Lemma reachable_Wf s : reachable s → Wf s.
Proof.
  induction 1 as [|s o _ IH]; [apply Wf_initial | apply Wf_run_op, IH].
Qed.

(** ** Connecting to a class and its subclasses *)

Lemma desc_Frame s s' A X : Frame s s' → desc s A X → desc s' A X.
Proof.
  intros F. induction 1 as [|X Y _ IH Hb]; [constructor|].
  eapply desc_sub; [exact IH|]. rewrite (f_bases _ _ F). exact Hb.
Qed.

Lemma desc_Frame_inv s s' A X : Frame s s' → desc s' A X → desc s A X.
Proof.
  intros F. induction 1 as [|X Y _ IH Hb]; [constructor|].
  eapply desc_sub; [exact IH|]. rewrite <- (f_bases _ _ F). exact Hb.
Qed.

Lemma desc_trans s A X Z : desc s A X → desc s X Z → desc s A Z.
Proof.
  intros HX. induction 1 as [|Y Z _ IH Hb]; [exact HX|].
  eapply desc_sub; eauto.
Qed.

(** A descendant other than the class itself goes through a direct
    subclass. *)
Lemma desc_head s X Z :
  desc s X Z → Z = X ∨ ∃ Y, X ∈ bases_of s Y ∧ desc s Y Z.
Proof.
  induction 1 as [|Y Z HY IH Hb]; [left; reflexivity|]. right.
  destruct IH as [->|(Y1 & HY1 & Hd)].
  - exists Z. split; [exact Hb | constructor].
  - exists Y1. split; [exact HY1|]. eapply desc_sub; eauto.
Qed.

Lemma desc_mro s A X a : Wf s → desc s A X → a ∈ mro s A → a ∈ mro s X.
Proof.
  intros W. induction 1 as [|X Y _ IH Hb]; [auto|].
  intros Ha. apply (W Y X Hb). apply IH, Ha.
Qed.

Lemma desc_le s A X : Wf s → desc s A X → A ≤ X.
Proof.
  intros W. induction 1 as [|X Y _ IH Hb]; [lia|].
  destruct (W Y X Hb) as [Hlt _]. lia.
Qed.

Lemma bases_of_known s X b : b ∈ bases_of s X → X < length (classes s).
Proof.
  unfold bases_of. destruct (classes s !! X) eqn:E.
  - intros _. eapply lookup_lt_Some, E.
  - intros Hb. apply elem_of_nil in Hb. destruct Hb.
Qed.

Lemma desc_known s A X : A < length (classes s) → desc s A X → X < length (classes s).
Proof.
  intros HA. induction 1 as [|X Y _ IH Hb]; [exact HA|].
  eapply bases_of_known, Hb.
Qed.

Lemma desc_issubclass s A X l :
  Wf s → desc s A X → issubclass s A l = true → issubclass s X l = true.
Proof.
  intros W Hd HA. unfold issubclass in *.
  apply bool_decide_eq_true in HA. apply bool_decide_eq_true.
  eapply desc_mro; eauto.
Qed.

Lemma elem_of_subclasses s X Y : Y ∈ subclasses s X ↔ X ∈ bases_of s Y.
Proof.
  unfold subclasses. rewrite list_elem_of_filter, elem_of_seq. split; [tauto|].
  intros Hb. split; [exact Hb|]. pose proof (bases_of_known _ _ _ Hb). lia.
Qed.

Lemma Wf_Frame s s' : Frame s s' → Wf s → Wf s'.
Proof.
  intros F W X b. rewrite (f_bases _ _ F). intros Hb.
  destruct (W X b Hb) as [Hlt Hm]. split; [exact Hlt|].
  intros a. rewrite !(f_mro _ _ F). apply Hm.
Qed.

Lemma Connected_Frame s s' n h X : Frame s s' → Connected s n h X → Connected s' n h X.
Proof.
  intros F (ns & c & sg & Hns & Hn & Hsg & Hin).
  destruct (f_users_kept _ _ F _ _ _ Hsg Hin) as (sg' & Hsg' & Hin').
  exists ns, c, sg'. split; [apply (f_tables _ _ F), Hns|]. auto.
Qed.

Lemma Frame_signal_connect_user c h s :
  Frame s (exec (signal_connect c (User h)) s).
Proof.
  constructor; try reflexivity; try (intros; assumption).
  intros ch sg h' Hsg Hin. simpl. rewrite list_lookup_alter.
  destruct (decide (c = ch)) as [->|]; [|eauto].
  rewrite Hsg. simpl. eexists. split; [reflexivity|].
  apply elem_of_connect_receiver. right. exact Hin.
Qed.

Lemma init_class_signals_others T s c :
  Inv s → T < length (classes s) → c ≠ T →
  own_namespace (exec (init_class_signals T) s) c = own_namespace s c.
Proof.
  intros H Hk Hne. unfold exec, init_class_signals, bind, get.
  destruct (decide (T ∈ signal_classes s)) as [Hin|Hni].
  - rewrite bool_decide_eq_true_2 by exact Hin. reflexivity.
  - rewrite bool_decide_eq_false_2 by exact Hni.
    destruct (decide (T = object_)) as [->|Hno].
    + destruct (signals_decorator_object [] s H) as (s' & Heq & _ & Hc & _).
      unfold signals. rewrite Heq. simpl. apply own_namespace_classes, Hc.
    + destruct (first_declaration [] T s H Hk Hno Hni)
        as (s' & ns & Heq & _ & _ & _ & _ & _ & Hoth & _).
      rewrite Heq. simpl. apply Hoth, Hne.
Qed.

(** Connecting to one class among [A] and its subclasses. *)
Lemma connect_desc s A n h X :
  Inv s → Wf s → Ready s A n → desc s A X →
  ∃ s',
    connect_class_signal X n h s = (s', Ok h)
    ∧ Inv s' ∧ Frame s s' ∧ Ready s' A n ∧ Connected s' n h X.
Proof.
  intros H W (HsubA & [nsA HnsA] & Hdecl) Hd.
  pose proof (issubclass_known _ _ _ HsubA) as HkA.
  pose proof (desc_known _ _ _ HkA Hd) as HkX.
  pose proof (desc_issubclass _ _ _ _ W Hd HsubA) as HsubX.
  destruct (init_class_signals_spec X s H HkX (Inv_not_object s X H HsubX))
    as (s1 & ns & Heq & HI & F & Q & Hns & Hin & Hsame & Hkeys).
  assert (Hn : is_Some (dict_get ns n)).
  { destruct (decide (X ∈ signal_classes s)) as [HX|HX].
    - rewrite (Hsame HX) in Hns. eapply Hdecl; eauto.
    - apply (Hkeys HX). unfold decorator_schemata. simpl.
      assert (HA : A ∈ mro s X).
      { eapply desc_mro; eauto. apply mro_head, HkA. }
      assert (Hh : hasattr_namespace s X = true).
      { apply hasattr_namespace_true.
        destruct (getattr_namespace s X) eqn:E; [eauto|].
        rewrite (proj1 (getattr_namespace_None s X) E A HA) in HnsA. discriminate. }
      rewrite Hh, inherited_schemata_names. apply merge_keys.
      exists A, nsA. split; [exact HA|]. split; [exact HsubA|].
      split; [apply getattr_namespace_own, HnsA|].
      apply dict_keys_is_Some. eapply Hdecl; [constructor | exact HnsA]. }
  destruct Hn as [c Hc].
  destruct (inv_tables _ HI X ns Hns n c Hc) as (sg & Hsg & _).
  set (s' := exec (signal_connect c (User h)) s1).
  assert (Hrun : connect_class_signal X n h s = (s', Ok h)).
  { unfold connect_class_signal, bind. rewrite Heq.
    unfold Signaler_signals. rewrite (Frame_issubclass _ _ _ _ F), HsubX.
    rewrite (getattr_namespace_own _ _ _ Hns), Hc. reflexivity. }
  assert (F' : Frame s s').
  { eapply Frame_trans; [exact F | apply Frame_signal_connect_user]. }
  exists s'. split; [exact Hrun|]. split; [|split; [exact F'|split]].
  - replace s' with (exec (connect_class_signal X n h) s)
      by (unfold exec; rewrite Hrun; reflexivity).
    apply Inv_connect_class_signal, H.
  - split; [rewrite (Frame_issubclass _ _ _ _ F'); exact HsubA|].
    split; [exists nsA; apply (f_tables _ _ F'), HnsA|].
    intros Y nsY HdY HnsY. apply (desc_Frame_inv _ _ _ _ F') in HdY.
    change (own_namespace s' Y) with (own_namespace s1 Y) in HnsY.
    destruct (decide (Y = X)) as [->|Hne].
    + assert (nsY = ns) as -> by congruence. eauto.
    + assert (E : own_namespace s1 Y = own_namespace s Y).
      { replace s1 with (exec (init_class_signals X) s)
          by (unfold exec; rewrite Heq; reflexivity).
        apply init_class_signals_others; assumption. }
      rewrite E in HnsY. eapply Hdecl; eauto.
  - exists ns, c, (connect_receiver (User h) sg).
    split; [exact Hns|]. split; [exact Hc|]. split.
    + unfold s'. simpl. rewrite list_lookup_alter_eq, Hsg. reflexivity.
    + apply elem_of_connect_receiver. left. reflexivity.
Qed.

Lemma connect_each A n h l : ∀ s,
  Inv s → Wf s → Ready s A n → (∀ X, X ∈ l → desc s A X) →
  ∃ s',
    for_each l (λ c, connect_class_signal c n h ;;; ret ()) s = (s', Ok ())
    ∧ Inv s' ∧ Frame s s' ∧ Ready s' A n
    ∧ ∀ X, X ∈ l → Connected s' n h X.
Proof.
  induction l as [|x l IH]; intros s H W R Hl.
  - exists s. split; [reflexivity|]. split; [exact H|]. split; [apply Frame_refl|].
    split; [exact R|]. intros X HX. apply elem_of_nil in HX. destruct HX.
  - destruct (connect_desc s A n h x H W R (Hl x ltac:(left)))
      as (s1 & Heq & H1 & F1 & R1 & C1).
    destruct (IH s1 H1 (Wf_Frame _ _ F1 W) R1) as (s2 & Heq2 & H2 & F2 & R2 & C2).
    { intros X HX. apply (desc_Frame _ _ _ _ F1), Hl. right. exact HX. }
    exists s2. split; [|split; [exact H2|split; [eapply Frame_trans; eauto|split; [exact R2|]]]].
    + simpl. unfold bind at 1. unfold bind at 1. rewrite Heq. simpl. exact Heq2.
    + intros X HX. apply elem_of_cons in HX as [->|HX]; [|apply C2, HX].
      eapply Connected_Frame; eauto.
Qed.

Lemma collect_spec A n h l : ∀ found s,
  Inv s → Wf s → Ready s A n → (∀ X, X ∈ l → desc s A X) →
  ∃ s' found',
    connect_and_collect h n l found s = (s', Ok found')
    ∧ Inv s' ∧ Frame s s' ∧ Ready s' A n
    ∧ (∀ X, X ∈ l → Connected s' n h X)
    ∧ (∀ Y, Y ∈ found' ↔ Y ∈ found ∨ ∃ X, X ∈ l ∧ X ∈ bases_of s Y).
Proof.
  induction l as [|x l IH]; intros found s H W R Hl.
  - exists s, found. split; [reflexivity|]. split; [exact H|].
    split; [apply Frame_refl|]. split; [exact R|]. split.
    + intros X HX. apply elem_of_nil in HX. destruct HX.
    + intros Y. split; [auto|]. intros [?|(X & HX & _)]; [assumption|].
      apply elem_of_nil in HX. destruct HX.
  - destruct (connect_desc s A n h x H W R (Hl x ltac:(left)))
      as (s1 & Heq & H1 & F1 & R1 & C1).
    destruct (IH (list_union found (subclasses s1 x)) s1 H1 (Wf_Frame _ _ F1 W) R1)
      as (s2 & found' & Heq2 & H2 & F2 & R2 & C2 & Hf).
    { intros X HX. apply (desc_Frame _ _ _ _ F1), Hl. right. exact HX. }
    exists s2, found'.
    split; [|split; [exact H2|split; [eapply Frame_trans; eauto|split; [exact R2|split]]]].
    + simpl. unfold bind at 1. rewrite Heq. unfold bind, get. exact Heq2.
    + intros X HX. apply elem_of_cons in HX as [->|HX]; [|apply C2, HX].
      eapply Connected_Frame; eauto.
    + intros Y. rewrite Hf, list_elem_of_union, elem_of_subclasses.
      rewrite (f_bases _ _ F1). split.
      * intros [[?|?]|(X & HX & Hb)]; [auto| |].
        -- right. exists x. split; [left|assumption].
        -- right. exists X. split; [right; exact HX|exact Hb].
      * intros [?|(X & HX & Hb)]; [auto|].
        apply elem_of_cons in HX as [->|HX]; [auto|].
        right. exists X. split; [exact HX|exact Hb].
Qed.

Lemma connect_subclasses_fn_S d fn cs nm :
  connect_subclasses_fn (S d) fn cs nm
  = let signal_name := default (fn_name fn) nm in
    match cs with
    | [] => raise (ValueError NeedClass)
    | _ =>
        found <~ connect_and_collect fn signal_name cs [] ;;
        for_each found
          (λ sub, connect_class_signal sub signal_name fn ;;; ret ()) ;;;
        (match found with
         | [] => ret ()
         | _ => connect_subclasses_fn d fn found (Some signal_name) ;;; ret ()
         end) ;;;
        ret fn
    end.
Proof. reflexivity. Qed.

(** One level of the recursion and all the levels below it: enough depth is
    left when every class of the level has an identity of at least [k] and
    [depth + k] exceeds the number of classes. *)
Lemma connect_level A n h depth : ∀ l nm s k,
  default (fn_name h) nm = n →
  Inv s → Wf s → Ready s A n → l ≠ [] →
  (∀ X, X ∈ l → desc s A X ∧ k ≤ X) →
  length (classes s) < depth + k →
  ∃ s',
    connect_subclasses_fn depth h l nm s = (s', Ok h)
    ∧ Inv s' ∧ Frame s s'
    ∧ ∀ X Z, X ∈ l → desc s X Z → Connected s' n h Z.
Proof.
  induction depth as [|d IH]; intros l nm s k Hnm H W R Hne Hl Hlen.
  - exfalso. destruct l as [|x l]; [done|].
    destruct (Hl x ltac:(left)) as [Hd Hk].
    destruct R as (Hsub & _). apply issubclass_known in Hsub.
    pose proof (desc_known _ _ _ Hsub Hd). lia.
  - rewrite connect_subclasses_fn_S. cbv zeta. rewrite Hnm.
    destruct l as [|x l']; [done|]. set (l := x :: l') in *.
    destruct (collect_spec A n h l [] s H W R (λ X HX, proj1 (Hl X HX)))
      as (s1 & found & Heq1 & H1 & F1 & R1 & C1 & Hf).
    assert (W1 : Wf s1) by (eapply Wf_Frame; eauto).
    assert (Hfound : ∀ Y, Y ∈ found → desc s A Y ∧ S k ≤ Y).
    { intros Y HY. apply Hf in HY as [HY|(X & HX & Hb)].
      - apply elem_of_nil in HY. destruct HY.
      - destruct (Hl X HX) as [HdX HkX]. split; [eapply desc_sub; eauto|].
        destruct (W Y X Hb) as [Hlt _]. lia. }
    destruct (connect_each A n h found s1 H1 W1 R1) as (s2 & Heq2 & H2 & F2 & R2 & C2).
    { intros Y HY. apply (desc_Frame _ _ _ _ F1), Hfound, HY. }
    assert (F12 : Frame s s2) by (eapply Frame_trans; eauto).
    assert (W2 : Wf s2) by (eapply Wf_Frame; eauto).
    unfold bind at 1. rewrite Heq1. unfold bind at 1. rewrite Heq2.
    destruct found as [|y found'] eqn:Efound.
    + exists s2. split; [reflexivity|]. split; [exact H2|]. split; [exact F12|].
      intros X Z HX HdZ. apply desc_head in HdZ as [->|(Y & HY & _)].
      * eapply Connected_Frame; [exact F2 | apply C1, HX].
      * exfalso. assert (HYf : Y ∈ []) by (apply Hf; right; eauto).
        apply elem_of_nil in HYf. destruct HYf.
    + rewrite <- Efound in *.
      destruct (IH found (Some n) s2 (S k) eq_refl H2 W2 R2) as (s3 & Heq3 & H3 & F3 & C3).
      { rewrite Efound. discriminate. }
      { intros Y HY. destruct (Hfound Y HY) as [HdY HkY].
        split; [apply (desc_Frame _ _ _ _ F12), HdY | exact HkY]. }
      { rewrite (f_length _ _ F12). lia. }
      exists s3. split; [|split; [exact H3|split; [eapply Frame_trans; eauto|]]].
      * rewrite Efound. unfold bind. rewrite <- Efound, Heq3. reflexivity.
      * intros X Z HX HdZ. apply desc_head in HdZ as [->|(Y & HY & HdY)].
        -- eapply Connected_Frame; [exact F3|].
           eapply Connected_Frame; [exact F2 | apply C1, HX].
        -- apply (C3 Y Z); [apply Hf; right; eauto|].
           apply (desc_Frame _ _ _ _ F12), HdY.
Qed.

(** The signals of a table that a declaration has just made have no
    handler of a user. *)
Lemma declared_no_users s args cls ns n c sg h :
  Inv s → cls < length (classes s) →
  own_namespace (exec (signals args cls) s) cls = Some ns →
  dict_get ns n = Some c →
  heap (exec (signals args cls) s) !! c = Some sg →
  User h ∉ receivers sg.
Proof.
  intros H Hk.
  destruct (decide (cls = object_)) as [->|Hno].
  { intros E. exfalso.
    pose proof (Inv_signals args object_ s H) as HI.
    destruct (inv_object _ HI) as [Ho _].
    unfold exec in E. rewrite Ho in E. discriminate E. }
  destruct (signals_decorator_spec args cls s H Hk Hno) as (ns' & sl & Heq & L & _).
  unfold exec, signals. rewrite Heq. simpl.
  rewrite own_namespace_attach by apply (li_known _ _ _ _ _ L).
  rewrite decide_True by reflexivity. intros E Hn Hsg Hin. injection E as ->.
  change (heap (attach cls ns sl)) with (heap sl) in Hsg.
  destruct (li_old_user _ _ _ _ _ L c sg h Hsg Hin) as (sg0 & Hsg0 & _).
  apply lookup_lt_Some in Hsg0.
  pose proof (li_local_new _ _ _ _ _ L n c Hn). lia.
Qed.

Lemma define_class_Ok bs s D :
  outcome (define_class bs) s = Ok D →
  D = length (classes s)
  ∧ own_namespace (exec (define_class bs) s) D = None
  ∧ signal_classes (exec (define_class bs) s) = signal_classes s
  ∧ length (classes (exec (define_class bs) s)) = S (length (classes s)).
Proof.
  unfold outcome, exec, define_class.
  destruct (bool_decide _); [|discriminate].
  destruct (linearize s _) as [anc|]; [|discriminate].
  simpl. intros E. injection E as <-. split; [reflexivity|]. split; [|split].
  - unfold own_namespace. simpl. rewrite list_lookup_middle by reflexivity. reflexivity.
  - reflexivity.
  - rewrite length_app. simpl. lia.
Qed.

Lemma own_namespace_fmap s c :
  own_namespace s c = (signal_namespace <$> classes s) !! c ≫= id.
Proof.
  unfold own_namespace. rewrite list_lookup_fmap.
  destruct (classes s !! c); reflexivity.
Qed.

(** ** The errors of a computation *)

Section RaisesOnly.

Context (E : Error → Prop).

Lemma raises_only_ret {A} (a : A) : raises_only E (ret a).
Proof. intros s e H. discriminate. Qed.

Lemma raises_only_raise {A} e : E e → raises_only E (@raise A e).
Proof. intros He s e' H. injection H as <-. exact He. Qed.

Lemma raises_only_get {A} (f : State → A) : raises_only E (get f).
Proof. intros s e H. discriminate. Qed.

Lemma raises_only_modify f : raises_only E (modify f).
Proof. intros s e H. discriminate. Qed.

Lemma raises_only_bind {A B} (m : M A) (k : A → M B) :
  raises_only E m → (∀ a, raises_only E (k a)) → raises_only E (bind m k).
Proof.
  intros Hm Hk s e. unfold bind. pose proof (Hm s) as Hms.
  destruct (m s) as [s1 [a|e1]]; simpl in *.
  - apply Hk.
  - intros H. injection H as <-. apply Hms. reflexivity.
Qed.

Lemma raises_only_for_each {A} (l : list A) (body : A → M unit) :
  (∀ x, raises_only E (body x)) → raises_only E (for_each l body).
Proof.
  intros Hb. induction l as [|x l IH]; simpl.
  - apply raises_only_ret.
  - apply raises_only_bind; [apply Hb | intros _; exact IH].
Qed.

End RaisesOnly.

Lemma raises_only_weaken (E E' : Error → Prop) {A} (m : M A) :
  (∀ e, E e → E' e) → raises_only E m → raises_only E' m.
Proof. intros HE Hm s e H. apply HE, (Hm s e H). Qed.

Lemma raises_only_setattr cls key r :
  raises_only (λ e, e = TypeError) (setattr_cascade cls key r).
Proof.
  unfold setattr_cascade.
  destruct (decide (cls = object_)); [apply raises_only_raise; reflexivity|].
  apply raises_only_bind; [apply raises_only_get|]. intros old.
  apply raises_only_bind; [apply raises_only_modify|].
  intros; apply raises_only_modify.
Qed.

Lemma raises_only_declare_schema cls ns a :
  raises_only (λ e, e = TypeError) (declare_schema cls ns a).
Proof.
  unfold declare_schema.
  apply raises_only_bind.
  { unfold namespace_signal. destruct (dict_get ns _).
    - apply raises_only_ret.
    - intros s e H. discriminate. }
  intros nsc. apply raises_only_bind.
  { destruct (_cascade _); [|apply raises_only_ret].
    apply raises_only_bind; [apply raises_only_modify|]. intros _.
    apply raises_only_bind.
    { unfold make_cascade. apply raises_only_bind; [|intros; apply raises_only_ret].
      intros s e H. discriminate. }
    intros f. apply raises_only_bind; [|intros; apply raises_only_modify].
    apply raises_only_setattr. }
  intros _. apply raises_only_bind.
  { unfold make_all_cascade. apply raises_only_bind; [|intros; apply raises_only_ret].
    intros s e H. discriminate. }
  intros g. apply raises_only_bind; [apply raises_only_setattr|].
  intros _. apply raises_only_bind; [apply raises_only_modify|].
  intros; apply raises_only_ret.
Qed.

Lemma raises_only_declare_all cls l : ∀ ns,
  raises_only (λ e, e = TypeError) (declare_all cls ns l).
Proof.
  induction l as [|a l IH]; intros ns; simpl.
  - apply raises_only_ret.
  - apply raises_only_bind; [apply raises_only_declare_schema | intros; apply IH].
Qed.

(** The decorator raises for what is no class and for [object], whose
    attributes cannot be set, and for nothing else. *)
Lemma raises_only_signals args cls :
  raises_only (λ e, e = TypeError) (signals args cls).
Proof.
  unfold signals, signals_decorator.
  apply raises_only_bind; [apply raises_only_get|]. intros known.
  destruct (negb known); [apply raises_only_raise; reflexivity|].
  apply raises_only_bind; [apply raises_only_modify|]. intros _.
  apply raises_only_bind; [apply raises_only_get|]. intros has.
  apply raises_only_bind; [apply raises_only_get|]. intros inh.
  apply raises_only_bind; [apply raises_only_declare_all|]. intros ns.
  apply raises_only_bind; [|intros _; apply raises_only_ret].
  unfold setattr_namespace.
  destruct (decide (cls = object_)); [apply raises_only_raise; reflexivity|].
  apply raises_only_modify.
Qed.

Lemma raises_only_init clz :
  raises_only (λ e, e = TypeError) (init_class_signals clz).
Proof.
  unfold init_class_signals.
  apply raises_only_bind; [apply raises_only_get|]. intros reg.
  destruct reg; [apply raises_only_ret|].
  apply raises_only_bind; [apply raises_only_signals|].
  intros; apply raises_only_ret.
Qed.

Lemma raises_only_Signaler_signals cls :
  raises_only (λ e, e = AttributeError ∨ e = ValueError NamespaceNotDefined)
    (Signaler_signals cls).
Proof.
  intros s e. unfold Signaler_signals.
  destruct (issubclass s cls Signaler); [|simpl; intros H; injection H as <-; auto].
  destruct (getattr_namespace s cls); simpl; [discriminate|].
  intros H; injection H as <-; auto.
Qed.

Lemma raises_only_connect_class_signal clz nm fn :
  raises_only connect_error (connect_class_signal clz nm fn).
Proof.
  unfold connect_class_signal.
  apply raises_only_bind.
  { eapply raises_only_weaken; [|apply raises_only_init].
    intros e ->. left. reflexivity. }
  intros _. apply raises_only_bind.
  { eapply raises_only_weaken; [|apply raises_only_Signaler_signals].
    intros e [->| ->]; unfold connect_error; auto. }
  intros ns. destruct (dict_get ns nm).
  - apply raises_only_bind; [apply raises_only_modify|].
    intros; apply raises_only_ret.
  - apply raises_only_raise. unfold connect_error. auto.
Qed.

Lemma raises_only_connect_and_collect fn nm cs : ∀ found,
  raises_only connect_error (connect_and_collect fn nm cs found).
Proof.
  induction cs as [|c cs IH]; intros found; simpl.
  - apply raises_only_ret.
  - apply raises_only_bind; [apply raises_only_connect_class_signal|]. intros _.
    apply raises_only_bind; [apply raises_only_get|]. intros subs. apply IH.
Qed.

Lemma raises_only_connect_each fn nm (l : list ClassId) :
  raises_only connect_error
    (for_each l (λ c, connect_class_signal c nm fn ;;; ret ())).
Proof.
  apply raises_only_for_each. intros x.
  apply raises_only_bind; [apply raises_only_connect_class_signal|].
  intros; apply raises_only_ret.
Qed.

(** ** The errors of a transitive connection *)

Lemma connect_subclasses_fn_need_class depth fn : ∀ cs nm s,
  (connect_subclasses_fn depth fn cs nm s).2 = Raise (ValueError NeedClass) →
  cs = [].
Proof.
  induction depth as [|d IH]; intros cs nm s; [discriminate|].
  destruct cs as [|c cs]; [reflexivity|]. intros H. exfalso.
  rewrite connect_subclasses_fn_S in H.
  set (n := default (fn_name fn) nm) in *.
  unfold bind at 1 in H.
  pose proof (raises_only_connect_and_collect fn n (c :: cs) [] s) as Hc.
  destruct (connect_and_collect fn n (c :: cs) [] s) as [s1 [found|e]].
  2:{ simpl in H. injection H as ->. specialize (Hc _ eq_refl).
      destruct Hc as [?|[?|[?|?]]]; discriminate. }
  unfold bind at 1 in H.
  pose proof (raises_only_connect_each fn n found s1) as Hf.
  destruct (for_each found _ s1) as [s2 [[]|e]].
  2:{ simpl in H. injection H as ->. specialize (Hf _ eq_refl).
      destruct Hf as [?|[?|[?|?]]]; discriminate. }
  unfold bind at 1 in H.
  destruct found as [|y found]; [discriminate|].
  unfold bind at 1 in H.
  pose proof (IH (y :: found) (Some n) s2) as Hrec.
  destruct (connect_subclasses_fn d fn (y :: found) (Some n) s2) as [s3 [r|e]].
  - discriminate.
  - simpl in H. injection H as ->. specialize (Hrec eq_refl). discriminate.
Qed.

(** Connecting to the subclasses of no class raises the error that asks for
    a class and changes nothing; given a class, whatever it is, the call
    never raises that error, at no depth of the recursion. *)
Theorem connect_subclasses_need_class_iff (s : State) (cs : list ClassId)
    (nm : option string) (h : Handler) :
  (outcome (connect_subclasses cs nm h) s = Raise (ValueError NeedClass)
   ↔ cs = [])
  ∧ exec (connect_subclasses [] nm h) s = s.
Proof.
  split; [split|reflexivity].
  - apply connect_subclasses_fn_need_class.
  - intros ->. reflexivity.
Qed.

Lemma subclasses_hier s s' c : hier s' = hier s → subclasses s' c = subclasses s c.
Proof.
  intros E. unfold subclasses. rewrite (hier_length _ _ E).
  apply list_filter_iff. intros d. rewrite !bases_of_hier, E. reflexivity.
Qed.

Lemma collect_found fn nm l : ∀ found s s' found',
  connect_and_collect fn nm l found s = (s', Ok found') →
  ∀ Y, Y ∈ found' → Y ∈ found ∨ ∃ X, X ∈ l ∧ Y ∈ subclasses s X.
Proof.
  induction l as [|c l IH]; intros found s s' found'; simpl.
  - intros E. injection E as <- <-. auto.
  - unfold bind at 1.
    pose proof (keeps_hier_exec (connect_class_signal c nm fn) s
                  (keeps_hier_connect_class_signal c nm fn)) as Hh.
    unfold exec in Hh.
    destruct (connect_class_signal c nm fn s) as [s1 [r|e]]; [|discriminate].
    simpl in Hh. unfold bind, get. intros E Y HY.
    destruct (IH _ _ _ _ E Y HY) as [Hin|(X & HX & Hsub)].
    + apply list_elem_of_union in Hin as [?|Hin]; [auto|].
      right. exists c. split; [left|]. rewrite <- (subclasses_hier _ _ c Hh). exact Hin.
    + right. exists X. split; [right; exact HX|].
      rewrite <- (subclasses_hier _ _ X Hh). exact Hsub.
Qed.

Lemma connect_subclasses_fn_depth fn depth : ∀ l nm s k,
  Wf s → 0 < depth → (∀ X, X ∈ l → k ≤ X) →
  length (classes s) < depth + k →
  (connect_subclasses_fn depth fn l nm s).2 ≠ Raise RecursionError.
Proof.
  induction depth as [|d IH]; intros l nm s k W Hd Hl Hlen; [lia|].
  rewrite connect_subclasses_fn_S.
  destruct l as [|c l]; [discriminate|].
  set (n := default (fn_name fn) nm) in *.
  unfold bind at 1.
  pose proof (raises_only_connect_and_collect fn n (c :: l) [] s) as Hc.
  pose proof (collect_found fn n (c :: l) [] s) as Hfound.
  pose proof (keeps_hier_exec (connect_and_collect fn n (c :: l) []) s
                (keeps_hier_connect_and_collect fn n (c :: l) [])) as Hh1.
  unfold exec in Hh1.
  destruct (connect_and_collect fn n (c :: l) [] s) as [s1 [found|e]].
  2:{ simpl. intros H. injection H as ->. specialize (Hc _ eq_refl).
      destruct Hc as [?|[?|[?|?]]]; discriminate. }
  simpl in Hh1. specialize (Hfound s1 found eq_refl).
  unfold bind at 1.
  pose proof (raises_only_connect_each fn n found s1) as Hf.
  pose proof (keeps_hier_exec
                (for_each found (λ c, connect_class_signal c n fn ;;; ret ())) s1)
    as Hh2.
  unfold exec in Hh2.
  destruct (for_each found _ s1) as [s2 [[]|e]].
  2:{ simpl. intros H. injection H as ->. specialize (Hf _ eq_refl).
      destruct Hf as [?|[?|[?|?]]]; discriminate. }
  simpl in Hh2.
  assert (Hh : hier s2 = hier s).
  { rewrite Hh2, Hh1; [reflexivity|].
    intros H. apply preserves_for_each. intros x.
    apply preserves_bind; [apply keeps_hier_connect_class_signal
                          | intros; apply preserves_ret]. }
  unfold bind at 1.
  destruct found as [|y found]; [discriminate|].
  unfold bind at 1.
  assert (Hsub : ∀ Y, Y ∈ y :: found → S k ≤ Y ∧ Y < length (classes s)).
  { intros Y HY. destruct (Hfound Y HY) as [Hn|(X & HX & HYX)].
    - apply elem_of_nil in Hn. destruct Hn.
    - apply elem_of_subclasses in HYX.
      pose proof (bases_of_known _ _ _ HYX).
      destruct (W Y X HYX) as [Hlt _]. specialize (Hl X HX). lia. }
  assert (Hrec : (connect_subclasses_fn d fn (y :: found) (Some n) s2).2
                 ≠ Raise RecursionError).
  { destruct (Hsub y ltac:(left)) as [Hy1 Hy2].
    apply (IH _ _ _ (S k)).
    - apply (Wf_hier s); assumption.
    - lia.
    - intros Y HY. apply Hsub, HY.
    - rewrite (hier_length _ _ Hh). lia. }
  destruct (connect_subclasses_fn d fn (y :: found) (Some n) s2) as [s3 [r|e]].
  - discriminate.
  - simpl in *. congruence.
Qed.

(** The recursion of a transitive connection ends: a class is younger than
    its bases, so every level of the recursion leaves fewer classes to go
    to, and one level per class is never used up. *)
Theorem connect_subclasses_terminates (s : State) (cs : list ClassId)
    (nm : option string) (h : Handler) :
  reachable s →
  outcome (connect_subclasses cs nm h) s ≠ Raise RecursionError.
Proof.
  intros Hr. apply reachable_Wf in Hr.
  unfold outcome, connect_subclasses.
  apply (connect_subclasses_fn_depth h _ cs nm s 0 Hr); [lia| intros; lia | lia].
Qed.

Lemma connect_subclasses_terminates_witness :
  outcome (connect_subclasses [3] (Some "created") on_created)
    (run prog_subclasses initial) ≠ Raise RecursionError.
Proof.
  apply connect_subclasses_terminates, reachable_run, reachable_initial.
Defined.

(** ** Connecting twice *)

Lemma dict_set_set {V} (d : dict V) k v v' :
  dict_set (dict_set d k v) k v' = dict_set d k v'.
Proof.
  induction d as [|[k0 v0] d IH]; simpl.
  - rewrite decide_True by reflexivity. reflexivity.
  - destruct (decide (k = k0)) as [->|Hne]; simpl.
    + rewrite decide_True by reflexivity. reflexivity.
    + rewrite decide_False by exact Hne. rewrite IH. reflexivity.
Qed.

Lemma connect_handler_idem fn hs :
  connect_handler fn (connect_handler fn hs) = connect_handler fn hs.
Proof.
  unfold connect_handler at 1.
  rewrite decide_True by apply elem_of_connect_handler. reflexivity.
Qed.

Lemma elem_of_connect_handler_old fn hs h : h ∈ hs → h ∈ connect_handler fn hs.
Proof.
  intros H. unfold connect_handler. destruct (decide (fn ∈ hs)); [exact H|].
  apply elem_of_app. left. exact H.
Qed.

(** [connect_base_signal] always returns the function; it makes the base
    signal if there was none; the function is a receiver of it afterwards,
    the receivers it had stay, the other base signals are what they were;
    and a second connection of the same function changes nothing. *)
Theorem connect_base_signal_idempotent (s : State) (nm : string)
    (fn : Handler) :
  let s1 := exec (connect_base_signal nm fn) s in
  outcome (connect_base_signal nm fn) s = Ok fn
  ∧ is_Some (dict_get (base_signals s1) nm)
  ∧ fn ∈ base_receivers s1 nm
  ∧ (∀ h, h ∈ base_receivers s nm → h ∈ base_receivers s1 nm)
  ∧ (∀ nm', nm' ≠ nm →
       dict_get (base_signals s1) nm' = dict_get (base_signals s) nm')
  ∧ exec (connect_base_signal nm fn) s1 = s1.
Proof.
  intros s1. split; [reflexivity|]. split; [|split; [|split; [|split]]].
  - unfold s1, exec, connect_base_signal, bind, modify. simpl.
    rewrite dict_get_set_eq. eauto.
  - unfold s1. rewrite base_receivers_connect. apply elem_of_connect_handler.
  - intros h Hh. unfold s1. rewrite base_receivers_connect.
    apply elem_of_connect_handler_old, Hh.
  - intros nm' Hne. unfold s1, exec, connect_base_signal, bind, modify. simpl.
    apply dict_get_set_ne. exact Hne.
  - unfold s1, exec, connect_base_signal, bind, modify, set_base_signals. simpl.
    rewrite dict_get_set_eq. simpl. rewrite connect_handler_idem, dict_set_set.
    reflexivity.
Qed.

Lemma connect_receiver_idem r sg :
  connect_receiver r (connect_receiver r sg) = connect_receiver r sg.
Proof.
  unfold connect_receiver at 1.
  rewrite decide_True; [reflexivity|].
  apply elem_of_connect_receiver. left. reflexivity.
Qed.

Lemma signal_connect_idem c r s :
  exec (signal_connect c r) (exec (signal_connect c r) s)
  = exec (signal_connect c r) s.
Proof.
  unfold exec, signal_connect, modify, set_heap. simpl. f_equal.
  apply list_eq. intros i. destruct (decide (c = i)) as [->|Hne].
  - rewrite !list_lookup_alter_eq.
    destruct (heap s !! i); simpl; [|reflexivity].
    rewrite connect_receiver_idem. reflexivity.
  - rewrite !list_lookup_alter_ne by exact Hne. reflexivity.
Qed.

(** Connecting the same function to the same class under the same name a
    second time changes nothing and ends as the first time did, whether
    that was with the function or with the signal-not-defined error. *)
Theorem connect_class_signal_idempotent (s : State) (T : ClassId)
    (n : string) (h : Handler) :
  reachable s → issubclass s T Signaler = true →
  let m := connect_class_signal T n h in
  exec m (exec m s) = exec m s ∧ outcome m (exec m s) = outcome m s.
Proof.
  intros Hr Hsub m. apply reachable_Inv in Hr.
  destruct (connect_class_signal_spec T n h s Hr Hsub)
    as (s1 & ns & Hinit & HI1 & F1 & _ & Hns1 & Hin1 & Heq).
  assert (Hsub1 : issubclass s1 T Signaler = true)
    by (rewrite (Frame_issubclass _ _ _ _ F1); exact Hsub).
  destruct (dict_get ns n) as [c|] eqn:Hn.
  - set (s2 := exec (signal_connect c (User h)) s1) in *.
    assert (HI2 : Inv s2) by (apply Inv_signal_connect_user, HI1).
    assert (Hsub2 : issubclass s2 T Signaler = true) by exact Hsub1.
    destruct (connect_class_signal_spec T n h s2 HI2 Hsub2)
      as (s3 & ns3 & Hinit3 & _ & _ & _ & Hns3 & _ & Heq3).
    destruct (init_class_signals_spec T s2 HI2 (issubclass_known _ _ _ Hsub2)
                (Inv_not_object _ _ HI2 Hsub2))
      as (s3' & ns3' & Hinit3' & _ & _ & _ & _ & _ & Hsame & _).
    assert (s3 = s2) as ->.
    { assert (s3' = s2) by (apply Hsame; exact Hin1). congruence. }
    assert (ns3 = ns) as ->.
    { change (own_namespace s2 T) with (own_namespace s1 T) in Hns3. congruence. }
    rewrite Hn in Heq3.
    unfold m, exec, outcome. rewrite Heq. simpl. rewrite Heq3. simpl.
    split; [apply signal_connect_idem | reflexivity].
  - destruct (connect_class_signal_spec T n h s1 HI1 Hsub1)
      as (s3 & ns3 & Hinit3 & _ & _ & _ & Hns3 & _ & Heq3).
    destruct (init_class_signals_spec T s1 HI1 (issubclass_known _ _ _ Hsub1)
                (Inv_not_object _ _ HI1 Hsub1))
      as (s3' & ns3' & Hinit3' & _ & _ & _ & _ & _ & Hsame & _).
    assert (s3 = s1) as ->.
    { assert (s3' = s1) by (apply Hsame; exact Hin1). congruence. }
    assert (ns3 = ns) as -> by congruence.
    rewrite Hn in Heq3.
    unfold m, exec, outcome. rewrite Heq. simpl. rewrite Heq3. simpl. auto.
Qed.

Lemma connect_class_signal_idempotent_witness :
  let s := run prog_undeclared initial in
  let m := connect_class_signal 3 "created" on_created in
  exec m (exec m s) = exec m s ∧ outcome m (exec m s) = outcome m s.
Proof.
  intros s. apply (connect_class_signal_idempotent s 3 "created" on_created).
  - apply reachable_run, reachable_initial.
  - vm_compute. reflexivity.
Defined.

(** ** Connecting to several classes *)

Lemma connect_declared T n h s ns :
  Inv s → issubclass s T Signaler = true →
  own_namespace s T = Some ns → is_Some (dict_get ns n) →
  ∃ c, dict_get ns n = Some c
    ∧ connect_class_signal T n h s = (exec (signal_connect c (User h)) s, Ok h).
Proof.
  intros H Hsub Hns [c Hc].
  destruct (connect_class_signal_spec T n h s H Hsub)
    as (s1 & ns1 & Hinit & _ & _ & _ & Hns1 & _ & Heq).
  destruct (init_class_signals_spec T s H (issubclass_known _ _ _ Hsub)
              (Inv_not_object _ _ H Hsub))
    as (s1' & ns1' & Hinit' & _ & _ & _ & _ & _ & Hsame & _).
  assert (s1 = s) as ->.
  { assert (s1' = s) by (apply Hsame, Inv_has_table; eauto). congruence. }
  assert (ns1 = ns) as -> by congruence.
  rewrite Hc in Heq. exists c. auto.
Qed.

Lemma connect_each_declared n h l : ∀ s,
  Inv s →
  (∀ T, T ∈ l → issubclass s T Signaler = true
                ∧ ∃ ns, own_namespace s T = Some ns ∧ is_Some (dict_get ns n)) →
  ∃ s', for_each l (λ c, connect_class_signal c n h ;;; ret ()) s = (s', Ok ())
    ∧ Frame s s'
    ∧ classes s' = classes s ∧ signal_classes s' = signal_classes s
    ∧ base_signals s' = base_signals s ∧ calls s' = calls s
    ∧ ∀ T, T ∈ l → Connected s' n h T.
Proof.
  induction l as [|T l IH]; intros s H Hall.
  - exists s. simpl. split; [reflexivity|]. split; [apply Frame_refl|].
    repeat (split; [reflexivity|]). intros T HT. apply elem_of_nil in HT. destruct HT.
  - destruct (Hall T ltac:(left)) as (Hsub & ns & Hns & Hn).
    destruct (connect_declared T n h s ns H Hsub Hns Hn) as (c & Hc & Heq).
    set (s1 := exec (signal_connect c (User h)) s) in *.
    assert (HI1 : Inv s1) by (apply Inv_signal_connect_user, H).
    destruct (IH s1 HI1) as (s' & Hrun & F & Hcl & Hsc & Hb & Hca & Hconn).
    { intros X HX. apply (Hall X). right. exact HX. }
    exists s'. simpl. unfold bind at 1. unfold bind at 1. rewrite Heq. simpl.
    split; [exact Hrun|].
    split; [eapply Frame_trans; [apply Frame_signal_connect_user|exact F]|].
    split; [rewrite Hcl; reflexivity|]. split; [rewrite Hsc; reflexivity|].
    split; [rewrite Hb; reflexivity|]. split; [rewrite Hca; reflexivity|].
    intros X HX. apply elem_of_cons in HX as [->|HX]; [|apply Hconn, HX].
    apply (Connected_Frame s1 s' n h T F).
    destruct (inv_tables _ H T ns Hns n c Hc) as (sg & Hsg & _).
    exists ns, c, (connect_receiver (User h) sg).
    split; [exact Hns|]. split; [exact Hc|]. split.
    + unfold s1, exec, signal_connect, modify. simpl.
      rewrite list_lookup_alter_eq, Hsg. reflexivity.
    + apply elem_of_connect_receiver. left. reflexivity.
Qed.

(** [connect] given classes that are all declared with the name: the
    function is returned and is connected to the signal of that name of
    each of the classes; no class is declared on the way, no base signal is
    touched and no handler is called. *)
Theorem connect_declared_classes (s : State) (cs : list ClassId)
    (nm : option string) (h : Handler) :
  reachable s → cs ≠ [] →
  (∀ T, T ∈ cs →
     issubclass s T Signaler = true
     ∧ ∃ ns, own_namespace s T = Some ns
             ∧ is_Some (dict_get ns (default (fn_name h) nm))) →
  let s' := exec (connect cs nm h) s in
  outcome (connect cs nm h) s = Ok h
  ∧ (∀ T, T ∈ cs → Connected s' (default (fn_name h) nm) h T)
  ∧ classes s' = classes s ∧ signal_classes s' = signal_classes s
  ∧ base_signals s' = base_signals s ∧ calls s' = calls s.
Proof.
  intros Hr Hne Hall s'. apply reachable_Inv in Hr.
  destruct (connect_each_declared (default (fn_name h) nm) h cs s Hr Hall)
    as (s1 & Hrun & _ & Hcl & Hsc & Hb & Hca & Hconn).
  assert (E : connect cs nm h s = (s1, Ok h)).
  { unfold connect. destruct cs as [|c cs]; [done|].
    unfold bind at 1. rewrite Hrun. reflexivity. }
  unfold s', outcome, exec. rewrite E. simpl. auto 10.
Qed.

Lemma connect_declared_classes_witness :
  let s := run prog_undeclared_subclass initial in
  let s' := exec (connect [3] (Some "created") on_created) s in
  outcome (connect [3] (Some "created") on_created) s = Ok on_created
  ∧ (∀ T, T ∈ [3] → Connected s' "created" on_created T)
  ∧ classes s' = classes s ∧ signal_classes s' = signal_classes s
  ∧ base_signals s' = base_signals s ∧ calls s' = calls s.
Proof.
  intros s.
  apply (connect_declared_classes s [3] (Some "created") on_created).
  - apply reachable_run, reachable_initial.
  - discriminate.
  - intros T HT. apply list_elem_of_singleton in HT. subst T.
    split; [vm_compute; reflexivity|].
    exists [("created", 0)]. split; [vm_compute; reflexivity|].
    simpl. eauto.
Defined.

(** ** The calls of an emission *)

Lemma elem_of_concat {A} (x : A) (ls : list (list A)) :
  x ∈ concat ls ↔ ∃ l, x ∈ l ∧ l ∈ ls.
Proof.
  induction ls as [|l ls IH]; simpl.
  - split; [intros H; apply elem_of_nil in H; destruct H|].
    intros (l & _ & H). apply elem_of_nil in H. destruct H.
  - rewrite elem_of_app, IH. split.
    + intros [H|(l' & H & Hl')]; [exists l; split; [exact H|left]|].
      exists l'. split; [exact H|right; exact Hl'].
    + intros (l' & H & Hl'). apply elem_of_cons in Hl' as [->|Hl']; [auto|].
      right. eauto.
Qed.

Lemma signal_send_run s p ns n c sender kw :
  Inv s → own_namespace s p = Some ns → dict_get ns n = Some c →
  ∃ sg D r, heap s !! c = Some sg
    ∧ signal_send c sender kw s
      = (if decide (length sender ≤ 1) then (add_calls D s, r)
         else (s, Raise TypeError))
    ∧ (∀ x, x ∈ D →
         ∃ rcv, rcv ∈ receivers sg
                ∧ x ∈ receiver_calls s c (default NoSender (head sender)) kw rcv)
    ∧ ("sender" ∉ dict_keys kw →
       D = concat (map (receiver_calls s c (default NoSender (head sender)) kw)
                       (receivers sg))
       ∧ r = Ok ()).
Proof.
  intros H Hns Hn.
  destruct (inv_tables _ H p ns Hns n c Hn) as (sg & Hsg & _).
  assert (Hrun : ∃ D r,
            (h <~ get heap ;;
             match h !! c with
             | None => raise AttributeError
             | Some sg => for_each (receivers sg)
                            (λ r, call_receiver c r (default NoSender (head sender)) kw)
             end) s = (add_calls D s, r)
            ∧ (∀ x, x ∈ D →
                 ∃ rcv, rcv ∈ receivers sg
                        ∧ x ∈ receiver_calls s c (default NoSender (head sender))
                                kw rcv)
            ∧ ("sender" ∉ dict_keys kw →
               D = concat (map (receiver_calls s c
                                  (default NoSender (head sender)) kw)
                               (receivers sg))
               ∧ r = Ok ())).
  { unfold bind, get. rewrite Hsg.
    destruct (decide ("sender" ∈ dict_keys kw)) as [Hs|Hs].
    - destruct (for_each_call_receiver_refused c (default NoSender (head sender))
                  kw (receivers sg) s Hs) as (D & r & E & HD).
      exists D, r. split; [exact E|]. split; [exact HD|]. intros Hs'. done.
    - eexists _, _. split; [apply for_each_call_receiver; [exact Hs|]|].
      + intros r Hr. eapply table_targets_known; eauto.
      + split; [|intros _; split; reflexivity].
        intros x Hx. apply elem_of_concat in Hx as (l & Hx & Hl).
        apply list_elem_of_fmap in Hl as (rcv & -> & Hrcv). eauto. }
  destruct Hrun as (D & r & E & HD & Hfull).
  exists sg, D, r. split; [exact Hsg|]. split; [|split; [exact HD | exact Hfull]].
  unfold signal_send.
  destruct sender as [|x [|y l]]; simpl length.
  - rewrite decide_True by lia. exact E.
  - rewrite decide_True by lia. exact E.
  - rewrite decide_False by lia. reflexivity.
Qed.

Lemma effective_sender_default T sender :
  default NoSender
    (head (match sender with [] => [SenderClass T] | _ => sender end))
  = effective_sender T sender.
Proof. destruct sender; reflexivity. Qed.

Lemma length_default_sender (T : ClassId) (sender : list Sender) :
  length (match sender with [] => [SenderClass T] | _ => sender end) ≤ 1
  ↔ length sender ≤ 1.
Proof. destruct sender; simpl; lia. Qed.

(** What an emission does, whatever its outcome: a lazy declaration at
    most, which calls nothing, and then either nothing, or one call of
    every receiver of the signal the class shows for the name. *)
Lemma send_cls_signal_calls s T sig sender cond kw :
  Inv s → issubclass s T Signaler = true → payload_ok kw →
  ∃ s1, Inv s1 ∧ Frame s s1 ∧ Quiet s s1
    ∧ (T ∈ signal_classes s → s1 = s)
    ∧ ((∃ r, send_cls_signal T sig sender cond kw s = (s1, r)
             ∧ (cond = true → length sender ≤ 1 → r ≠ Ok ()))
       ∨ (cond = false ∧ send_cls_signal T sig sender cond kw s = (s, Ok ())
          ∧ s1 = s)
       ∨ ∃ p ns c sg D r,
           cond = true ∧ length sender ≤ 1
           ∧ getattr_namespace s1 T = Some ns ∧ own_namespace s1 p = Some ns
           ∧ dict_get ns (_name sig) = Some c ∧ heap s1 !! c = Some sg
           ∧ send_cls_signal T sig sender cond kw s = (add_calls D s1, r)
           ∧ (∀ x, x ∈ D →
                ∃ rcv, rcv ∈ receivers sg
                       ∧ x ∈ receiver_calls s1 c (effective_sender T sender)
                               (("signal", VSchema sig) :: kw) rcv)
           ∧ ("sender" ∉ dict_keys kw →
              D = concat (map (receiver_calls s1 c (effective_sender T sender)
                                 (("signal", VSchema sig) :: kw))
                              (receivers sg))
              ∧ r = Ok ())).
Proof.
  intros H Hsub Hkw.
  remember (send_cls_signal T sig sender cond kw s) as res eqn:Hres.
  destruct cond.
  2:{ exists s. split; [exact H|]. split; [apply Frame_refl|].
      split; [apply Quiet_refl|]. split; [reflexivity|]. right. left.
      split; [reflexivity|]. split; [|reflexivity].
      destruct Hkw as (Hk1 & Hk2 & Hk3). rewrite Hres.
      unfold send_cls_signal, bind, get. rewrite Hsub. simpl.
      rewrite !has_key_false by assumption. reflexivity. }
  destruct (getattr_namespace s T) as [ns|] eqn:Hns.
  2:{ exists s. split; [exact H|]. split; [apply Frame_refl|].
      split; [apply Quiet_refl|]. split; [reflexivity|]. left.
      exists (Raise (ValueError NamespaceNotDefined)). split; [|discriminate].
      destruct Hkw as (Hk1 & Hk2 & Hk3). rewrite Hres.
      unfold send_cls_signal, bind, get. rewrite Hsub. simpl.
      rewrite !has_key_false by assumption. simpl.
      unfold Signaler_signals. rewrite Hsub, Hns. reflexivity. }
  rewrite (send_cls_signal_shown s T sig sender kw ns Hsub Hkw Hns) in Hres.
  destruct (dict_get ns (_name sig)) as [c|] eqn:Hn.
  - destruct (getattr_namespace_owner _ _ _ Hns) as (p & _ & Hp).
    destruct (signal_send_run s p ns (_name sig) c
                (match sender with [] => [SenderClass T] | _ => sender end)
                (("signal", VSchema sig) :: kw) H Hp Hn)
      as (sg & D & r & Hsg & Hrun & HD & Hfull).
    rewrite Hrun in Hres. rewrite effective_sender_default in HD, Hfull.
    rewrite sender_key_signal in Hfull.
    exists s. split; [exact H|]. split; [apply Frame_refl|].
    split; [apply Quiet_refl|]. split; [reflexivity|].
    destruct (decide _) as [Hle|Hgt].
    + right. right. exists p, ns, c, sg, D, r.
      apply length_default_sender in Hle. auto 10.
    + left. eexists. split; [exact Hres|]. intros _ Hle.
      exfalso. apply Hgt, length_default_sender, Hle.
  - destruct (init_class_signals_spec T s H (issubclass_known _ _ _ Hsub)
                (Inv_not_object _ _ H Hsub))
      as (s1 & ns1 & Hinit & HI1 & F & Q & Hns1 & Hin1 & Hsame & _).
    exists s1. split; [exact HI1|]. split; [exact F|]. split; [exact Q|].
    split; [exact Hsame|].
    assert (Hsub1 : issubclass s1 T Signaler = true)
      by (rewrite (Frame_issubclass _ _ _ _ F); exact Hsub).
    pose proof (getattr_namespace_own _ _ _ Hns1) as Hg1.
    unfold bind at 1 in Hres. rewrite Hinit in Hres.
    unfold bind at 1 in Hres. unfold Signaler_signals at 1 in Hres.
    rewrite Hsub1, Hg1 in Hres.
    destruct (dict_get ns1 (_name sig)) as [c|] eqn:Hn1.
    + assert (Hm : dict_mem ns1 (_name sig) = true) by (apply dict_mem_true; eauto).
      rewrite Hm in Hres. unfold bind at 1 in Hres. unfold ret at 1 in Hres.
      unfold bind at 1 in Hres. unfold Signaler_signals at 1 in Hres.
      rewrite Hsub1, Hg1, Hn1 in Hres.
      destruct (signal_send_run s1 T ns1 (_name sig) c
                  (match sender with [] => [SenderClass T] | _ => sender end)
                  (("signal", VSchema sig) :: kw) HI1 Hns1 Hn1)
        as (sg & D & r & Hsg & Hrun & HD & Hfull).
      rewrite Hrun in Hres. rewrite effective_sender_default in HD, Hfull.
      rewrite sender_key_signal in Hfull.
      destruct (decide _) as [Hle|Hgt].
      * right. right. exists T, ns1, c, sg, D, r.
        apply length_default_sender in Hle. auto 10.
      * left. eexists. split; [exact Hres|]. intros _ Hle.
        exfalso. apply Hgt, length_default_sender, Hle.
    + assert (Hm : dict_mem ns1 (_name sig) = false) by (apply dict_mem_false; exact Hn1).
      rewrite Hm in Hres. left. eexists. split; [exact Hres|]. discriminate.
Qed.

Lemma new_calls_quiet {A} (m : M A) s s1 r :
  calls s1 = calls s → m s = (s1, r) → new_calls m s = [].
Proof.
  intros Hc E. unfold new_calls, exec. rewrite E. simpl. rewrite Hc.
  apply drop_all.
Qed.

Lemma new_calls_quiet_add {A} (m : M A) s s1 d r :
  calls s1 = calls s → m s = (add_calls d s1, r) → new_calls m s = d.
Proof.
  intros Hc E. unfold new_calls, exec. rewrite E. simpl. rewrite Hc.
  apply drop_app_length.
Qed.

Lemma elem_of_receiver_calls s c sender kw r x :
  x ∈ receiver_calls s c sender kw r →
  call_sender x = sender ∧ call_kwargs x = kw
  ∧ match r with
    | User h => x = class_call c sender kw h
    | CascadePadre _ t | AllCascadePadre _ t =>
        call_via x = ViaBaseSignal t ∧ call_fn x ∈ base_receivers s t
    end.
Proof.
  destruct r as [h|f t|f t]; simpl.
  - intros Hx. apply list_elem_of_singleton in Hx. subst x. auto.
  - unfold base_calls. intros Hx. apply list_elem_of_fmap in Hx as (h & -> & Hh).
    simpl. auto.
  - unfold base_calls. intros Hx. apply list_elem_of_fmap in Hx as (h & -> & Hh).
    simpl. auto.
Qed.

Lemma send_cls_signal_payload s T sig sender cond kw x :
  Inv s → issubclass s T Signaler = true → payload_ok kw →
  x ∈ new_calls (send_cls_signal T sig sender cond kw) s →
  call_sender x = effective_sender T sender
  ∧ call_kwargs x = ("signal", VSchema sig) :: kw.
Proof.
  intros Hr Hsub Hkw.
  destruct (send_cls_signal_calls s T sig sender cond kw Hr Hsub Hkw)
    as (s1 & HI1 & F & Q & _ & [(r & E & _)|[(_ & E & ->)|
        (p & ns & c & sg & D & r & _ & _ & Hns & Hp & Hn & Hsg & E & HD & _)]]).
  - rewrite (new_calls_quiet _ s s1 r (q_calls _ _ Q) E).
    intros Hx. apply elem_of_nil in Hx. destruct Hx.
  - rewrite (new_calls_quiet _ s s (Ok ()) eq_refl E).
    intros Hx. apply elem_of_nil in Hx. destruct Hx.
  - rewrite (new_calls_quiet_add _ s s1 _ _ (q_calls _ _ Q) E).
    intros Hx. destruct (HD x Hx) as (rcv & _ & Hxr).
    apply elem_of_receiver_calls in Hxr as (? & ? & _). auto.
Qed.

(** Every handler an emission calls is given the sender of the emission,
    the class when none was given, and the keywords of the emission with
    the schema added under [signal]. *)
Theorem emission_payload (s : State) (T : ClassId) (sig : SignalSchema)
    (sender : list Sender) (cond : bool) (kw : dict Value) (x : Call) :
  reachable s → issubclass s T Signaler = true → payload_ok kw →
  x ∈ new_calls (send_cls_signal T sig sender cond kw) s →
  call_sender x = effective_sender T sender
  ∧ call_kwargs x = ("signal", VSchema sig) :: kw.
Proof.
  intros Hr. apply send_cls_signal_payload, reachable_Inv, Hr.
Qed.

Lemma emission_payload_witness :
  let s := run prog_universal initial in
  let x := base_call EVENT_TRIGGERED (SenderClass 3)
             [("signal", VSchema created); ("x", VNat 1)] on_any in
  call_sender x = effective_sender 3 []
  ∧ call_kwargs x = ("signal", VSchema created) :: [("x", VNat 1)].
Proof.
  intros s x.
  assert (E : new_calls (send_cls_signal 3 created [] true [("x", VNat 1)]) s
              = [x]) by (vm_compute; reflexivity).
  apply (emission_payload s 3 created [] true [("x", VNat 1)] x).
  - apply reachable_run, reachable_initial.
  - vm_compute. reflexivity.
  - unfold payload_ok. simpl.
    repeat split; intros H; apply list_elem_of_singleton in H; discriminate.
  - rewrite E. left.
Defined.

(** An emission of [n] on a class calls handlers connected to the signal
    the class shows for [n], through that very signal, handlers of the base
    signal [n] and handlers of the base signal named by [EVENT_TRIGGERED],
    and no other handler: no other base signal and no other signal of a
    class is sent to. *)
Theorem emission_routes (s : State) (T : ClassId) (sig : SignalSchema)
    (sender : list Sender) (cond : bool) (kw : dict Value) (x : Call) :
  reachable s → issubclass s T Signaler = true → payload_ok kw →
  let s' := exec (send_cls_signal T sig sender cond kw) s in
  x ∈ new_calls (send_cls_signal T sig sender cond kw) s →
  (∃ ns c sg, getattr_namespace s' T = Some ns
              ∧ dict_get ns (_name sig) = Some c
              ∧ heap s' !! c = Some sg
              ∧ call_via x = ViaClassSignal c
              ∧ User (call_fn x) ∈ receivers sg)
  ∨ (call_via x = ViaBaseSignal (_name sig)
     ∧ call_fn x ∈ base_receivers s' (_name sig))
  ∨ (call_via x = ViaBaseSignal EVENT_TRIGGERED
     ∧ call_fn x ∈ base_receivers s' EVENT_TRIGGERED).
Proof.
  intros Hr Hsub Hkw s'. apply reachable_Inv in Hr.
  destruct (send_cls_signal_calls s T sig sender cond kw Hr Hsub Hkw)
    as (s1 & HI1 & F & Q & _ & [(r & E & _)|[(_ & E & ->)|
        (p & ns & c & sg & D & r & _ & _ & Hns & Hp & Hn & Hsg & E & HD & _)]]).
  - rewrite (new_calls_quiet _ s s1 r (q_calls _ _ Q) E).
    intros Hx. apply elem_of_nil in Hx. destruct Hx.
  - rewrite (new_calls_quiet _ s s (Ok ()) eq_refl E).
    intros Hx. apply elem_of_nil in Hx. destruct Hx.
  - rewrite (new_calls_quiet_add _ s s1 _ _ (q_calls _ _ Q) E).
    assert (Hs' : s' = add_calls D s1).
    { unfold s', exec. rewrite E. reflexivity. }
    assert (Hg' : getattr_namespace s' T = Some ns).
    { rewrite Hs'. exact Hns. }
    assert (Hsg' : heap s' !! c = Some sg).
    { rewrite Hs'. exact Hsg. }
    assert (Hbr : ∀ t, base_receivers s' t = base_receivers s1 t).
    { intros t. rewrite Hs'. reflexivity. }
    intros Hx. destruct (HD x Hx) as (rcv & Hr' & Hxr).
    apply elem_of_receiver_calls in Hxr as (_ & _ & Hxr).
    destruct (inv_tables _ HI1 p ns Hp _ c Hn) as (sg0 & Hsg0 & Hmost & _).
    assert (sg0 = sg) as -> by congruence.
    destruct rcv as [h|f t|f t].
    + left. exists ns, c, sg. subst x. simpl. auto 10.
    + destruct Hxr as [Hv Hf].
      destruct (Hmost _ Hr' I) as [(_ & [f' Ef] & _)|(_ & [f' Ef])]; [|discriminate].
      injection Ef as _ ->. right. left. rewrite Hbr. auto.
    + destruct Hxr as [Hv Hf].
      destruct (Hmost _ Hr' I) as [(_ & [f' Ef] & _)|(_ & [f' Ef])]; [discriminate|].
      injection Ef as _ ->. right. right. rewrite Hbr. auto.
Qed.

Lemma emission_routes_witness :
  let s := run prog_declared_connected initial in
  let s' := exec (send_cls_signal 3 created [] true []) s in
  let x := class_call 0 (SenderClass 3)
             [("signal", VSchema created)] on_created in
  (∃ ns c sg, getattr_namespace s' 3 = Some ns
              ∧ dict_get ns (_name created) = Some c
              ∧ heap s' !! c = Some sg
              ∧ call_via x = ViaClassSignal c
              ∧ User (call_fn x) ∈ receivers sg)
  ∨ (call_via x = ViaBaseSignal (_name created)
     ∧ call_fn x ∈ base_receivers s' (_name created))
  ∨ (call_via x = ViaBaseSignal EVENT_TRIGGERED
     ∧ call_fn x ∈ base_receivers s' EVENT_TRIGGERED).
Proof.
  intros s s' x.
  assert (E : new_calls (send_cls_signal 3 created [] true []) s = [x])
    by (vm_compute; reflexivity).
  apply (emission_routes s 3 created [] true [] x).
  - apply reachable_run, reachable_initial.
  - vm_compute. reflexivity.
  - unfold payload_ok. simpl. repeat split; apply not_elem_of_nil.
  - rewrite E. left.
Defined.

(** An emission on a declared class changes nothing but the log of calls,
    whatever its outcome: it declares nothing, connects nothing and makes
    no signal. *)
Theorem emission_on_declared_logs_only (s : State) (T : ClassId)
    (sig : SignalSchema) (sender : list Sender) (cond : bool)
    (kw : dict Value) :
  reachable s → issubclass s T Signaler = true → payload_ok kw →
  T ∈ signal_classes s →
  let m := send_cls_signal T sig sender cond kw in
  exec m s = add_calls (new_calls m s) s.
Proof.
  intros Hr Hsub Hkw Hin m. apply reachable_Inv in Hr.
  destruct (send_cls_signal_calls s T sig sender cond kw Hr Hsub Hkw)
    as (s1 & HI1 & F & Q & Hsame & [(r & E & _)|[(_ & E & _)|
        (p & ns & c & sg & D & r & _ & _ & Hns & Hp & Hn & Hsg & E & _)]]).
  - rewrite (Hsame Hin) in E.
    unfold m. rewrite (new_calls_quiet _ s s r eq_refl E), add_calls_nil.
    unfold exec. rewrite E. reflexivity.
  - unfold m. rewrite (new_calls_quiet _ s s (Ok ()) eq_refl E), add_calls_nil.
    unfold exec. rewrite E. reflexivity.
  - rewrite (Hsame Hin) in E.
    unfold m. rewrite (new_calls_quiet_add _ s s _ _ eq_refl E).
    unfold exec. rewrite E. reflexivity.
Qed.

Lemma emission_on_declared_logs_only_witness :
  let s := run prog_universal initial in
  let m := send_cls_signal 3 created [] true [] in
  exec m s = add_calls (new_calls m s) s.
Proof.
  intros s.
  assert (Hr : reachable s) by apply reachable_run, reachable_initial.
  assert (Hcl : signal_namespace <$> classes s
                = [None; None; None; Some [("created", 0)]])
    by (vm_compute; reflexivity).
  apply (emission_on_declared_logs_only s 3 created [] true []).
  - exact Hr.
  - vm_compute. reflexivity.
  - unfold payload_ok. simpl. repeat split; apply not_elem_of_nil.
  - apply (Inv_has_table s 3 (reachable_Inv s Hr)).
    rewrite own_namespace_fmap, Hcl. simpl. eauto.
Defined.

(** ** A connected handler and an emission *)

Lemma deliveries_class_base c h t sender kw hs :
  deliveries (ViaClassSignal c) h (map (base_call t sender kw) hs) = [].
Proof.
  induction hs as [|x hs IH]; [reflexivity|].
  simpl. unfold deliveries in *. rewrite filter_cons_False; [exact IH|].
  simpl. intros [E _]. discriminate.
Qed.

Lemma deliveries_class_receiver s c c' sender kw h r :
  deliveries (ViaClassSignal c') h (receiver_calls s c sender kw r)
  = if decide (c' = c ∧ r = User h) then [class_call c sender kw h] else [].
Proof.
  destruct r as [h'|f t|f t]; simpl.
  - unfold deliveries. destruct (decide (c' = c ∧ User h' = User h)) as [[-> E]|Hne].
    + injection E as ->. rewrite filter_cons_True by (simpl; auto). reflexivity.
    + rewrite filter_cons_False; [reflexivity|]. simpl. intros [E1 E2].
      apply Hne. split; congruence.
  - rewrite decide_False by (intros [_ ?]; discriminate).
    apply deliveries_class_base.
  - rewrite decide_False by (intros [_ ?]; discriminate).
    apply deliveries_class_base.
Qed.

Lemma deliveries_class_absent s c c' sender kw h l :
  c' ≠ c ∨ User h ∉ l →
  deliveries (ViaClassSignal c') h (concat (map (receiver_calls s c sender kw) l))
  = [].
Proof.
  induction l as [|r l IH]; intros Hni; [reflexivity|].
  simpl. rewrite deliveries_app, deliveries_class_receiver.
  rewrite decide_False.
  - apply IH. destruct Hni as [?|Hni]; [auto|]. right.
    intros Hin. apply Hni. right. exact Hin.
  - intros [-> ->]. destruct Hni as [?|Hni]; [done|]. apply Hni. left.
Qed.

Lemma deliveries_class_once s c sender kw h l :
  NoDup l → User h ∈ l →
  deliveries (ViaClassSignal c) h (concat (map (receiver_calls s c sender kw) l))
  = [class_call c sender kw h].
Proof.
  induction l as [|r l IH]; intros Hnd Hin.
  - apply elem_of_nil in Hin. destruct Hin.
  - apply NoDup_cons in Hnd as [Hni Hnd]. simpl.
    rewrite deliveries_app, deliveries_class_receiver.
    destruct (decide (c = c ∧ r = User h)) as [[_ ->]|Hne].
    + rewrite deliveries_class_absent by (right; exact Hni). reflexivity.
    + simpl. apply IH; [exact Hnd|].
      apply elem_of_cons in Hin as [E|Hin]; [|exact Hin].
      destruct Hne. auto.
Qed.



(** ** Emissions from an instance, and suppressed emissions *)

(** [send_signal] is the emission on the class of the instance, with the
    instance as the sender when none is given: every handler it calls then
    gets the instance, never the class. *)
Theorem instance_emission_sender (s : State) (T : ClassId) (i : nat)
    (sig : SignalSchema) (sender : list Sender) (cond : bool)
    (kw : dict Value) :
  reachable s → issubclass s T Signaler = true →
  "self" ∉ dict_keys kw → payload_ok kw →
  send_signal (T, i) sig sender cond kw s
  = send_cls_signal T sig
      (match sender with [] => [SenderInstance T i] | _ => sender end)
      cond kw s
  ∧ ∀ x, x ∈ new_calls (send_signal (T, i) sig sender cond kw) s →
         call_sender x = default (SenderInstance T i) (head sender).
Proof.
  intros Hr Hsub Hself Hkw.
  assert (E : send_signal (T, i) sig sender cond kw s
              = send_cls_signal T sig
                  (match sender with [] => [SenderInstance T i] | _ => sender end)
                  cond kw s).
  { destruct Hkw as (Hk1 & Hk2 & Hk3).
    unfold send_signal. unfold bind at 1. unfold get. simpl. rewrite Hsub. simpl.
    rewrite !has_key_false by assumption. reflexivity. }
  split; [exact E|]. intros x Hx.
  assert (Hx' : x ∈ new_calls
            (send_cls_signal T sig
               (match sender with [] => [SenderInstance T i] | _ => sender end)
               cond kw) s).
  { unfold new_calls, exec in *. rewrite <- E. exact Hx. }
  destruct (send_cls_signal_payload s T sig _ cond kw x
              (reachable_Inv _ Hr) Hsub Hkw Hx') as [-> _].
  destruct sender; reflexivity.
Qed.

Lemma instance_emission_sender_witness :
  let s := run prog_universal initial in
  send_signal (3, 7) created [] true [] s
  = send_cls_signal 3 created [SenderInstance 3 7] true [] s
  ∧ ∀ x, x ∈ new_calls (send_signal (3, 7) created [] true []) s →
         call_sender x = SenderInstance 3 7.
Proof.
  intros s.
  apply (instance_emission_sender s 3 7 created [] true []).
  - apply reachable_run, reachable_initial.
  - vm_compute. reflexivity.
  - apply not_elem_of_nil.
  - unfold payload_ok. simpl. repeat split; apply not_elem_of_nil.
Defined.

(** With a false [condition] an emission changes nothing, and looks at
    neither the table of the class nor the name: it returns normally unless
    a keyword takes the place of a parameter, which is a [TypeError] before
    the condition is looked at. *)
Theorem suppressed_emission (s : State) (T : ClassId) (sig : SignalSchema)
    (sender : list Sender) (kw : dict Value) :
  issubclass s T Signaler = true →
  let m := send_cls_signal T sig sender false kw in
  exec m s = s
  ∧ (outcome m s = Ok () ↔ payload_ok kw)
  ∧ (outcome m s = Raise TypeError ↔ ¬ payload_ok kw).
Proof.
  intros Hsub m. unfold m, exec, outcome, send_cls_signal, bind, get.
  rewrite Hsub. simpl. unfold has_key, payload_ok.
  destruct (decide ("cls" ∈ dict_keys kw)) as [H1|H1].
  { rewrite (bool_decide_eq_true_2 _ H1). simpl.
    split; [reflexivity|]. split; split; try discriminate; tauto. }
  rewrite (bool_decide_eq_false_2 _ H1). simpl.
  destruct (decide ("signal" ∈ dict_keys kw)) as [H2|H2].
  { rewrite (bool_decide_eq_true_2 _ H2). simpl.
    split; [reflexivity|]. split; split; try discriminate; tauto. }
  rewrite (bool_decide_eq_false_2 _ H2). simpl.
  destruct (decide ("condition" ∈ dict_keys kw)) as [H3|H3].
  { rewrite (bool_decide_eq_true_2 _ H3). simpl.
    split; [reflexivity|]. split; split; try discriminate; tauto. }
  rewrite (bool_decide_eq_false_2 _ H3). simpl.
  split; [reflexivity|]. split; split; try discriminate; tauto.
Qed.

Lemma suppressed_emission_witness :
  let s := run prog_undeclared initial in
  let m := send_cls_signal 3 created [] false [] in
  exec m s = s
  ∧ (outcome m s = Ok () ↔ payload_ok [])
  ∧ (outcome m s = Raise TypeError ↔ ¬ payload_ok []).
Proof.
  intros s. apply (suppressed_emission s 3 created [] []).
  vm_compute. reflexivity.
Defined.

(** ** What a declaration leaves alone *)

(** Applying the decorator to a class, for the first time or again,
    registers the class and leaves the tables of the other classes, the
    class graph, the handlers connected to the signals that exist and the
    handlers of the base signals as they are, and calls no handler.  It
    returns the class, which then has a table of its own, for every class
    but [object]: the attributes of [object] cannot be set, the decorator
    raises there, and [object] is left registered without a table. *)
Theorem declaration_frame (s : State) (T : ClassId) (args : list SchemaArg) :
  reachable s → T < length (classes s) →
  let s' := exec (signals args T) s in
  (T ≠ object_ →
   outcome (signals args T) s = Ok T ∧ is_Some (own_namespace s' T))
  ∧ (T = object_ →
     outcome (signals args T) s = Raise TypeError ∧ own_namespace s' T = None)
  ∧ T ∈ signal_classes s'
  ∧ (∀ c, c ≠ T → own_namespace s' c = own_namespace s c)
  ∧ (∀ c, mro s' c = mro s c)
  ∧ (∀ ch sg h, heap s !! ch = Some sg → User h ∈ receivers sg →
       ∃ sg', heap s' !! ch = Some sg' ∧ User h ∈ receivers sg')
  ∧ (∀ nm, base_receivers s' nm = base_receivers s nm)
  ∧ calls s' = calls s.
Proof.
  intros Hr Hk s'. apply reachable_Inv in Hr.
  destruct (decide (T = object_)) as [->|Hno].
  - destruct (signals_decorator_object args s Hr)
      as (s1 & Heq & HI & Hcl & Hsc & Hca & (extra & Hh & _) & Hb & _).
    assert (Hs' : s' = s1).
    { unfold s', exec, signals. rewrite Heq. reflexivity. }
    split; [intros Hne; destruct Hne; reflexivity|].
    split.
    { intros _. split; [unfold outcome, signals; rewrite Heq; reflexivity|].
      rewrite Hs'. apply (inv_object _ HI). }
    rewrite Hs'. split; [|split; [|split; [|split; [|split]]]].
    + rewrite Hsc. apply elem_of_union. left. apply elem_of_singleton. reflexivity.
    + intros c _. apply own_namespace_classes, Hcl.
    + intros c. unfold mro. rewrite Hcl. reflexivity.
    + intros ch sg h Hsg Hin. exists sg. split; [|exact Hin].
      rewrite Hh. apply lookup_app_l_Some, Hsg.
    + exact Hb.
    + exact Hca.
  - destruct (signals_decorator_spec args T s Hr Hk Hno) as (ns & s2 & Heq & L & _).
    assert (Hs' : s' = attach T ns s2).
    { unfold s', exec, signals. rewrite Heq. reflexivity. }
    destruct (li_classes _ _ _ _ _ L) as (_ & Hown & Hmro & _).
    split.
    { intros _. split; [unfold outcome, signals; rewrite Heq; reflexivity|].
      rewrite Hs'. rewrite own_namespace_attach by apply (li_known _ _ _ _ _ L).
      rewrite decide_True by reflexivity. eauto. }
    split; [intros E; destruct (Hno E)|].
    rewrite Hs'. split; [|split; [|split; [|split; [|split]]]].
    + change (signal_classes (attach T ns s2)) with (signal_classes s2).
      rewrite (li_registered _ _ _ _ _ L). simpl.
      apply elem_of_union. left. apply elem_of_singleton. reflexivity.
    + intros c Hne. rewrite own_namespace_attach by apply (li_known _ _ _ _ _ L).
      rewrite decide_False by exact Hne. rewrite Hown. reflexivity.
    + intros c. rewrite mro_attach, Hmro. reflexivity.
    + intros ch sg h Hsg Hin.
      apply (li_user_kept _ _ _ _ _ L ch sg h); assumption.
    + intros nm. change (base_receivers (attach T ns s2) nm)
        with (base_receivers s2 nm).
      rewrite (li_base_kept _ _ _ _ _ L). reflexivity.
    + change (calls (attach T ns s2)) with (calls s2).
      rewrite (li_calls _ _ _ _ _ L). reflexivity.
Qed.

(** A second declaration of [A], and a declaration of [object]. *)
Lemma declaration_frame_witness :
  let s := run prog_declared_connected initial in
  (let s' := exec (signals [] 3) s in
   outcome (signals [] 3) s = Ok 3
   ∧ is_Some (own_namespace s' 3)
   ∧ 3 ∈ signal_classes s'
   ∧ calls s' = calls s)
  ∧ (let s' := exec (signals [ArgStr "created"] object_) s in
     outcome (signals [ArgStr "created"] object_) s = Raise TypeError
     ∧ own_namespace s' object_ = None
     ∧ object_ ∈ signal_classes s'
     ∧ calls s' = calls s).
Proof.
  intros s.
  assert (Hr : reachable s) by apply reachable_run, reachable_initial.
  assert (E : length (classes s) = 4) by (vm_compute; reflexivity).
  split.
  - destruct (declaration_frame s 3 [] Hr ltac:(rewrite E; lia))
      as (Hok & _ & Hin & _ & _ & _ & _ & Hca).
    destruct (Hok ltac:(discriminate)) as [Ho Hown]. auto.
  - destruct (declaration_frame s object_ [ArgStr "created"] Hr
                ltac:(rewrite E; unfold object_; lia))
      as (_ & Hraise & Hin & _ & _ & _ & _ & Hca).
    destruct (Hraise eq_refl) as [Ho Hown]. auto.
Defined.

(** ** The registries *)

(** In every state a program can reach, every class with a table of its
    own is in [signal_classes], and every class of [signal_classes] other
    than [object] has a table of its own; [object] never has one, and it is
    in [signal_classes] once the decorator was applied to it; the classes of
    [signal_classes] exist; no signal, of a class or of the base level, has
    a receiver twice; and the base signal named by [EVENT_TRIGGERED]
    exists. *)
Theorem registries_consistent (s : State) :
  reachable s →
  (∀ c, is_Some (own_namespace s c) → c ∈ signal_classes s)
  ∧ (∀ c, c ∈ signal_classes s → c ≠ object_ → is_Some (own_namespace s c))
  ∧ own_namespace s object_ = None
  ∧ (∀ args, object_ ∈ signal_classes (exec (signals args object_) s))
  ∧ (∀ c, c ∈ signal_classes s → c < length (classes s))
  ∧ (∀ ch sg, heap s !! ch = Some sg → NoDup (receivers sg))
  ∧ (∀ nm, NoDup (base_receivers s nm))
  ∧ is_Some (dict_get (base_signals s) EVENT_TRIGGERED).
Proof.
  intros Hr. apply reachable_Inv in Hr.
  split; [intros c; apply Inv_has_table, Hr|].
  split; [intros c; apply Inv_declared, Hr|].
  split; [apply (inv_object _ Hr)|].
  split; [|split; [|split; [|split]]].
  - intros args.
    destruct (signals_decorator_object args s Hr) as (s1 & Heq & _ & _ & Hsc & _).
    unfold exec, signals. rewrite Heq. simpl. rewrite Hsc.
    apply elem_of_union. left. apply elem_of_singleton. reflexivity.
  - intros c Hc. destruct (decide (c = object_)) as [->|Hne].
    + apply Inv_object_known, Hr.
    + destruct (Inv_declared s c Hr Hc Hne) as [ns Hns].
      unfold own_namespace in Hns.
      destruct (classes s !! c) eqn:E; [|discriminate].
      eapply lookup_lt_Some, E.
  - apply (inv_receivers_nodup _ Hr).
  - intros nm. apply base_receivers_NoDup, Hr.
  - apply (inv_base_event _ Hr).
Qed.

Lemma registries_consistent_witness :
  let s := run [ OpSignals [] object_; OpClass [Signaler];
                 OpSignals [ArgStr "created"] 3 ] initial in
  (∀ c, is_Some (own_namespace s c) → c ∈ signal_classes s)
  ∧ (∀ c, c ∈ signal_classes s → c ≠ object_ → is_Some (own_namespace s c))
  ∧ own_namespace s object_ = None
  ∧ (∀ args, object_ ∈ signal_classes (exec (signals args object_) s))
  ∧ (∀ c, c ∈ signal_classes s → c < length (classes s))
  ∧ (∀ ch sg, heap s !! ch = Some sg → NoDup (receivers sg))
  ∧ (∀ nm, NoDup (base_receivers s nm))
  ∧ is_Some (dict_get (base_signals s) EVENT_TRIGGERED).
Proof.
  intros s. apply (registries_consistent s).
  apply reachable_run, reachable_initial.
Defined.

(** ** The cascade flag of an inherited name *)

(** The schema the decorator makes for an inherited name is cascading
    exactly when a handler of a user whose [__name__] is ["cascade"] is
    connected to the inherited signal: the closures of the decorator have
    other names and never count. *)
Theorem inherited_cascade_flag (s : State) (cls : ClassId) (a : SchemaArg) :
  a ∈ inherited_schemata s cls →
  ∃ c, (_name (schema_of_arg a), c) ∈ _merge_dict_class_vars s cls Signaler
    ∧ (_cascade (schema_of_arg a) = true
       ↔ ∃ sg h, heap s !! c = Some sg ∧ User h ∈ receivers sg
                 ∧ fn_name h = "cascade").
Proof.
  unfold inherited_schemata. intros Ha.
  apply list_elem_of_fmap in Ha as ([n c] & -> & Hin). simpl.
  exists c. split; [exact Hin|].
  destruct (heap s !! c) as [sg|]; simpl.
  - unfold is_cascading. rewrite bool_decide_eq_true, Exists_exists. split.
    + intros (r & Hr & Hname). destruct r as [h|f t|f t]; simpl in Hname;
        [|discriminate|discriminate].
      exists sg, h. auto.
    + intros (sg' & h & E & Hh & Hname). injection E as <-.
      exists (User h). auto.
  - split; [discriminate|]. intros (sg & h & E & _). discriminate.
Qed.

Lemma inherited_cascade_flag_witness :
  let s := run prog_handler_named_cascade initial in
  let a := ArgSchema created_cascading in
  ∃ c, (_name (schema_of_arg a), c) ∈ _merge_dict_class_vars s 3 Signaler
    ∧ (_cascade (schema_of_arg a) = true
       ↔ ∃ sg h, heap s !! c = Some sg ∧ User h ∈ receivers sg
                 ∧ fn_name h = "cascade").
Proof.
  intros s a.
  apply (inherited_cascade_flag s 3 a).
  assert (E : inherited_schemata s 3 = [a]) by (vm_compute; reflexivity).
  rewrite E. left.
Defined.

(** ** The linearization *)

Lemma c3_merge_sublist fuel : ∀ seqs out,
  c3_merge fuel seqs = Some out →
  ∀ sq, sq ∈ seqs → sq `sublist_of` out.
Proof.
  induction fuel as [|fuel IH]; intros seqs out Hm sq Hsq.
  - simpl in Hm. destruct sq as [|x sq]; [apply sublist_nil_l|].
    assert (Hlive : (x :: sq) ∈ filter (λ sq, sq ≠ []) seqs).
    { apply list_elem_of_filter. split; [discriminate|exact Hsq]. }
    destruct (filter (λ sq, sq ≠ []) seqs); [|discriminate].
    apply elem_of_nil in Hlive. destruct Hlive.
  - simpl in Hm. destruct sq as [|x sq]; [apply sublist_nil_l|].
    assert (Hlive : (x :: sq) ∈ filter (λ sq, sq ≠ []) seqs).
    { apply list_elem_of_filter. split; [discriminate|exact Hsq]. }
    set (live := filter (λ sq, sq ≠ []) seqs) in *.
    destruct live as [|l0 live'] eqn:El.
    { apply elem_of_nil in Hlive. destruct Hlive. }
    destruct (list_find _ _) as [[i h]|]; [|discriminate].
    destruct (c3_merge fuel _) as [out'|] eqn:Hrec; [|discriminate].
    simpl in Hm. injection Hm as <-.
    set (g := λ sq : list nat,
                if decide (head sq = Some h) then tail sq else sq) in *.
    pose proof (IH _ _ Hrec (g (x :: sq))
                  (list_elem_of_fmap_2 g _ _ Hlive)) as Hsub.
    unfold g in Hsub. simpl in Hsub.
    destruct (decide (Some x = Some h)) as [E|_].
    + injection E as ->. apply sublist_skip, Hsub.
    + apply sublist_cons, Hsub.
Qed.

Lemma c3_merge_from fuel : ∀ seqs out,
  c3_merge fuel seqs = Some out →
  ∀ x, x ∈ out → ∃ sq, sq ∈ seqs ∧ x ∈ sq.
Proof.
  induction fuel as [|fuel IH]; intros seqs out Hm x Hx.
  - simpl in Hm. destruct (filter (λ sq, sq ≠ []) seqs); [|discriminate].
    injection Hm as <-. apply elem_of_nil in Hx. destruct Hx.
  - simpl in Hm.
    set (live := filter (λ sq, sq ≠ []) seqs) in *.
    assert (Hl : ∀ sq, sq ∈ live → sq ∈ seqs).
    { intros sq Hsq. apply list_elem_of_filter in Hsq as [_ ?]. assumption. }
    destruct live as [|l0 live'] eqn:El.
    { injection Hm as <-. apply elem_of_nil in Hx. destruct Hx. }
    destruct (list_find _ _) as [[i h]|] eqn:Hf; [|discriminate].
    destruct (c3_merge fuel _) as [out'|] eqn:Hrec; [|discriminate].
    simpl in Hm. injection Hm as <-.
    apply elem_of_cons in Hx as [->|Hx].
    + apply list_find_Some in Hf as (Hi & _ & _).
      apply list_elem_of_lookup_2 in Hi.
      apply list_elem_of_omap in Hi as (sq & Hsq & Hh).
      exists sq. split; [apply Hl, Hsq|].
      destruct sq as [|y sq]; [discriminate|]. simpl in Hh. injection Hh as ->. left.
    + destruct (IH _ _ Hrec x Hx) as (sq' & Hsq' & Hxs).
      apply list_elem_of_fmap in Hsq' as (sq & -> & Hsq).
      exists sq. split; [apply Hl, Hsq|].
      destruct (decide (head sq = Some h)); [|exact Hxs].
      destruct sq as [|y sq]; [exact Hxs|]. right. exact Hxs.
Qed.

Lemma c3_merge_NoDup fuel : ∀ seqs out,
  c3_merge fuel seqs = Some out →
  (∀ sq, sq ∈ seqs → NoDup sq) → NoDup out.
Proof.
  induction fuel as [|fuel IH]; intros seqs out Hm Hnd.
  - simpl in Hm. destruct (filter (λ sq, sq ≠ []) seqs); [|discriminate].
    injection Hm as <-. apply NoDup_nil_2.
  - simpl in Hm.
    set (live := filter (λ sq, sq ≠ []) seqs) in *.
    assert (Hl : ∀ sq, sq ∈ live → sq ∈ seqs).
    { intros sq Hsq. apply list_elem_of_filter in Hsq as [_ ?]. assumption. }
    destruct live as [|l0 live'] eqn:El.
    { injection Hm as <-. apply NoDup_nil_2. }
    destruct (list_find _ _) as [[i h]|] eqn:Hf; [|discriminate].
    destruct (c3_merge fuel _) as [out'|] eqn:Hrec; [|discriminate].
    simpl in Hm. injection Hm as <-.
    apply list_find_Some in Hf as (_ & Hgood & _).
    rewrite Forall_forall in Hgood.
    apply NoDup_cons. split.
    + intros Hin. destruct (c3_merge_from _ _ _ Hrec h Hin) as (sq' & Hsq' & Hh).
      apply list_elem_of_fmap in Hsq' as (sq & -> & Hsq).
      pose proof (Hgood sq Hsq) as Hnt.
      destruct (decide (head sq = Some h)) as [E|Hne]; [done|].
      destruct sq as [|y sq]; [apply elem_of_nil in Hh; destruct Hh|].
      simpl in *. apply elem_of_cons in Hh as [->|Hh]; [done|done].
    + apply (IH _ _ Hrec). intros sq' Hsq'.
      apply list_elem_of_fmap in Hsq' as (sq & -> & Hsq).
      pose proof (Hnd sq (Hl sq Hsq)) as Hn.
      destruct (decide (head sq = Some h)); [|exact Hn].
      destruct sq as [|y sq]; [exact Hn|]. simpl.
      apply NoDup_cons in Hn as [_ ?]. assumption.
Qed.

(** ** The mro of the classes a program makes *)

Lemma reachable_hier_ind (P : State → Prop) :
  (∀ s s', hier s' = hier s → P s → P s') →
  P initial → (∀ bs, preserves P (define_class bs)) →
  ∀ s, reachable s → P s.
Proof.
  intros Hh H0 Hd s Hr.
  assert (Hk : ∀ {A} (m : M A), keeps_hier m → preserves P m).
  { intros A m Hm s0 H. eapply Hh; [|exact H]. apply (keeps_hier_exec m s0 Hm). }
  induction Hr as [|s o _ IH]; [exact H0|].
  revert s IH. change (preserves P (run_op o)).
  destruct o; simpl.
  - apply preserves_bind; [apply Hd | intros; apply preserves_ret].
  - apply preserves_bind; [apply Hk, keeps_hier_signals
                          | intros; apply preserves_ret].
  - apply preserves_bind; [apply Hk, keeps_hier_connect_base_signal
                          | intros; apply preserves_ret].
  - apply preserves_bind; [apply Hk, keeps_hier_connect_class_signal
                          | intros; apply preserves_ret].
  - apply preserves_bind; [apply Hk, keeps_hier_connect
                          | intros; apply preserves_ret].
  - apply preserves_bind; [apply Hk, keeps_hier_connect_subclasses
                          | intros; apply preserves_ret].
  - apply Hk, keeps_hier_send_cls_signal.
  - apply Hk, keeps_hier_send_signal.
Qed.

Lemma MroOk_hier s s' : hier s' = hier s → MroOk s → MroOk s'.
Proof.
  intros E [H1 H2].
  assert (Hm : ∀ c, mro s' c = mro s c) by (intros c; rewrite !mro_hier, E; reflexivity).
  split; [rewrite Hm; exact H1|]. intros X. rewrite Hm.
  destruct (H2 X) as [Hnd Hp]. split; [exact Hnd|].
  intros p Hin. rewrite Hm. apply Hp, Hin.
Qed.

Lemma MroOk_initial : MroOk initial.
Proof.
  split; [reflexivity|]. intros X. unfold mro, initial. simpl.
  destruct X as [|[|[|X]]]; simpl.
  - split; [apply NoDup_singleton|]. intros p Hp.
    apply list_elem_of_singleton in Hp. subst p. split; [lia|reflexivity].
  - split; [match goal with |- ?G => apply (bool_decide_unpack G) end; exact I|].
    intros p Hp.
    apply elem_of_cons in Hp as [->|Hp]; [split; [lia|reflexivity]|].
    apply list_elem_of_singleton in Hp. subst p. simpl. unfold object_.
    split; [lia|]. apply sublist_cons. reflexivity.
  - split; [match goal with |- ?G => apply (bool_decide_unpack G) end; exact I|].
    intros p Hp.
    apply elem_of_cons in Hp as [->|Hp]; [split; [lia|reflexivity]|].
    apply elem_of_cons in Hp as [->|Hp].
    { simpl. unfold SuperStop. split; [lia|]. apply sublist_cons. reflexivity. }
    apply list_elem_of_singleton in Hp. subst p. simpl. unfold object_.
    split; [lia|]. do 2 apply sublist_cons. reflexivity.
  - split; [apply NoDup_nil_2|]. intros p Hp. apply elem_of_nil in Hp. destruct Hp.
Qed.

Lemma mro_known s X p : p ∈ mro s X → X < length (classes s).
Proof.
  unfold mro. destruct (classes s !! X) eqn:E.
  - intros _. eapply lookup_lt_Some, E.
  - intros H. apply elem_of_nil in H. destruct H.
Qed.

Lemma MroOk_define_class bs : preserves MroOk (define_class bs).
Proof.
  intros s [H1 H2]. unfold define_class.
  destruct (bool_decide _) eqn:Hg; [|split; assumption].
  apply bool_decide_eq_true in Hg as [Hvalid Hbnd].
  destruct (linearize s _) as [anc|] eqn:Hl; [|split; assumption].
  simpl. set (bs' := if decide (bs = []) then [object_] else bs) in *.
  set (k := {| bases := bs'; ancestors := anc;
               signal_namespace := None; cascade_attrs := [] |}).
  set (s' := set_classes (λ cl, cl ++ [k]) s).
  rewrite Forall_forall in Hvalid.
  assert (Hold : ∀ c, c < length (classes s) → mro s' c = mro s c).
  { intros c Hc. unfold mro, s'. simpl. rewrite lookup_app_l by exact Hc. auto. }
  assert (Hnew : mro s' (length (classes s)) = length (classes s) :: anc).
  { unfold mro, s'. simpl. rewrite list_lookup_middle by reflexivity. auto. }
  assert (Hout : ∀ c, length (classes s) < c → mro s' c = []).
  { intros c Hc. unfold mro, s'. simpl.
    rewrite lookup_ge_None_2; [reflexivity|]. rewrite length_app. simpl. lia. }
  assert (Hanc : ∀ p, p ∈ anc → ∃ b, b ∈ bs' ∧ p ∈ mro s b).
  { intros p Hp. unfold linearize in Hl.
    destruct (c3_merge_from _ _ _ Hl p Hp) as (sq & Hsq & Hps).
    apply elem_of_app in Hsq as [Hsq|Hsq].
    - apply list_elem_of_fmap in Hsq as (b & -> & Hb). eauto.
    - apply list_elem_of_singleton in Hsq. subst sq.
      exists p. split; [exact Hps|]. apply mro_head, Hvalid, Hps. }
  assert (Hsubl : ∀ b, b ∈ bs' → mro s b `sublist_of` anc).
  { intros b Hb. unfold linearize in Hl.
    apply (c3_merge_sublist _ _ _ Hl). apply elem_of_app. left.
    apply list_elem_of_fmap_2, Hb. }
  assert (Hlt : ∀ p, p ∈ anc → p < length (classes s)).
  { intros p Hp. destruct (Hanc p Hp) as (b & Hb & Hpb).
    destruct (H2 b) as [_ Hb2]. destruct (Hb2 p Hpb) as [Hle _].
    pose proof (Hvalid b Hb). lia. }
  split.
  { rewrite Hold; [exact H1|]. eapply mro_known. rewrite H1. left. }
  intros X.
  destruct (decide (X < length (classes s))) as [HX|HX].
  - rewrite (Hold X HX). destruct (H2 X) as [Hnd Hp]. split; [exact Hnd|].
    intros p Hin. destruct (Hp p Hin) as [Hle Hs]. split; [exact Hle|].
    rewrite Hold by lia. exact Hs.
  - destruct (decide (X = length (classes s))) as [->|HX'].
    + rewrite Hnew. split.
      * apply NoDup_cons. split.
        { intros Hin. apply Hlt in Hin. lia. }
        unfold linearize in Hl. apply (c3_merge_NoDup _ _ _ Hl).
        intros sq Hsq. apply elem_of_app in Hsq as [Hsq|Hsq].
        -- apply list_elem_of_fmap in Hsq as (b & -> & Hb). apply (H2 b).
        -- apply list_elem_of_singleton in Hsq. subst sq. exact Hbnd.
      * intros p Hp. apply elem_of_cons in Hp as [->|Hp].
        { split; [lia|]. rewrite Hnew. reflexivity. }
        pose proof (Hlt p Hp) as Hpk. split; [lia|].
        rewrite (Hold p Hpk). apply sublist_cons.
        destruct (Hanc p Hp) as (b & Hb & Hpb).
        destruct (H2 b) as [_ Hb2]. destruct (Hb2 p Hpb) as [_ Hs].
        etrans; [exact Hs|]. apply Hsubl, Hb.
    + rewrite Hout by lia. split; [apply NoDup_nil_2|].
      intros p Hp. apply elem_of_nil in Hp. destruct Hp.
Qed.

Lemma reachable_MroOk s : reachable s → MroOk s.
Proof.
  apply reachable_hier_ind.
  - apply MroOk_hier.
  - apply MroOk_initial.
  - apply MroOk_define_class.
Qed.

(** ** [SuperStop.__init__] *)

Lemma sublist_cons_ne {A} (x a : A) l k :
  x ≠ a → (x :: l) `sublist_of` (a :: k) → (x :: l) `sublist_of` k.
Proof.
  intros Hne H. apply sublist_cons_r in H as [H|(l' & E & _)]; [exact H|].
  injection E as -> _. done.
Qed.

Lemma sublist_app_absent {A} (x : A) l pre k :
  x ∉ pre → (x :: l) `sublist_of` (pre ++ k) → (x :: l) `sublist_of` k.
Proof.
  induction pre as [|a pre IH]; intros Hni H; [exact H|].
  apply not_elem_of_cons in Hni as [Hne Hni]. simpl in H.
  apply IH; [exact Hni|]. eapply sublist_cons_ne; eauto.
Qed.

Lemma list_find_split (l1 l2 : list ClassId) x :
  x ∉ l1 → list_find (λ p, p = x) (l1 ++ x :: l2) = Some (length l1, x).
Proof.
  intros Hni. apply list_find_Some. split; [|split; [reflexivity|]].
  - rewrite list_lookup_middle; reflexivity.
  - intros j y Hj Hlt ->. apply Hni.
    rewrite lookup_app_l in Hj by exact Hlt.
    eapply list_elem_of_lookup_2, Hj.
Qed.

(** An object of a class whose mro holds, besides [object], only classes
    that have [SuperStop] in their own mro is initialised without an error:
    [SuperStop] is the last class but one of the mro. *)
Theorem SuperStop_init_ok (s : State) (T : ClassId) :
  reachable s → issubclass s T SuperStop = true →
  (∀ p, p ∈ mro s T → p = object_ ∨ issubclass s p SuperStop = true) →
  SuperStop__init__ s T = InitOk.
Proof.
  intros Hr Hsub Hall. apply reachable_MroOk in Hr as [H1 H2].
  apply bool_decide_eq_true in Hsub.
  destruct (H2 T) as [Hnd HT].
  destruct (HT _ Hsub) as [_ Hss]. rewrite H1 in Hss.
  apply list_elem_of_split in Hsub as (l1 & l2 & E).
  rewrite E in Hnd, Hss, HT, Hall.
  apply NoDup_app in Hnd as (_ & Hd1 & Hnd2).
  apply NoDup_cons in Hnd2 as [Hni2 Hnd2].
  assert (Hni1 : SuperStop ∉ l1).
  { intros Hin. apply (Hd1 _ Hin). left. }
  assert (Hobj : object_ ∈ l2).
  { apply sublist_app_absent in Hss; [|exact Hni1].
    apply sublist_cons_r in Hss as [Hss|(l' & El & Hss)].
    - pose proof (elem_of_sublist _ _ SuperStop ltac:(left) Hss). done.
    - injection El as <-. apply (elem_of_sublist _ _ object_ ltac:(left) Hss). }
  assert (Hl2 : ∀ x, x ∈ l2 → x = object_).
  { intros x Hx.
    destruct (Hall x) as [?|Hx']; [|assumption|].
    { apply elem_of_app. right. right. exact Hx. }
    exfalso. apply bool_decide_eq_true in Hx'.
    destruct (HT x) as [_ Hsx].
    { apply elem_of_app. right. right. exact Hx. }
    assert (Hmx : ∃ anc, mro s x = x :: anc).
    { unfold mro in *. destruct (classes s !! x); [eauto|].
      apply elem_of_nil in Hx'. destruct Hx'. }
    destruct Hmx as [anc Ea]. rewrite Ea in Hsx, Hx'.
    assert (Hx1 : x ∉ l1) by (intros Hin; apply (Hd1 _ Hin); right; exact Hx).
    assert (Hxs : x ≠ SuperStop) by (intros ->; done).
    apply sublist_app_absent in Hsx; [|exact Hx1].
    apply sublist_cons_ne in Hsx; [|exact Hxs].
    apply elem_of_cons in Hx' as [?|Hx']; [done|].
    apply Hni2. apply (elem_of_sublist (x :: anc) _ SuperStop); [right; exact Hx'|exact Hsx]. }
  assert (El2 : l2 = [object_]).
  { destruct l2 as [|a [|b l2]].
    - apply elem_of_nil in Hobj. destruct Hobj.
    - rewrite (Hl2 a ltac:(left)). reflexivity.
    - apply NoDup_cons in Hnd2 as [Hab _]. destruct Hab.
      rewrite (Hl2 a ltac:(left)), (Hl2 b ltac:(right; left)). left. }
  unfold SuperStop__init__. rewrite E, (list_find_split l1 l2 SuperStop Hni1).
  rewrite El2, length_app. simpl.
  rewrite decide_False; [reflexivity|]. lia.
Qed.

Lemma SuperStop_init_ok_witness :
  SuperStop__init__ (run prog_subclasses initial) 4 = InitOk.
Proof.
  assert (Hr : reachable (run prog_subclasses initial))
    by apply reachable_run, reachable_initial.
  assert (Hm : ∀ p, p ∈ [4; 3; 2; 1; 0] →
                 p = object_
                 ∨ issubclass (run prog_subclasses initial) p SuperStop = true).
  { intros p Hp. clear Hr.
    apply elem_of_cons in Hp as [->|Hp]; [right; vm_compute; reflexivity|].
    apply elem_of_cons in Hp as [->|Hp]; [right; vm_compute; reflexivity|].
    apply elem_of_cons in Hp as [->|Hp]; [right; vm_compute; reflexivity|].
    apply elem_of_cons in Hp as [->|Hp]; [right; vm_compute; reflexivity|].
    apply elem_of_cons in Hp as [->|Hp]; [left; reflexivity|].
    apply elem_of_nil in Hp. destruct Hp. }
  assert (Em : mro (run prog_subclasses initial) 4 = [4; 3; 2; 1; 0])
    by (vm_compute; reflexivity).
  apply (SuperStop_init_ok (run prog_subclasses initial) 4).
  - exact Hr.
  - vm_compute. reflexivity.
  - rewrite Em. exact Hm.
Defined.

(** A plain class among the bases after a class of [Signaler] comes after
    [SuperStop] in the mro, and an object of the class cannot be made. *)
Lemma SuperStop_init_plain_mixin :
  let s := run prog_plain_mixin initial in
  mro s 4 = [4; Signaler; SuperStop; 3; object_]
  ∧ SuperStop__init__ s 4 = InitRaise SuperStopOmitting.
Proof. vm_compute. split; reflexivity. Qed.

(** ** The names of a declared table *)

Lemma mro_closed s T p q :
  MroOk s → p ∈ mro s T → q ∈ mro s p → q ∈ mro s T.
Proof.
  intros [_ H] Hp Hq. destruct (H T) as [_ HT]. destruct (HT p Hp) as [_ Hs].
  eapply elem_of_sublist; eauto.
Qed.

(** Given a class other than [object] (whose attributes cannot be set),
    the decorator returns the class, and the table it gives the class has,
    once each, the names it was given and the names of the tables shown by
    the classes of the mro that are classes of [Signaler], and no other
    name. *)
Theorem declaration_names (s : State) (T : ClassId) (args : list SchemaArg) :
  reachable s → T < length (classes s) → T ≠ object_ →
  outcome (signals args T) s = Ok T
  ∧ ∃ ns, own_namespace (exec (signals args T) s) T = Some ns
      ∧ NoDup (dict_keys ns)
      ∧ ∀ n, is_Some (dict_get ns n)
             ↔ n ∈ schema_names args
               ∨ ∃ p nsp, p ∈ mro s T ∧ issubclass s p Signaler = true
                          ∧ getattr_namespace s p = Some nsp
                          ∧ is_Some (dict_get nsp n).
Proof.
  intros Hr Hk Hno.
  pose proof (reachable_MroOk _ Hr) as HM. apply reachable_Inv in Hr.
  destruct (signals_decorator_spec args T s Hr Hk Hno)
    as (ns & s2 & Heq & L & Hkeys).
  split; [unfold outcome, signals; rewrite Heq; reflexivity|].
  exists ns. split; [|split].
  - unfold exec, signals. rewrite Heq. simpl.
    rewrite own_namespace_attach by apply (li_known _ _ _ _ _ L).
    rewrite decide_True by reflexivity. reflexivity.
  - apply (li_local_nodup _ _ _ _ _ L).
  - intros n. rewrite Hkeys. unfold decorator_schemata, schema_names.
    rewrite map_app, elem_of_app.
    fold (schema_names args).
    destruct (hasattr_namespace s T) eqn:Hh.
    + fold (schema_names (inherited_schemata s T)).
      rewrite inherited_schemata_names, merge_keys.
      split; (intros [?|(p & nsp & ? & ? & ? & Hn)]; [left; assumption|right]);
        exists p, nsp; repeat (split; [assumption|]); apply dict_keys_is_Some, Hn.
    + split; [intros [?|Hn]; [auto|apply elem_of_nil in Hn; destruct Hn]|].
      intros [?|(p & nsp & Hp & _ & Hg & _)]; [auto|]. exfalso.
      apply getattr_namespace_owner in Hg as (q & Hq & Hown).
      pose proof (mro_closed s T p q HM Hp Hq) as HqT.
      unfold hasattr_namespace in Hh. apply bool_decide_eq_false in Hh.
      destruct (getattr_namespace s T) eqn:Hg; [destruct Hh; eauto|].
      rewrite (proj1 (getattr_namespace_None s T) Hg q HqT) in Hown. discriminate.
Qed.

Lemma declaration_names_witness :
  let s := run prog_undeclared_subclass initial in
  outcome (signals [ArgStr "deleted"] 4) s = Ok 4
  ∧ ∃ ns, own_namespace (exec (signals [ArgStr "deleted"] 4) s) 4 = Some ns
      ∧ NoDup (dict_keys ns)
      ∧ ∀ n, is_Some (dict_get ns n)
             ↔ n ∈ schema_names [ArgStr "deleted"]
               ∨ ∃ p nsp, p ∈ mro s 4 ∧ issubclass s p Signaler = true
                          ∧ getattr_namespace s p = Some nsp
                          ∧ is_Some (dict_get nsp n).
Proof.
  intros s. apply (declaration_names s 4 [ArgStr "deleted"]).
  - apply reachable_run, reachable_initial.
  - assert (E : length (classes s) = 5) by (vm_compute; reflexivity).
    rewrite E. lia.
  - discriminate.
Defined.

(** ** Lazy declaration *)

(** [init_class_signals] declares a class that is not registered, leaves a
    registered class as it is, and calls no handler; done a second time it
    changes nothing.  For every class but [object] it returns and the class
    has a table of its own afterwards.  On [object], whose attributes
    cannot be set, it raises exactly when [object] was not registered, and
    [object] is registered afterwards without a table. *)
Theorem lazy_declaration (s : State) (T : ClassId) :
  reachable s → T < length (classes s) →
  let m := init_class_signals T in
  (T ≠ object_ →
   outcome m s = Ok () ∧ is_Some (own_namespace (exec m s) T))
  ∧ (T = object_ →
     own_namespace (exec m s) T = None
     ∧ (outcome m s = Raise TypeError ↔ T ∉ signal_classes s)
     ∧ (outcome m s = Ok () ↔ T ∈ signal_classes s))
  ∧ T ∈ signal_classes (exec m s)
  ∧ (T ∈ signal_classes s → exec m s = s)
  ∧ exec m (exec m s) = exec m s
  ∧ calls (exec m s) = calls s.
Proof.
  intros Hr Hk m. apply reachable_Inv in Hr.
  assert (Hreg : ∀ s0, T ∈ signal_classes s0 →
            init_class_signals T s0 = (s0, Ok ())).
  { intros s0 Hin. unfold init_class_signals, bind, get.
    rewrite bool_decide_eq_true_2 by exact Hin. reflexivity. }
  destruct (decide (T = object_)) as [->|Hno].
  - split; [intros Hne; destruct Hne; reflexivity|].
    destruct (decide (object_ ∈ signal_classes s)) as [Hin|Hni].
    + unfold m, outcome, exec. rewrite (Hreg s Hin). simpl.
      rewrite (Hreg s Hin). simpl.
      split; [intros _; split; [apply (inv_object _ Hr)|]|].
      { split; split; try done. }
      split; [exact Hin|]. split; [reflexivity|]. split; reflexivity.
    + destruct (signals_decorator_object [] s Hr)
        as (s1 & Heq & HI & Hcl & Hsc & Hca & _).
      assert (E : init_class_signals object_ s = (s1, Raise TypeError)).
      { unfold init_class_signals, bind, get.
        rewrite bool_decide_eq_false_2 by exact Hni.
        unfold signals. rewrite Heq. reflexivity. }
      assert (Hin1 : object_ ∈ signal_classes s1).
      { rewrite Hsc. apply elem_of_union. left. apply elem_of_singleton.
        reflexivity. }
      unfold m, outcome, exec. rewrite E. simpl. rewrite (Hreg s1 Hin1). simpl.
      split; [intros _; split; [apply (inv_object _ HI)|]|].
      { split; split; try done. }
      split; [exact Hin1|]. split; [intros Hin; destruct (Hni Hin)|].
      split; [reflexivity | exact Hca].
  - destruct (init_class_signals_spec T s Hr Hk Hno)
      as (s1 & ns & Heq & HI1 & F & Q & Hns & Hin & Hsame & _).
    unfold m, outcome, exec. rewrite Heq. simpl. rewrite (Hreg s1 Hin). simpl.
    split; [intros _; split; [reflexivity | eauto]|].
    split; [intros E; destruct (Hno E)|].
    split; [exact Hin|].
    split; [exact Hsame|]. split; [reflexivity | apply (q_calls _ _ Q)].
Qed.

(** The undeclared [B(A)], and [object]. *)
Lemma lazy_declaration_witness :
  let s := run prog_undeclared_subclass initial in
  (let m := init_class_signals 4 in
   outcome m s = Ok ()
   ∧ is_Some (own_namespace (exec m s) 4)
   ∧ 4 ∈ signal_classes (exec m s)
   ∧ exec m (exec m s) = exec m s
   ∧ calls (exec m s) = calls s)
  ∧ (let m := init_class_signals object_ in
     own_namespace (exec m s) object_ = None
     ∧ object_ ∈ signal_classes (exec m s)
     ∧ exec m (exec m s) = exec m s).
Proof.
  intros s.
  assert (Hr : reachable s) by apply reachable_run, reachable_initial.
  assert (E : length (classes s) = 5) by (vm_compute; reflexivity).
  split.
  - destruct (lazy_declaration s 4 Hr ltac:(rewrite E; lia))
      as (Hok & _ & Hin & _ & Hidem & Hca).
    destruct (Hok ltac:(discriminate)) as [Ho Hown]. auto.
  - destruct (lazy_declaration s object_ Hr ltac:(rewrite E; unfold object_; lia))
      as (_ & Hobj & Hin & _ & Hidem & _).
    destruct (Hobj eq_refl) as [Hown _]. auto.
Defined.

(** ** The outcomes of a connection to a class *)

(** [connect_class_signal] given a class ends in one of four ways: with
    the function; with the signal-not-defined error; with an
    [AttributeError] for the missing [signals], when the class is no class
    of [Signaler] and its lazy declaration did not raise; or with the
    [TypeError] of the lazy declaration, exactly when the class is [object]
    and was not registered.  It never ends with the namespace error, and in
    every case the class is registered by then. *)
Theorem connect_class_signal_outcomes (s : State) (T : ClassId)
    (n : string) (h : Handler) :
  reachable s → T < length (classes s) →
  let m := connect_class_signal T n h in
  T ∈ signal_classes (exec m s)
  ∧ (outcome m s = Raise TypeError ↔ T = object_ ∧ T ∉ signal_classes s)
  ∧ (outcome m s = Raise AttributeError
     ↔ issubclass s T Signaler = false
       ∧ (T = object_ → T ∈ signal_classes s))
  ∧ (outcome m s = Ok h ∨ outcome m s = Raise AttributeError
     ∨ outcome m s = Raise (ValueError SignalNotDefinedOnClass)
     ∨ outcome m s = Raise TypeError).
Proof.
  intros Hr Hk m. apply reachable_Inv in Hr.
  destruct (issubclass s T Signaler) eqn:Hsub.
  - pose proof (Inv_not_object s T Hr Hsub) as Hno.
    destruct (connect_class_signal_spec T n h s Hr Hsub)
      as (s1 & ns & _ & _ & _ & _ & _ & Hin & Heq).
    unfold m, exec, outcome. rewrite Heq.
    destruct (dict_get ns n); simpl.
    + split; [exact Hin|].
      split; [split; [discriminate | intros [E _]; destruct (Hno E)]|].
      split; [split; [discriminate | intros [? _]; discriminate] | auto].
    + split; [exact Hin|].
      split; [split; [discriminate | intros [E _]; destruct (Hno E)]|].
      split; [split; [discriminate | intros [? _]; discriminate] | auto].
  - assert (Hafter : ∀ s1, init_class_signals T s = (s1, Ok ()) →
              classes s1 = classes s →
              connect_class_signal T n h s = (s1, Raise AttributeError)).
    { intros s1 Heq Hcl. unfold connect_class_signal. unfold bind at 1.
      rewrite Heq. unfold bind at 1. unfold Signaler_signals.
      unfold issubclass, mro. rewrite Hcl.
      fold (mro s T). fold (issubclass s T Signaler). rewrite Hsub.
      reflexivity. }
    destruct (decide (T = object_)) as [->|Hno].
    + destruct (decide (object_ ∈ signal_classes s)) as [Hin|Hni].
      * assert (Heq : init_class_signals object_ s = (s, Ok ())).
        { unfold init_class_signals, bind, get.
          rewrite bool_decide_eq_true_2 by exact Hin. reflexivity. }
        unfold m, exec, outcome. rewrite (Hafter s Heq eq_refl). simpl.
        split; [exact Hin|].
        split; [split; [discriminate | intros [_ Hni]; destruct (Hni Hin)]|].
        split; [split; [auto | reflexivity] | auto].
      * destruct (signals_decorator_object [] s Hr)
          as (s1 & Heq & _ & _ & Hsc & _).
        assert (E : connect_class_signal object_ n h s = (s1, Raise TypeError)).
        { unfold connect_class_signal. unfold bind at 1.
          unfold init_class_signals, bind, get.
          rewrite bool_decide_eq_false_2 by exact Hni.
          unfold signals. rewrite Heq. reflexivity. }
        unfold m, exec, outcome. rewrite E. simpl.
        split; [rewrite Hsc; apply elem_of_union; left;
                apply elem_of_singleton; reflexivity|].
        split; [split; [auto | reflexivity]|].
        split; [split; [discriminate | intros [_ Hin]; destruct (Hni (Hin eq_refl))]|].
        auto.
    + destruct (init_class_signals_spec T s Hr Hk Hno)
        as (s1 & ns & Heq & _ & F & _ & _ & Hin & _).
      assert (E : connect_class_signal T n h s = (s1, Raise AttributeError)).
      { unfold connect_class_signal. unfold bind at 1. rewrite Heq.
        unfold bind at 1. unfold Signaler_signals.
        rewrite (Frame_issubclass _ _ _ _ F), Hsub. reflexivity. }
      unfold m, exec, outcome. rewrite E. simpl.
      split; [exact Hin|].
      split; [split; [discriminate | intros [E' _]; destruct (Hno E')]|].
      split; [split; [intros _; split; [reflexivity | intros E'; destruct (Hno E')]
                     | reflexivity] | auto].
Qed.

(** A plain class, and [object] before anything was applied to it. *)
Lemma connect_class_signal_outcomes_witness :
  let s := run prog_plain_mixin initial in
  (let m := connect_class_signal 3 "created" on_created in
   3 ∈ signal_classes (exec m s)
   ∧ (outcome m s = Raise AttributeError
      ↔ issubclass s 3 Signaler = false ∧ (3 = object_ → 3 ∈ signal_classes s)))
  ∧ (let m := connect_class_signal object_ "created" on_created in
     object_ ∈ signal_classes (exec m s)
     ∧ (outcome m s = Raise TypeError
        ↔ object_ = object_ ∧ object_ ∉ signal_classes s)).
Proof.
  intros s.
  assert (Hr : reachable s) by apply reachable_run, reachable_initial.
  assert (E : length (classes s) = 5) by (vm_compute; reflexivity).
  split.
  - destruct (connect_class_signal_outcomes s 3 "created" on_created Hr
                ltac:(rewrite E; lia)) as (Hin & _ & Hattr & _).
    split; [exact Hin | exact Hattr].
  - destruct (connect_class_signal_outcomes s object_ "created" on_created Hr
                ltac:(rewrite E; unfold object_; lia)) as (Hin & Hty & _).
    split; [exact Hin | exact Hty].
Defined.

(** ** [PointAccessNamespace] *)

Lemma dict_get_del {V} (d : dict V) k k' :
  dict_get (dict_del d k) k' = if decide (k' = k) then None else dict_get d k'.
Proof.
  induction d as [|[k0 v0] d IH]; simpl.
  - destruct (decide (k' = k)); reflexivity.
  - destruct (decide (k = k0)) as [<-|Hne].
    + rewrite IH. destruct (decide (k' = k)); reflexivity.
    + simpl. destruct (decide (k' = k0)) as [->|Hne'].
      * rewrite decide_False by congruence. reflexivity.
      * exact IH.
Qed.

Lemma dict_del_NoDup {V} (d : dict V) k :
  NoDup (dict_keys d) → NoDup (dict_keys (dict_del d k)).
Proof.
  induction d as [|[k0 v0] d IH]; simpl; [auto|].
  intros Hnd. apply NoDup_cons in Hnd as [Hni Hnd].
  destruct (decide (k = k0)); [apply IH, Hnd|].
  simpl. apply NoDup_cons. split; [|apply IH, Hnd].
  intros Hin. apply Hni. apply dict_keys_is_Some.
  apply dict_keys_is_Some in Hin. rewrite dict_get_del in Hin.
  destruct (decide (k0 = k)); [destruct Hin; discriminate | exact Hin].
Qed.

Lemma namespace_ok_op {V} (ns : PointAccessNamespace V) o : namespace_ok ns → namespace_ok (namespace_op ns o).
Proof.
  intros [E Hnd]. destruct o as [k v|k v|k|k]; simpl.
  - split; simpl; [rewrite E; reflexivity | apply dict_set_NoDup, Hnd].
  - unfold PointAccessNamespace__setattr__.
    destruct (dict_get (attributes ns) "__setitem__"); simpl; [split; assumption|].
    split; simpl; [rewrite E; reflexivity | apply dict_set_NoDup, Hnd].
  - unfold PointAccessNamespace__delitem__. rewrite <- E.
    destruct (dict_get (mapping ns) k); simpl; [|split; assumption].
    split; simpl; [reflexivity | apply dict_del_NoDup, Hnd].
  - unfold PointAccessNamespace__delattr__, PointAccessNamespace__delitem__.
    destruct (dict_get (attributes ns) "__delitem__"); simpl; [split; assumption|].
    rewrite <- E.
    destruct (dict_get (mapping ns) k); simpl; [|split; assumption].
    split; simpl; [reflexivity | apply dict_del_NoDup, Hnd].
Qed.

Lemma namespace_ok_run {V} (ops : list (NamespaceOp V)) : namespace_ok (namespace_run ops).
Proof.
  unfold namespace_run.
  assert (H : ∀ ns, namespace_ok ns → namespace_ok (foldl namespace_op ns ops)).
  { induction ops as [|o ops IH]; intros ns Hns; [exact Hns|].
    simpl. apply IH, namespace_ok_op, Hns. }
  apply H. split; [reflexivity|apply NoDup_nil_2].
Qed.

(** In a namespace that was made empty and has been used through item and
    attribute assignment and deletion only, the items and the attributes of
    the instance are the same, in the same order, with no key twice; so a
    deletion that raises [KeyError] is one of a key that is not there, and
    it has changed nothing. *)
Theorem namespace_views_agree {V} (ops : list (NamespaceOp V)) (k : string) :
  let ns := namespace_run ops in
  mapping ns = attributes ns
  ∧ NoDup (dict_keys (mapping ns))
  ∧ ((PointAccessNamespace__delitem__ k ns).2 = Raised (KeyError k)
     ↔ dict_get (mapping ns) k = None)
  ∧ ((PointAccessNamespace__delitem__ k ns).2 = Raised (KeyError k) →
     (PointAccessNamespace__delitem__ k ns).1 = ns).
Proof.
  intros ns. destruct (namespace_ok_run ops) as [E Hnd]. fold ns in E, Hnd.
  split; [exact E|]. split; [exact Hnd|].
  unfold PointAccessNamespace__delitem__. rewrite <- E.
  destruct (dict_get (mapping ns) k); simpl.
  - split; [split; discriminate | discriminate].
  - split; [split; reflexivity | reflexivity].
Qed.

(** What is stored under a key is what the item and the attribute of that
    key are afterwards, the other keys keep what they had, and deleting the
    key then succeeds and leaves neither. *)
Theorem namespace_set_then_delete {V} (ns : PointAccessNamespace V) (k : string)
    (v : V) :
  let ns1 := PointAccessNamespace__setitem__ k v ns in
  dict_get (mapping ns1) k = Some v
  ∧ dict_get (attributes ns1) k = Some v
  ∧ (∀ k', k' ≠ k → dict_get (mapping ns1) k' = dict_get (mapping ns) k'
                    ∧ dict_get (attributes ns1) k' = dict_get (attributes ns) k')
  ∧ ∃ ns2, PointAccessNamespace__delitem__ k ns1 = (ns2, Returned ())
      ∧ dict_get (mapping ns2) k = None
      ∧ dict_get (attributes ns2) k = None
      ∧ ∀ k', k' ≠ k → dict_get (mapping ns2) k' = dict_get (mapping ns) k'
                       ∧ dict_get (attributes ns2) k' = dict_get (attributes ns) k'.
Proof.
  intros ns1. unfold ns1, PointAccessNamespace__setitem__. simpl.
  split; [apply dict_get_set_eq|]. split; [apply dict_get_set_eq|].
  split.
  { intros k' Hne. split; apply dict_get_set_ne; exact Hne. }
  unfold PointAccessNamespace__delitem__. simpl. rewrite !dict_get_set_eq.
  eexists. split; [reflexivity|]. simpl. rewrite !dict_get_del.
  rewrite !decide_True by reflexivity. split; [reflexivity|]. split; [reflexivity|].
  intros k' Hne. rewrite !dict_get_del, !decide_False by exact Hne.
  split; apply dict_get_set_ne; exact Hne.
Qed.

(** In such a namespace [__getattr__] gives the item of the name, or
    [None], as long as no item is stored under ["get"]; once one is, every
    [__getattr__] is a call of that item in place of [dict.get].  The same
    goes for attribute assignment and an item under ["__setitem__"]. *)
Theorem namespace_method_shadowed {V} (ops : list (NamespaceOp V)) (attr : string)
    (v : V) :
  let ns := namespace_run ops in
  (dict_get (mapping ns) "get" = None →
   PointAccessNamespace__getattr__ attr ns
   = Returned (dict_get (mapping ns) attr))
  ∧ (∀ stored, dict_get (mapping ns) "get" = Some stored →
       PointAccessNamespace__getattr__ attr ns
       = Raised (NotTheMethod "get" stored))
  ∧ (dict_get (mapping ns) "__setitem__" = None →
     PointAccessNamespace__setattr__ attr v ns
     = (PointAccessNamespace__setitem__ attr v ns, Returned ()))
  ∧ (∀ stored, dict_get (mapping ns) "__setitem__" = Some stored →
       PointAccessNamespace__setattr__ attr v ns
       = (ns, Raised (NotTheMethod "__setitem__" stored))).
Proof.
  intros ns. destruct (namespace_ok_run ops) as [E _]. fold ns in E.
  unfold PointAccessNamespace__getattr__, PointAccessNamespace__setattr__.
  rewrite <- E.
  split; [intros ->; reflexivity|]. split; [intros stored ->; reflexivity|].
  split; [intros ->; reflexivity | intros stored ->; reflexivity].
Qed.

(** ** Handlers a class shows, and handlers a declaration drops *)

(** A handler connected to the signal a class shows for a name, be that
    signal its own or the one of the nearest declared class of its mro, is
    called exactly once by an emission of the name on the class that has no
    keyword named [sender] (the closures of the declaration refuse it),
    with the class as the sender when none is given. *)
Theorem shown_handler_called_once (s : State) (T : ClassId)
    (sig : SignalSchema) (sender : list Sender) (kw : dict Value)
    (rs : list Receiver) (h : Handler) :
  reachable s → issubclass s T Signaler = true →
  payload_ok kw → "sender" ∉ dict_keys kw → length sender ≤ 1 →
  class_receivers s T (_name sig) = Some rs → User h ∈ rs →
  let m := send_cls_signal T sig sender true kw in
  outcome m s = Ok ()
  ∧ ∃ c, deliveries (ViaClassSignal c) h (new_calls m s)
         = [class_call c (effective_sender T sender)
              (("signal", VSchema sig) :: kw) h]
       ∧ ∀ c', c' ≠ c → deliveries (ViaClassSignal c') h (new_calls m s) = [].
Proof.
  intros Hr Hsub Hkw Hks Hlen Hrs Hh m. apply reachable_Inv in Hr.
  apply class_receivers_Some in Hrs as (ns & c & sg & Hns & Hn & Hsg & ->).
  pose proof (send_cls_signal_run s T sig sender kw ns c sg
                Hr Hsub Hkw Hks Hlen Hns Hn Hsg) as Hrun.
  split; [unfold outcome, m; rewrite Hrun; reflexivity|].
  exists c. unfold m. rewrite (new_calls_add_calls _ s _ (f_equal fst Hrun)).
  split.
  - apply deliveries_class_once; [|exact Hh].
    eapply (inv_receivers_nodup _ Hr), Hsg.
  - intros c' Hne. apply deliveries_class_absent. left. exact Hne.
Qed.

Lemma shown_handler_called_once_witness :
  let s := run prog_late_subclass initial in
  let m := send_cls_signal 6 created [] true [] in
  outcome m s = Ok ()
  ∧ ∃ c, deliveries (ViaClassSignal c) on_created (new_calls m s)
         = [class_call c (effective_sender 6 [])
              (("signal", VSchema created) :: []) on_created]
       ∧ ∀ c', c' ≠ c →
           deliveries (ViaClassSignal c') on_created (new_calls m s) = [].
Proof.
  intros s.
  assert (E : class_receivers s 6 (_name created)
              = Some [AllCascadePadre 1 EVENT_TRIGGERED; User on_created])
    by (vm_compute; reflexivity).
  apply (shown_handler_called_once s 6 created [] []
           [AllCascadePadre 1 EVENT_TRIGGERED; User on_created] on_created).
  - apply reachable_run, reachable_initial.
  - vm_compute. reflexivity.
  - unfold payload_ok. simpl. repeat split; apply not_elem_of_nil.
  - apply not_elem_of_nil.
  - simpl. lia.
  - exact E.
  - right. left.
Defined.

Lemma deliveries_class_none s c c' sender kw h (l : list Receiver)
    (D : list Call) :
  (∀ x, x ∈ D → ∃ rcv, rcv ∈ l ∧ x ∈ receiver_calls s c sender kw rcv) →
  User h ∉ l →
  deliveries (ViaClassSignal c') h D = [].
Proof.
  intros HD Hni. unfold deliveries. induction D as [|x D IH]; [reflexivity|].
  rewrite filter_cons_False.
  - apply IH. intros y Hy. apply HD. right. exact Hy.
  - intros [Hv Hf]. destruct (HD x ltac:(left)) as (rcv & Hrcv & Hx).
    apply elem_of_receiver_calls in Hx as (_ & _ & Hx).
    destruct rcv as [h0|f t|f t].
    + subst x. simpl in Hf. subst h0. exact (Hni Hrcv).
    + destruct Hx as [E _]. rewrite E in Hv. discriminate Hv.
    + destruct Hx as [E _]. rewrite E in Hv. discriminate Hv.
Qed.

(** An emission right after a declaration of the class calls no handler
    through a signal of a class. *)
Lemma declared_then_silent s T args sig sender cond kw c h :
  Inv s → issubclass s T Signaler = true → payload_ok kw →
  deliveries (ViaClassSignal c) h
    (new_calls (send_cls_signal T sig sender cond kw)
       (exec (signals args T) s)) = [].
Proof.
  intros Hr Hsub Hkw. set (s' := exec (signals args T) s).
  pose proof (issubclass_known _ _ _ Hsub) as Hk.
  pose proof (Inv_not_object s T Hr Hsub) as Hno.
  assert (HI' : Inv s') by (apply Inv_signals, Hr).
  destruct (signals_decorator_spec args T s Hr Hk Hno) as (ns & s2 & Heq & L & _).
  assert (Hs' : s' = attach T ns s2).
  { unfold s', exec, signals. rewrite Heq. reflexivity. }
  assert (Hown : own_namespace s' T = Some ns).
  { rewrite Hs'. rewrite own_namespace_attach by apply (li_known _ _ _ _ _ L).
    rewrite decide_True by reflexivity. reflexivity. }
  assert (Hsub' : issubclass s' T Signaler = true).
  { unfold issubclass. rewrite Hs', mro_attach.
    destruct (li_classes _ _ _ _ _ L) as (_ & _ & Hmro & _). rewrite Hmro.
    exact Hsub. }
  assert (Hin' : T ∈ signal_classes s').
  { apply Inv_has_table; eauto. }
  destruct (send_cls_signal_calls s' T sig sender cond kw HI' Hsub' Hkw)
    as (s1 & _ & _ & Q & Hsame & [(r & E & _)|[(_ & E & _)|
        (p & ns1 & c1 & sg & D & r & _ & _ & Hns1 & _ & Hn & Hsg & E & HD & _)]]).
  - rewrite (new_calls_quiet _ s' s1 r (q_calls _ _ Q) E). reflexivity.
  - rewrite (new_calls_quiet _ s' s' (Ok ()) eq_refl E). reflexivity.
  - rewrite (Hsame Hin') in *.
    rewrite (new_calls_quiet_add _ s' s' _ _ eq_refl E).
    rewrite (getattr_namespace_own _ _ _ Hown) in Hns1. injection Hns1 as <-.
    apply (deliveries_class_none s' c1 c (effective_sender T sender)
             (("signal", VSchema sig) :: kw) h (receivers sg) D HD).
    apply (declared_no_users s args T ns (_name sig) c1 sg h Hr Hk Hown Hn Hsg).
Qed.

(** Right after a class has been declared, for the first time or again, an
    emission on it calls no handler through a signal of a class: the table
    is new, and what was connected to the signals the class showed before
    is not called any more. *)
Theorem fresh_declaration_silent (s : State) (T : ClassId)
    (args : list SchemaArg) (sig : SignalSchema) (sender : list Sender)
    (cond : bool) (kw : dict Value) (c : ChanId) (h : Handler) :
  reachable s → issubclass s T Signaler = true → payload_ok kw →
  let s' := exec (signals args T) s in
  deliveries (ViaClassSignal c) h
    (new_calls (send_cls_signal T sig sender cond kw) s') = [].
Proof.
  intros Hr Hsub Hkw s'. apply reachable_Inv in Hr.
  apply declared_then_silent; assumption.
Qed.

Lemma fresh_declaration_silent_witness :
  let s := run prog_declared_connected initial in
  let s' := exec (signals [] 3) s in
  deliveries (ViaClassSignal 1) on_created
    (new_calls (send_cls_signal 3 created [] true []) s') = [].
Proof.
  intros s.
  apply (fresh_declaration_silent s 3 [] created [] true [] 1 on_created).
  - apply reachable_run, reachable_initial.
  - vm_compute. reflexivity.
  - unfold payload_ok. simpl. repeat split; apply not_elem_of_nil.
Defined.

(** ** Declaring a class again *)

(** C1, amended: declaring again on a declared class keeps every name of
    its table, and binds each of them to a signal made by this declaration:
    a signal that is none of those that existed before, and that has no
    user's handler connected.  Handlers connected before stay on the old
    signal, which the class no longer uses: an emission on the class after
    the second declaration calls no handler through a signal of a class. *)
Theorem redeclaration_new_signals (s : State) (T : ClassId)
    (args : list SchemaArg) (ns : dict ChanId) (n : string) (ch0 : ChanId) :
  reachable s → issubclass s T Signaler = true →
  own_namespace s T = Some ns → dict_get ns n = Some ch0 →
  let s' := exec (signals args T) s in
  (∃ ns' ch sg,
     own_namespace s' T = Some ns'
     ∧ dict_get ns' n = Some ch
     ∧ ch0 < length (heap s) ∧ length (heap s) ≤ ch
     ∧ heap s' !! ch = Some sg
     ∧ ∀ h, User h ∉ receivers sg)
  ∧ (∀ sg0 h, heap s !! ch0 = Some sg0 → User h ∈ receivers sg0 →
       ∃ sg0', heap s' !! ch0 = Some sg0' ∧ User h ∈ receivers sg0')
  ∧ (∀ sig sender cond kw c h, payload_ok kw →
       deliveries (ViaClassSignal c) h
         (new_calls (send_cls_signal T sig sender cond kw) s') = []).
Proof.
  intros Hr Hsub Hns Hn s'. apply reachable_Inv in Hr.
  pose proof (issubclass_known _ _ _ Hsub) as Hk.
  pose proof (Inv_not_object s T Hr Hsub) as Hno.
  destruct (signals_decorator_spec args T s Hr Hk Hno)
    as (ns' & s2 & Heq & L & Hkeys).
  assert (Hs' : s' = attach T ns' s2).
  { unfold s', exec, signals. rewrite Heq. reflexivity. }
  split; [|split].
  - assert (Hin : is_Some (dict_get ns' n)).
    { apply Hkeys. eapply decorator_schemata_own; eauto. }
    destruct Hin as [ch Hch].
    destruct (li_local _ _ _ _ _ L n ch Hch) as (sg & Hsg & _).
    exists ns', ch, sg. rewrite Hs'.
    split; [|split; [exact Hch|split; [|split; [|split]]]].
    + rewrite own_namespace_attach by apply (li_known _ _ _ _ _ L).
      rewrite decide_True by reflexivity. reflexivity.
    + eapply table_ok_valid; [apply (inv_tables _ Hr), Hns | exact Hn].
    + apply (li_local_new _ _ _ _ _ L n ch Hch).
    + exact Hsg.
    + intros h Hin.
      destruct (li_old_user _ _ _ _ _ L ch sg h Hsg Hin) as (sg0 & Hsg0 & _).
      apply lookup_lt_Some in Hsg0.
      pose proof (li_local_new _ _ _ _ _ L n ch Hch). lia.
  - intros sg0 h Hsg0 Hh. rewrite Hs'.
    apply (li_user_kept _ _ _ _ _ L ch0 sg0 h); assumption.
  - intros sig sender cond kw c h Hkw. unfold s'.
    apply declared_then_silent; assumption.
Qed.

(** [A] declares ["created"] and a handler is connected; [A] is declared
    again. *)
Lemma redeclaration_new_signals_witness :
  let s := run prog_declared_connected initial in
  let s' := exec (signals [ArgStr "created"] 3) s in
  (∃ ns' ch sg,
     own_namespace s' 3 = Some ns'
     ∧ dict_get ns' "created" = Some ch
     ∧ 0 < length (heap s) ∧ length (heap s) ≤ ch
     ∧ heap s' !! ch = Some sg
     ∧ ∀ h, User h ∉ receivers sg)
  ∧ (∃ sg0', heap s' !! 0 = Some sg0' ∧ User on_created ∈ receivers sg0')
  ∧ deliveries (ViaClassSignal 0) on_created
      (new_calls (send_cls_signal 3 created [] true []) s') = [].
Proof.
  intros s s'.
  assert (Hsg0 : heap s !! 0
                 = Some {| sig_name := "created";
                           receivers := [AllCascadePadre 0 EVENT_TRIGGERED;
                                         User on_created] |})
    by (vm_compute; reflexivity).
  destruct (redeclaration_new_signals s 3 [ArgStr "created"] [("created", 0)]
              "created" 0) as (Hnew & Hkept & Hsilent).
  - apply reachable_run, reachable_initial.
  - vm_compute. reflexivity.
  - vm_compute. reflexivity.
  - vm_compute. reflexivity.
  - split; [exact Hnew|]. split.
    + apply (Hkept _ on_created Hsg0). right. left.
    + apply Hsilent. repeat split; apply not_elem_of_nil.
Defined.

(** ** The merge and the table of a declared subclass *)

Lemma find_table_ext s s' (l : list ClassId) :
  (∀ q, q ∈ l → own_namespace s' q = own_namespace s q) →
  (list_find (λ p, is_Some (own_namespace s' p)) l ≫= λ ip, own_namespace s' ip.2)
  = (list_find (λ p, is_Some (own_namespace s p)) l ≫= λ ip, own_namespace s ip.2).
Proof.
  induction l as [|q l IH]; intros H; simpl; [reflexivity|].
  rewrite (H q ltac:(left)).
  destruct (decide (is_Some (own_namespace s q))) as [Hq|Hq].
  - simpl. apply H. left.
  - assert (IH' := IH ltac:(intros q' Hq'; apply H; right; exact Hq')).
    destruct (list_find _ l) as [[i x]|]; destruct (list_find _ l) as [[j y]|];
      simpl in *; exact IH'.
Qed.

Lemma getattr_namespace_ext s s' p :
  mro s' p = mro s p →
  (∀ q, q ∈ mro s p → own_namespace s' q = own_namespace s q) →
  getattr_namespace s' p = getattr_namespace s p.
Proof.
  intros Hm H. unfold getattr_namespace. rewrite Hm. apply find_table_ext, H.
Qed.

(** A class is in the mro of none of the other classes of its own mro. *)
Lemma mro_not_back s B p :
  MroOk s → p ∈ mro s B → p ≠ B → B ∉ mro s p.
Proof.
  intros [_ H] Hp Hne HB.
  destruct (H B) as [_ H1]. destruct (H1 p Hp) as [Hle _].
  destruct (H p) as [_ H2]. destruct (H2 B HB) as [Hle' _]. lia.
Qed.

(** C3, amended.  The merge is base-wins: when [A] comes in the mro of [B]
    after the classes [pre], has [n] bound to the signal [c] in its own
    table, and no class after [A] has [n], the table merged for [B] binds
    [n] to [c], before [B] is declared and after.  The table of [B] is not
    the merged one: a declaration of [B] leaves the table of [A] alone and
    gives [B] a table of its own, which [B.signals()] returns, with [n]
    bound to a signal made by this declaration, not to [c]; and that signal
    has the cascade closure whenever the declaration of [B] names [n] as
    cascading, whatever [A] declared. *)
Theorem merge_base_wins (s : State) (B A : ClassId) (pre post : list ClassId)
    (nsA : dict ChanId) (n : string) (c : ChanId) (args : list SchemaArg) :
  reachable s →
  issubclass s B Signaler = true →
  mro s B = pre ++ A :: post →
  issubclass s A Signaler = true →
  own_namespace s A = Some nsA →
  dict_get nsA n = Some c →
  (∀ p ns, p ∈ post → issubclass s p Signaler = true →
           getattr_namespace s p = Some ns → dict_get ns n = None) →
  let s' := exec (signals args B) s in
  dict_get (_merge_dict_class_vars s B Signaler) n = Some c
  ∧ (A ≠ B →
     own_namespace s' A = Some nsA
     ∧ dict_get (_merge_dict_class_vars s' B Signaler) n = Some c)
  ∧ ∃ ns' ch sg,
      own_namespace s' B = Some ns'
      ∧ outcome (Signaler_signals B) s' = Ok ns'
      ∧ dict_get ns' n = Some ch
      ∧ c < length (heap s) ∧ length (heap s) ≤ ch
      ∧ heap s' !! ch = Some sg
      ∧ ((∃ a, a ∈ args ∧ _name (schema_of_arg a) = n
               ∧ _cascade (schema_of_arg a) = true) →
         (∀ m, m ∈ schema_names (decorator_schemata s args B) →
               n ≠ generic_prefixed m) →
         ∃ f, CascadePadre f n ∈ receivers sg).
Proof.
  intros Hr HsubB Hmro HsubA HnsA Hn Hpost s'.
  pose proof (reachable_MroOk _ Hr) as HM. apply reachable_Inv in Hr.
  pose proof (issubclass_known _ _ _ HsubB) as Hk.
  pose proof (Inv_not_object s B Hr HsubB) as Hno.
  pose proof (getattr_namespace_own _ _ _ HnsA) as HgA.
  assert (HAin : A ∈ mro s B).
  { rewrite Hmro. apply elem_of_app. right. left. }
  destruct (signals_decorator_spec args B s Hr Hk Hno)
    as (ns' & s2 & Heq & L & Hkeys).
  assert (Hs' : s' = attach B ns' s2).
  { unfold s', exec, signals. rewrite Heq. reflexivity. }
  destruct (li_classes _ _ _ _ _ L) as (_ & Hown2 & Hmro2 & _).
  assert (Hown' : ∀ q, q ≠ B → own_namespace s' q = own_namespace s q).
  { intros q Hq. rewrite Hs'.
    rewrite own_namespace_attach by apply (li_known _ _ _ _ _ L).
    rewrite decide_False by exact Hq. rewrite Hown2. reflexivity. }
  assert (Hmro' : ∀ q, mro s' q = mro s q).
  { intros q. rewrite Hs', mro_attach, Hmro2. reflexivity. }
  assert (HownB : own_namespace s' B = Some ns').
  { rewrite Hs'. rewrite own_namespace_attach by apply (li_known _ _ _ _ _ L).
    rewrite decide_True by reflexivity. reflexivity. }
  split; [|split].
  - apply (merge_most_basic s B A pre post nsA n c); try assumption.
    apply (inv_tables_nodup _ Hr A), HnsA.
  - intros Hne.
    assert (HB : ∀ p, p ∈ mro s B → p ≠ B → 
              getattr_namespace s' p = getattr_namespace s p).
    { intros p Hp Hpne. apply getattr_namespace_ext; [apply Hmro'|].
      intros q Hq. apply Hown'. intros ->.
      exact (mro_not_back s B p HM Hp Hpne Hq). }
    assert (Hhead : ∃ rest, mro s B = B :: rest).
    { unfold mro in *. destruct (classes s !! B); [eauto|].
      apply elem_of_nil in HAin. destruct HAin. }
    destruct Hhead as [rest Hrest].
    assert (Hpost_ne : ∀ p, p ∈ post → p ≠ B).
    { intros p Hp ->. destruct HM as [_ HM]. destruct (HM B) as [Hnd _].
      rewrite Hmro in Hnd. destruct pre as [|x pre].
      - simpl in Hmro. rewrite Hrest in Hmro. injection Hmro as E _.
        destruct Hne. congruence.
      - simpl in Hmro. rewrite Hrest in Hmro. injection Hmro as <- _.
        simpl in Hnd. apply NoDup_cons in Hnd as [Hni _]. apply Hni.
        apply elem_of_app. right. right. exact Hp. }
    split; [rewrite (Hown' A Hne); exact HnsA|].
    apply (merge_most_basic s' B A pre post nsA n c).
    + rewrite Hmro'. exact Hmro.
    + unfold issubclass. rewrite Hmro'. exact HsubA.
    + rewrite (HB A HAin Hne). exact HgA.
    + apply (inv_tables_nodup _ Hr A), HnsA.
    + exact Hn.
    + intros p ns Hp Hsp Hgp.
      assert (Hpin : p ∈ mro s B).
      { rewrite Hmro. apply elem_of_app. right. right. exact Hp. }
      rewrite (HB p Hpin (Hpost_ne p Hp)) in Hgp.
      unfold issubclass in Hsp. rewrite Hmro' in Hsp.
      exact (Hpost p ns Hp Hsp Hgp).
  - assert (Hin : is_Some (dict_get ns' n)).
    { apply Hkeys. unfold decorator_schemata, schema_names.
      rewrite map_app, elem_of_app. right.
      assert (Hh : hasattr_namespace s B = true).
      { apply hasattr_namespace_true.
        destruct (getattr_namespace s B) eqn:E; [eauto|].
        rewrite (proj1 (getattr_namespace_None s B) E A HAin) in HnsA.
        discriminate. }
      rewrite Hh. fold (schema_names (inherited_schemata s B)).
      rewrite inherited_schemata_names. apply merge_keys.
      exists A, nsA. split; [exact HAin|]. split; [exact HsubA|].
      split; [exact HgA|]. apply dict_keys_is_Some. eauto. }
    destruct Hin as [ch Hch].
    destruct (li_local _ _ _ _ _ L n ch Hch) as (sg & Hsg & _).
    exists ns', ch, sg. split; [exact HownB|].
    split; [|split; [exact Hch|split; [|split; [|split]]]].
    + unfold outcome, Signaler_signals. unfold issubclass.
      rewrite Hmro'. fold (issubclass s B Signaler). rewrite HsubB.
      rewrite (getattr_namespace_own _ _ _ HownB). reflexivity.
    + eapply table_ok_valid; [apply (inv_tables _ Hr), HnsA | exact Hn].
    + apply (li_local_new _ _ _ _ _ L n ch Hch).
    + rewrite Hs'. exact Hsg.
    + intros Ha Hgp.
      destruct (signals_cascade_edge s B args n Hr Hk Hno Ha Hgp)
        as (ns2 & s3 & Heq3 & L3 & (ch3 & sg3 & f & Hch3 & Hsg3 & _ & Hf)).
      unfold signals in Heq3. rewrite Heq in Heq3.
      assert (Hst : attach B ns' s2 = attach B ns2 s3)
        by (apply (f_equal fst) in Heq3; exact Heq3).
      assert (Hns2 : ns2 = ns').
      { assert (E : own_namespace (attach B ns' s2) B
                    = own_namespace (attach B ns2 s3) B) by (rewrite Hst; reflexivity).
        rewrite (own_namespace_attach B ns' s2) in E
          by apply (li_known _ _ _ _ _ L).
        rewrite (own_namespace_attach B ns2 s3) in E
          by apply (li_known _ _ _ _ _ L3).
        rewrite !decide_True in E by reflexivity. congruence. }
      subst ns2. 
      assert (Hh : heap s3 = heap s2).
      { change (heap (attach B ns' s3) = heap (attach B ns' s2)).
        rewrite Hst. reflexivity. }
      rewrite Hh in Hsg3. 
      assert (ch3 = ch) as -> by congruence.
      assert (sg3 = sg) as -> by congruence.
      exists f. exact Hf.
Qed.

(** [A] declares ["created"], and [B(A)] is declared with ["created"] as
    cascading. *)
Lemma merge_base_wins_witness :
  let s := run prog_undeclared_subclass initial in
  let s' := exec (signals [ArgSchema created_cascading] 4) s in
  dict_get (_merge_dict_class_vars s 4 Signaler) "created" = Some 0
  ∧ own_namespace s' 3 = Some [("created", 0)]
  ∧ dict_get (_merge_dict_class_vars s' 4 Signaler) "created" = Some 0
  ∧ ∃ ns' ch sg,
      own_namespace s' 4 = Some ns'
      ∧ outcome (Signaler_signals 4) s' = Ok ns'
      ∧ dict_get ns' "created" = Some ch
      ∧ 0 < length (heap s) ∧ length (heap s) ≤ ch
      ∧ heap s' !! ch = Some sg
      ∧ ∃ f, CascadePadre f "created" ∈ receivers sg.
Proof.
  intros s s'.
  assert (Hr : reachable s) by apply reachable_run, reachable_initial.
  assert (Hm : mro s 4 = [4] ++ 3 :: [2; 1; 0]) by (vm_compute; reflexivity).
  assert (H4 : issubclass s 4 Signaler = true) by (vm_compute; reflexivity).
  assert (H3 : issubclass s 3 Signaler = true) by (vm_compute; reflexivity).
  assert (Ho : own_namespace s 3 = Some [("created", 0)])
    by (vm_compute; reflexivity).
  assert (H2 : getattr_namespace s 2 = None) by (vm_compute; reflexivity).
  assert (H1 : issubclass s 1 Signaler = false) by (vm_compute; reflexivity).
  assert (H0 : issubclass s 0 Signaler = false) by (vm_compute; reflexivity).
  assert (Hnames : schema_names
                     (decorator_schemata s [ArgSchema created_cascading] 4)
                   = ["created"; "created"]) by (vm_compute; reflexivity).
  destruct (merge_base_wins s 4 3 [4] [2; 1; 0] [("created", 0)] "created" 0
              [ArgSchema created_cascading] Hr H4 Hm H3 Ho eq_refl)
    as (Hmerge & Hafter & ns' & ch & sg & Hown & Hout & Hch & Hlt & Hle & Hsg
        & Hcasc).
  - intros p ns Hp Hs Hns.
    apply elem_of_cons in Hp as [->|Hp]; [congruence|].
    apply elem_of_cons in Hp as [->|Hp]; [congruence|].
    apply elem_of_cons in Hp as [->|Hp]; [congruence|].
    apply elem_of_nil in Hp. destruct Hp.
  - destruct (Hafter ltac:(clear; discriminate)) as [HownA Hmerge'].
    split; [exact Hmerge|]. split; [exact HownA|]. split; [exact Hmerge'|].
    exists ns', ch, sg. repeat (split; [assumption|]).
    apply Hcasc.
    + exists (ArgSchema created_cascading). split; [left|]. split; reflexivity.
    + rewrite Hnames. clear. intros m Hm.
      apply elem_of_cons in Hm as [->|Hm]; [discriminate|].
      apply elem_of_cons in Hm as [->|Hm]; [discriminate|].
      apply elem_of_nil in Hm. destruct Hm.
Defined.

(** ** A class defined after a transitive connection *)

Lemma exec_then_ret {A} (m : M A) s : exec (m ;;; ret ()) s = exec m s.
Proof. unfold exec, bind. destruct (m s) as [s' [a|e]]; reflexivity. Qed.

(** A new class leaves the classes that exist, the signals and the log as
    they are. *)
Lemma define_class_old bs s :
  let s2 := exec (define_class bs) s in
  heap s2 = heap s ∧ calls s2 = calls s
  ∧ ∀ c, c < length (classes s) →
         own_namespace s2 c = own_namespace s c ∧ mro s2 c = mro s c.
Proof.
  unfold exec, define_class.
  destruct (bool_decide _); [|auto].
  destruct (linearize s _) as [anc|]; [|auto].
  simpl. split; [reflexivity|]. split; [reflexivity|]. intros c Hc.
  unfold own_namespace, mro. simpl. rewrite lookup_app_l by exact Hc. auto.
Qed.

(** C7, amended: when [A] is declared and [A] and its declared subclasses
    all have the name, connecting a handler to [A] and its subclasses
    succeeds and connects the handler to the signal of that name in the own
    table of [A] and of every class below [A], each declared on the way if
    it was not.  A class [D] defined after the call is none of those: it
    has no table of its own, and once it is declared, given any schemata or
    none, the signal of its own table has not got the handler.  Until then
    [D] shows the table of the first class of its mro that has one, and
    when that class is one of those connected, an emission of the name on
    [D] succeeds and calls the handler, exactly once. *)
Theorem connect_subclasses_snapshot (s : State) (A : ClassId)
    (nm : option string) (h : Handler) :
  reachable s → issubclass s A Signaler = true → A ∈ signal_classes s →
  (∀ X ns, desc s A X → own_namespace s X = Some ns →
           is_Some (dict_get ns (default (fn_name h) nm))) →
  let n := default (fn_name h) nm in
  let s1 := exec (connect_subclasses [A] nm h) s in
  outcome (connect_subclasses [A] nm h) s = Ok h
  ∧ (∀ X, desc s A X → Connected s1 n h X)
  ∧ (∀ bs D, outcome (define_class bs) s1 = Ok D →
       let s2 := exec (define_class bs) s1 in
       (¬ desc s A D)
       ∧ own_namespace s2 D = None
       ∧ (D ∉ signal_classes s2)
       ∧ (∀ args ns c sg,
            own_namespace (exec (signals args D) s2) D = Some ns →
            dict_get ns n = Some c →
            heap (exec (signals args D) s2) !! c = Some sg →
            User h ∉ receivers sg)
       ∧ (∀ B pre post,
            mro s2 D = pre ++ B :: post →
            (∀ q, q ∈ pre → own_namespace s2 q = None) →
            desc s A B →
            getattr_namespace s2 D = own_namespace s2 B
            ∧ ∀ sig sender kw,
                _name sig = n → payload_ok kw → "sender" ∉ dict_keys kw →
                length sender ≤ 1 →
                let m := send_cls_signal D sig sender true kw in
                outcome m s2 = Ok ()
                ∧ ∃ c, deliveries (ViaClassSignal c) h (new_calls m s2)
                       = [class_call c (effective_sender D sender)
                            (("signal", VSchema sig) :: kw) h])).
Proof.
  intros Hr0 Hsub HA Hdecl n s1.
  pose proof (reachable_Wf _ Hr0) as W.
  pose proof (reachable_Inv _ Hr0) as Hr.
  assert (R : Ready s A n).
  { split; [exact Hsub|]. split; [|exact Hdecl].
    apply Inv_declared; [exact Hr | exact HA | apply (Inv_not_object _ _ Hr Hsub)]. }
  pose proof (issubclass_known _ _ _ Hsub) as HkA.
  destruct (connect_level A n h (S (length (classes s))) [A] nm s 0
              eq_refl Hr W R ltac:(discriminate)) as (s' & Heq & HI & F & C).
  { intros X HX. apply list_elem_of_singleton in HX. subst X.
    split; [constructor | lia]. }
  { lia. }
  assert (Hs1 : s1 = s').
  { unfold s1, exec, connect_subclasses. rewrite Heq. reflexivity. }
  assert (Hr1 : reachable s1).
  { unfold s1. rewrite <- exec_then_ret.
    apply (reachable_step s (OpConnectSubclasses [A] nm h) Hr0). }
  split; [unfold outcome, connect_subclasses; rewrite Heq; reflexivity|].
  split.
  - intros X HX. rewrite Hs1. apply (C A X); [left | exact HX].
  - intros bs D HD s2.
    assert (Hr2 : reachable s2).
    { unfold s2. rewrite <- exec_then_ret.
      apply (reachable_step s1 (OpClass bs) Hr1). }
    destruct (define_class_old bs s1) as (Hheap & _ & Hold). fold s2 in Hheap, Hold.
    revert Hr2 Hheap Hold.
    rewrite Hs1 in HD. unfold s2. rewrite Hs1. clear s2. intros Hr2 Hheap Hold.
    destruct (define_class_Ok bs s' D HD) as (-> & Hown & Hsc & Hlen).
    pose proof (Inv_define_class bs s' HI) as HI2. simpl in HI2.
    fold (exec (define_class bs) s') in HI2.
    split; [|split; [exact Hown|split; [|split]]].
    + intros Hd. apply (desc_known _ _ _ HkA) in Hd.
      rewrite (f_length _ _ F) in Hd. lia.
    + intros Hin.
      assert (Hne : length (classes s') ≠ object_).
      { pose proof (Inv_object_known s' HI). unfold object_ in *. lia. }
      destruct (Inv_declared _ _ HI2 Hin Hne) as [? Hin'].
      rewrite Hown in Hin'. discriminate.
    + intros args ns c sg. apply declared_no_users; [exact HI2|].
      rewrite Hlen. lia.
    + intros B pre post Hmro Hpre HdB.
      set (s2 := exec (define_class bs) s') in *.
      destruct (C A B ltac:(left) HdB) as (nsB & c & sg & HnsB & Hc & Hsg & Hh).
      assert (HkB : B < length (classes s')).
      { unfold own_namespace in HnsB.
        destruct (classes s' !! B) eqn:E; [|discriminate].
        eapply lookup_lt_Some, E. }
      destruct (Hold B HkB) as [HownB HmroB].
      assert (HnsB2 : own_namespace s2 B = Some nsB) by (rewrite HownB; exact HnsB).
      assert (Hg : getattr_namespace s2 (length (classes s')) = Some nsB).
      { eapply getattr_namespace_first; eauto. }
      split; [rewrite Hg, HnsB2; reflexivity|].
      intros sig sender kw Hname Hkw Hks Hlen1.
      assert (Hsub2 : issubclass s2 (length (classes s')) Signaler = true).
      { apply bool_decide_eq_true.
        apply (mro_closed s2 _ B Signaler (reachable_MroOk _ Hr2)).
        - rewrite Hmro. apply elem_of_app. right. left.
        - rewrite HmroB, (f_mro _ _ F).
          pose proof (desc_issubclass _ _ _ _ W HdB Hsub) as HsB.
          apply bool_decide_eq_true in HsB. exact HsB. }
      assert (Hsg2 : heap s2 !! c = Some sg) by (rewrite Hheap; exact Hsg).
      rewrite <- Hname in Hc.
      pose proof (send_cls_signal_run s2 _ sig sender kw nsB c sg
                    HI2 Hsub2 Hkw Hks Hlen1 Hg Hc Hsg2) as Hrun.
      split; [unfold outcome; rewrite Hrun; reflexivity|].
      exists c.
      rewrite (new_calls_add_calls _ s2 _ (f_equal fst Hrun)).
      apply deliveries_class_once; [|exact Hh].
      eapply (inv_receivers_nodup _ HI2), Hsg2.
Qed.

(** [A] with the subclasses [B] and [C]; after the call [D(B)] is defined,
    and ["created"] is emitted on it. *)
Lemma connect_subclasses_snapshot_witness :
  let s := run prog_subclasses initial in
  let s1 := exec (connect_subclasses [3] (Some "created") on_created) s in
  let s2 := exec (define_class [4]) s1 in
  let m := send_cls_signal 6 created [] true [] in
  outcome (connect_subclasses [3] (Some "created") on_created) s
  = Ok on_created
  ∧ (∀ X, desc s 3 X → Connected s1 "created" on_created X)
  ∧ own_namespace s2 6 = None
  ∧ (6 ∉ signal_classes s2)
  ∧ (∀ args ns c sg,
       own_namespace (exec (signals args 6) s2) 6 = Some ns →
       dict_get ns "created" = Some c →
       heap (exec (signals args 6) s2) !! c = Some sg →
       User on_created ∉ receivers sg)
  ∧ getattr_namespace s2 6 = own_namespace s2 4
  ∧ outcome m s2 = Ok ()
  ∧ ∃ c, deliveries (ViaClassSignal c) on_created (new_calls m s2)
         = [class_call c (SenderClass 6) [("signal", VSchema created)]
              on_created].
Proof.
  intros s s1 s2 m.
  assert (Hr : reachable s) by apply reachable_run, reachable_initial.
  assert (Hcl : signal_namespace <$> classes s
                = [None; None; None; Some [("created", 0)]; None; None])
    by (vm_compute; reflexivity).
  assert (HD : outcome (define_class [4]) s1 = Ok 6)
    by (vm_compute; reflexivity).
  assert (Hmro : mro s2 6 = [6] ++ 4 :: [3; 2; 1; 0])
    by (vm_compute; reflexivity).
  assert (Hb : bases_of s 4 = [3]) by (vm_compute; reflexivity).
  destruct (connect_subclasses_snapshot s 3 (Some "created") on_created)
    as (Hok & Hconn & Hlate).
  - exact Hr.
  - vm_compute. reflexivity.
  - apply (Inv_has_table s 3 (reachable_Inv s Hr)).
    rewrite own_namespace_fmap, Hcl. simpl. eauto.
  - intros X ns _. rewrite own_namespace_fmap, Hcl. clear.
    destruct X as [|[|[|[|[|[|X]]]]]];
      cbn [lookup list_lookup mbind option_bind id]; try discriminate.
    intros E. injection E as <-. simpl. eauto.
  - destruct (Hlate [4] 6 HD) as (_ & Hown & Hni & Hdecl & Hshow).
    fold s2 in Hown, Hni, Hdecl, Hshow.
    destruct (Hshow 4 [6] [3; 2; 1; 0] Hmro) as (Hg & Hsend).
    + intros q Hq. apply list_elem_of_singleton in Hq. subst q. exact Hown.
    + apply (desc_sub s 3 3 4); [constructor|]. rewrite Hb. left.
    + destruct (Hsend created [] [] eq_refl) as (Hout & c & Hdel).
      * repeat split; apply not_elem_of_nil.
      * apply not_elem_of_nil.
      * simpl. lia.
      * split; [exact Hok|]. split; [exact Hconn|]. split; [exact Hown|].
        split; [exact Hni|]. split; [exact Hdecl|]. split; [exact Hg|].
        split; [exact Hout|]. exists c. exact Hdel.
Defined.
